(** * BBP digits of pi over a worker group: a shallow embedding

    The development follows [pi_bbp_mpi.c] (the BBP engine: precision
    planner, term evaluator, strided accumulation, textual transport of the
    partial sums, aggregation on rank 0, digit rendering) and
    [pi_mpi.c] (the block-partitioned midpoint rule).

    C [int] values are carried as [Z].  Signed overflow is undefined in C
    and has no counterpart here: the statements about whole runs carry the
    representability of [digits + 100] (the largest [int] expression
    formed from the request) as a hypothesis, and a loop counter leaves
    the [int] range only when its bound plus its step does.
    [unsigned long] and [size_t] arithmetic wraps modulo 2^64 and the wrap
    is written out.

    GMP is an external library.  Its [mpf] functions are modelled by their
    documented contract: the exact result, truncated to the working
    precision.  The model keeps exactly the requested number of mantissa
    bits, the least the library promises.  The library keeps whole limbs,
    so its values are at least as accurate: the error bounds proved here
    carry over to them, while a bound on a mantissa or a bit pattern is a
    fact of the model. *)

From Stdlib Require Import ZArith QArith Qabs Qpower Qround Lia Lqa List
  String Ascii Bool.
From Stdlib Require Import Sorted.
Import ListNotations.

Local Open Scope Z_scope.

(** ** Machine integers *)

Definition INT_MAX : Z := 2147483647.
Definition INT_MIN : Z := -2147483648.
Definition ULONG_MOD : Z := 2 ^ 64.

Definition int_range (z : Z) : Prop := INT_MIN <= z <= INT_MAX.

(** [unsigned long] wrap-around. *)
Definition ulong (z : Z) : Z := z mod ULONG_MOD.

(** Conversion to [size_t] (64 bits). *)
Definition to_size_t (z : Z) : Z := z mod ULONG_MOD.

(** ** Outcomes of a run

    A call either returns or stops the process: GMP raises a
    division-by-zero exception, a write past the end of a buffer is
    undefined, MPI aborts on a truncated receive.  [OutOfFuel] is the
    model's own: a loop that did not finish within its fuel. *)

Inductive fault : Type :=
| DivideByZero
| BufferOverrun
| RecvTruncated
| NoMessage
| OutOfFuel.

Inductive exec (A : Type) : Type :=
| Done (a : A)
| Fault (f : fault).

Arguments Done {A} a.
Arguments Fault {A} f.

Definition bind {A B : Type} (m : exec A) (k : A -> exec B) : exec B :=
  match m with
  | Done a => k a
  | Fault f => Fault f
  end.

Notation "x <- m ;; k" := (bind m (fun x => k))
  (at level 61, m at next level, right associativity).

(** ** The [mpf] model *)

(** An [mpf] value is [mant * 2 ^ expo]. *)
Record mpf : Type := MkMpf { mant : Z; expo : Z }.

Definition mpf_zero : mpf := MkMpf 0 0.

Definition value (x : mpf) : Q := inject_Z (mant x) * (2 ^ expo x)%Q.

(** Truncation of the mantissa to [p] bits, toward zero. *)
Definition normalize (p : Z) (x : mpf) : mpf :=
  if Z.abs (mant x) <? 2 ^ p then x
  else
    let s := Z.log2 (Z.abs (mant x)) + 1 - p in
    MkMpf (Z.quot (mant x) (2 ^ s)) (expo x + s).

(** [(n / d) * 2 ^ e] truncated to [p] bits, for [d > 0]. *)
Definition mpf_round (p : Z) (n d e : Z) : mpf :=
  if n =? 0 then mpf_zero
  else
    let s := Z.max 0 (p + 1 + Z.log2 d - Z.log2 (Z.abs n)) in
    normalize p (MkMpf (Z.quot (n * 2 ^ s) d) (e - s)).

Definition mpf_neg (x : mpf) : mpf := MkMpf (- mant x) (expo x).

Definition mpf_set (p : Z) (x : mpf) : mpf := normalize p x.

Definition mpf_set_ui (n : Z) : mpf := MkMpf n 0.

(** Exact sum on the common exponent, then truncation; a zero operand
    makes the call a copy of the other one, as in GMP. *)
Definition mpf_add (p : Z) (x y : mpf) : mpf :=
  if mant y =? 0 then mpf_set p x
  else if mant x =? 0 then mpf_set p y
  else
    let e := Z.min (expo x) (expo y) in
    normalize p
      (MkMpf (mant x * 2 ^ (expo x - e) + mant y * 2 ^ (expo y - e)) e).

Definition mpf_sub (p : Z) (x y : mpf) : mpf := mpf_add p x (mpf_neg y).

Definition mpf_sub_ui (p : Z) (x : mpf) (n : Z) : mpf :=
  mpf_sub p x (mpf_set_ui n).

Definition mpf_mul (p : Z) (x y : mpf) : mpf :=
  normalize p (MkMpf (mant x * mant y) (expo x + expo y)).

Definition mpf_div_ui (p : Z) (x : mpf) (n : Z) : exec mpf :=
  if n =? 0 then Fault DivideByZero
  else Done (mpf_round p (mant x) n (expo x)).

Definition mpf_div (p : Z) (x y : mpf) : exec mpf :=
  if mant y =? 0 then Fault DivideByZero
  else
    Done (mpf_round p (mant x * Z.sgn (mant y)) (Z.abs (mant y))
            (expo x - expo y)).

(** Binary powering with truncating products; GMP widens the working
    precision of the intermediate products by the bit length of the
    exponent. *)
Definition mpf_pow_ui (p : Z) (x : mpf) (k : Z) : mpf :=
  match k with
  | Zpos n => normalize p (Pos.iter_op (mpf_mul (p + Z.log2 k)) n x)
  | _ => mpf_set_ui 1
  end.

(** ** Precision planner *)

(** [(unsigned long)(digits * 3.5 + 64)]: for an [int] argument the
    double product and sum are exact (a multiple of 1/2 below 2^35), and
    the conversion drops the fraction. *)
Definition calculate_precision (digits : Z) : Z :=
  ulong (Z.quot (7 * digits + 128) 2).

Definition calculate_num_terms (digits : Z) : Z := digits + 10.

(** ** Term evaluator *)

Definition bbp_k8 (k : Z) : Z := ulong (8 * k).

(** The arguments of the four [mpf_div_ui] calls, in program order. *)
Definition bbp_divisors (k : Z) : list Z :=
  let k8 := bbp_k8 k in
  [ulong (k8 + 1); ulong (k8 + 4); ulong (k8 + 5); ulong (k8 + 6)].

Definition compute_bbp_term (prec : Z) (k : Z) : exec mpf :=
  let k8 := bbp_k8 k in
  let power16 := mpf_set_ui 16 in
  let power16 := mpf_pow_ui prec power16 k in
  term1 <- mpf_div_ui prec (mpf_set_ui 4) (ulong (k8 + 1)) ;;
  term2 <- mpf_div_ui prec (mpf_set_ui 2) (ulong (k8 + 4)) ;;
  term3 <- mpf_div_ui prec (mpf_set_ui 1) (ulong (k8 + 5)) ;;
  term4 <- mpf_div_ui prec (mpf_set_ui 1) (ulong (k8 + 6)) ;;
  let temp := mpf_sub prec term1 term2 in
  let temp := mpf_sub prec temp term3 in
  let temp := mpf_sub prec temp term4 in
  mpf_div prec temp power16.

(** ** Strided accumulation *)

(** [for (int k = start; k < stop; k += step) acc = body(k, acc)]. *)
Fixpoint for_stride {S : Type} (fuel : nat) (k step stop : Z)
    (body : Z -> S -> exec S) (acc : S) : exec S :=
  if k <? stop then
    match fuel with
    | O => Fault OutOfFuel
    | Datatypes.S fuel' =>
        acc' <- body k acc ;;
        for_stride fuel' (k + step) step stop body acc'
    end
  else Done acc.

Definition stride_fuel (start stop : Z) : nat := Z.to_nat (stop - start).

(** The indices the loop of [compute_local_sum] visits, in order. *)
Definition owned_terms (rank size num_terms : Z) : exec (list Z) :=
  for_stride (stride_fuel rank num_terms) rank size num_terms
    (fun k acc => Done (acc ++ [k])) [].

Definition compute_local_sum (prec : Z) (rank size num_terms : Z)
    : exec mpf :=
  for_stride (stride_fuel rank num_terms) rank size num_terms
    (fun k local_sum =>
       term <- compute_bbp_term prec (ulong k) ;;
       Done (mpf_add prec local_sum term))
    (mpf_set_ui 0).

(** ** Decimal text *)

Definition NUL : ascii := Ascii.zero.

Definition digit_char (d : Z) : ascii := ascii_of_nat (Z.to_nat (48 + d)).

Definition digit_val (c : ascii) : option Z :=
  let n := Z.of_nat (nat_of_ascii c) in
  if (48 <=? n) && (n <=? 57) then Some (n - 48) else None.

(** [w] decimal digits of [n], most significant first. *)
Fixpoint dec_fixed (w : nat) (n : Z) : list ascii :=
  match w with
  | O => []
  | Datatypes.S w' => dec_fixed w' (n / 10) ++ [digit_char (n mod 10)]
  end.

Fixpoint dec_width_aux (fuel : nat) (n : Z) : nat :=
  match fuel with
  | O => 1
  | Datatypes.S f => if n <? 10 then 1%nat else Datatypes.S (dec_width_aux f (n / 10))
  end.

Definition dec_width (n : Z) : nat := dec_width_aux (Z.to_nat (Z.log2 n)) n.

(** A natural number without leading zeros. *)
Definition dec_nat (n : Z) : list ascii := dec_fixed (dec_width n) n.

(** [|x| * 10 ^ n] rounded to the nearest integer, halves upward. *)
Definition scaled_round (n : Z) (x : mpf) : Z :=
  let a := Z.abs (mant x) * 10 ^ n in
  if 0 <=? expo x then a * 2 ^ expo x
  else (2 * a + 2 ^ (- expo x)) / (2 * 2 ^ (- expo x)).

(** [gmp_sprintf (buf, "%.*Ff", n, x)]: fixed notation with [n] digits
    after the point, the value rounded to nearest at that place, as C's
    [printf] does for [%f] (GMP's formatter discards the excess digits and
    rounds to nearest).  The library rounds a digit string that is
    itself a rounding, three digits longer; the model rounds the exact
    value once.  Either way the integer spelled by the digits is within
    0.501 of [|x| * 10 ^ n], and the statements about printed digits are
    made through that bound.  Both call sites pass [n >= 1]; a precision
    below zero is formatted here as zero. *)
Definition gmp_sprintf_Ff (n : Z) (x : mpf) : list ascii :=
  let n := Z.max 0 n in
  let r := scaled_round n x in
  (if mant x <? 0 then ["-"%char] else [])
  ++ dec_nat (r / 10 ^ n)
  ++ (if 0 <? n then "."%char :: dec_fixed (Z.to_nat n) (r mod 10 ^ n)
      else []).

(** Writing the text and its terminator into a buffer of [size] bytes. *)
Definition sprintf_into (size : Z) (text : list ascii) : exec (list ascii) :=
  if Z.of_nat (List.length text) + 1 <=? size then Done text
  else Fault BufferOverrun.

Fixpoint parse_dec (s : list ascii) (acc cnt : Z) : option (Z * Z) :=
  match s with
  | [] => Some (acc, cnt)
  | c :: s' =>
      match digit_val c with
      | Some d => parse_dec s' (10 * acc + d) (cnt + 1)
      | None => None
      end
  end.

Fixpoint split_point (s : list ascii) : list ascii * list ascii :=
  match s with
  | [] => ([], [])
  | c :: s' =>
      if Ascii.eqb c "."%char then ([], s')
      else let (i, f) := split_point s' in (c :: i, f)
  end.

(** The digits of a fixed-notation number, as a fraction: numerator and
    power-of-ten denominator. *)
Definition parse_fixed (body : list ascii) : option (Z * Z) :=
  let (ip, fp) := split_point body in
  match parse_dec ip 0 0, parse_dec fp 0 0 with
  | Some (i, ci), Some (f, cf) =>
      if ci + cf =? 0 then None else Some (i * 10 ^ cf + f, 10 ^ cf)
  | _, _ => None
  end.

(** [mpf_set_str (rop, s, 10)] on fixed notation: an optional minus sign,
    digits, an optional point and more digits.  [None] is the call's
    return value -1 (the destination is left as it was).  GMP also reads
    leading white space and an exponent; no string of this program has
    them. *)
Definition mpf_set_str (p : Z) (s : list ascii) : option mpf :=
  let (neg, body) :=
    match s with
    | c :: t => if Ascii.eqb c "-"%char then (true, t) else (false, s)
    | [] => (false, s)
    end in
  match parse_fixed body with
  | Some (n, d) => Some (mpf_round p (if neg then - n else n) d 0)
  | None => None
  end.

(** The C string held in a buffer: the bytes before the first NUL. *)
Fixpoint c_string (buf : list ascii) : list ascii :=
  match buf with
  | [] => []
  | c :: t => if Ascii.eqb c NUL then [] else c :: c_string t
  end.

(** ** Transport and aggregation *)

Definition buffer_size (digits : Z) : Z := to_size_t (digits + 100).

(** The message of a non-coordinator rank: the text and its NUL. *)
Definition serialize (digits : Z) (local_sum : mpf) : exec (list ascii) :=
  text <- sprintf_into (buffer_size digits)
            (gmp_sprintf_Ff (digits + 20) local_sum) ;;
  Done (text ++ [NUL]).

(** [MPI_Recv] into a buffer of [size] bytes. *)
Definition mpi_recv (size : Z) (inbox : Z -> option (list ascii)) (src : Z)
    : exec (list ascii) :=
  match inbox src with
  | None => Fault NoMessage
  | Some msg =>
      if Z.of_nat (List.length msg) <=? size then Done msg
      else Fault RecvTruncated
  end.

(** State of the receive loop on rank 0: [pi] and [received_sum]. *)
Definition recv_step (prec digits : Z) (inbox : Z -> option (list ascii))
    (src : Z) (st : mpf * mpf) : exec (mpf * mpf) :=
  let (pi, received_sum) := st in
  buffer <- mpi_recv (buffer_size digits) inbox src ;;
  let received_sum :=
    match mpf_set_str prec (c_string buffer) with
    | Some v => v
    | None => received_sum
    end in
  Done (mpf_add prec pi received_sum, received_sum).

(** [aggregate_results]: the coordinator's [pi], or the message a worker
    sends. *)
Definition aggregate_results (prec : Z) (local_sum : mpf)
    (rank size digits : Z) (inbox : Z -> option (list ascii))
    : exec (mpf * option (list ascii)) :=
  if rank =? 0 then
    st <- for_stride (stride_fuel 1 size) 1 1 size
            (recv_step prec digits inbox)
            (mpf_set prec local_sum, mpf_zero) ;;
    Done (fst st, None)
  else
    msg <- serialize digits local_sum ;;
    Done (mpf_zero, Some msg).

(** ** Digit renderer *)

Definition print_header : list ascii :=
  list_ascii_of_string "計算結果:" ++ [ascii_of_nat 10; "3"; "."]%char.

Definition newline : ascii := ascii_of_nat 10.

(** One turn of the output loop of [print_pi]. *)
Definition print_step (decimal_part : list ascii) (len : Z) (i : Z)
    (out : list ascii) : exec (list ascii) :=
  let out := out ++ [nth (Z.to_nat i) decimal_part NUL] in
  let out :=
    if ((i + 1) mod 10 =? 0) && (i + 1 <? len) then
      let out := out ++ [" "%char] in
      if (i + 1) mod 50 =? 0 then out ++ [newline; " "; " "]%char else out
    else out in
  Done out.

Definition print_pi (prec : Z) (pi : mpf) (digits : Z) : exec (list ascii) :=
  let frac := mpf_set prec pi in
  let frac := mpf_sub_ui prec frac 3 in
  str <- sprintf_into (to_size_t (digits + 100)) (gmp_sprintf_Ff digits frac) ;;
  let decimal_part := skipn 2 str in
  let len := Z.of_nat (List.length decimal_part) in
  let len := if len >? digits then digits else len in
  out <- for_stride (Z.to_nat len) 0 1 len (print_step decimal_part len)
           print_header ;;
  Done (out ++ [newline]).

(** ** One process, and the group *)

Inductive event : Type :=
| EvUsage                       (* the usage line on stderr *)
| EvLocalSum (x : mpf)          (* compute_local_sum returned *)
| EvSent (msg : list ascii)     (* MPI_Send to rank 0 *)
| EvAggregated (pi : mpf)       (* the receive loop finished *)
| EvPrinted (text : list ascii) (* print_pi wrote the digits *).

(** [main] on one rank: the exit code and what the process did.
    [arg] is [atoi (argv[1])] when an argument is given.  The banner and
    the timing lines are left out. *)
Definition main (arg : option Z) (rank size : Z)
    (inbox : Z -> option (list ascii)) : exec (Z * list event) :=
  let digits := match arg with Some d => d | None => 100 end in
  if match arg with Some d => d <? 1 | None => false end then
    Done (1, if rank =? 0 then [EvUsage] else [])
  else
    let precision := calculate_precision digits in
    let num_terms := calculate_num_terms digits in
    local_sum <- compute_local_sum precision rank size num_terms ;;
    r <- aggregate_results precision local_sum rank size digits inbox ;;
    let (pi, sent) := r in
    let ev_send := match sent with Some m => [EvSent m] | None => [] end in
    if rank =? 0 then
      text <- print_pi precision pi digits ;;
      Done (0, [EvLocalSum local_sum; EvAggregated pi; EvPrinted text])
    else
      Done (0, EvLocalSum local_sum :: ev_send).

Definition sent_message (r : exec (Z * list event)) : option (list ascii) :=
  match r with
  | Done (_, evs) =>
      fold_right (fun ev acc => match ev with EvSent m => Some m | _ => acc end)
        None evs
  | Fault _ => None
  end.

(** The worker group: ranks [1 .. size-1] run without input and their
    messages fill the coordinator's inbox.  The result lists the
    processes by rank. *)
Definition run_group (arg : option Z) (size : Z) : list (exec (Z * list event)) :=
  let workers :=
    map (fun r => main arg (Z.of_nat r) size (fun _ => None))
      (seq 1 (Z.to_nat size - 1)) in
  let inbox (src : Z) :=
    if (1 <=? src) && (src <? size)
    then sent_message (nth (Z.to_nat src - 1) workers (Fault NoMessage))
    else None in
  main arg 0 size inbox :: workers.

(** The coordinator's final value. *)
Definition final_result (digits size : Z) : exec mpf :=
  match run_group (Some digits) size with
  | Done (_, evs) :: _ =>
      fold_right (fun ev acc => match ev with EvAggregated x => Done x | _ => acc end)
        (Fault NoMessage) evs
  | Fault f :: _ => Fault f
  | [] => Fault NoMessage
  end.

Definition rendered (digits size : Z) : exec (list ascii) :=
  match run_group (Some digits) size with
  | Done (_, evs) :: _ =>
      fold_right (fun ev acc => match ev with EvPrinted t => Done t | _ => acc end)
        (Fault NoMessage) evs
  | Fault f :: _ => Fault f
  | [] => Fault NoMessage
  end.

(** ** The midpoint-rule estimator ([pi_mpi.c]) *)

Module Midpoint.

Definition n : Z := 1000000000.

Definition local_start (n size rank : Z) : Z := (n / size) * rank.

Definition local_end (n size rank : Z) : Z :=
  if rank =? size - 1 then n else (n / size) * (rank + 1).

(** The integrand at the midpoint of interval [i], in exact arithmetic. *)
Definition integrand (n : Z) (i : Z) : Q :=
  let h := (1 / inject_Z n)%Q in
  let x := ((inject_Z i + (1 # 2)) * h)%Q in
  (4 / (1 + x * x))%Q.

(** The loop of one rank, then [local_sum *= h]. *)
Definition local_sum (n size rank : Z) : exec Q :=
  let lo := local_start n size rank in
  let hi := local_end n size rank in
  s <- for_stride (stride_fuel lo hi) lo 1 hi
         (fun i acc => Done (acc + integrand n i)%Q) 0%Q ;;
  Done (s * (1 / inject_Z n))%Q.

(** [MPI_Reduce] with [MPI_SUM]: the sum of the contributions of the
    ranks [0 .. count-1]. *)
Fixpoint reduce_sum (n size : Z) (count : nat) : exec Q :=
  match count with
  | O => Done 0%Q
  | Datatypes.S c =>
      acc <- reduce_sum n size c ;;
      x <- local_sum n size (Z.of_nat c) ;;
      Done (acc + x)%Q
  end.

Definition estimate (n size : Z) : exec Q :=
  reduce_sum n size (Z.to_nat size).

(** The sum of the integrand over the first [m] intervals. *)
Fixpoint prefix_sum (n : Z) (m : nat) : Q :=
  match m with
  | O => 0%Q
  | Datatypes.S m' => (prefix_sum n m' + integrand n (Z.of_nat m'))%Q
  end.

(** The end of the blocks of the first [c] ranks. *)
Definition covered (n size : Z) (c : nat) : Z :=
  if Z.of_nat c =? size then n else n / size * Z.of_nat c.

End Midpoint.

(** * Specification-level notions *)

(** ** Layout and text *)

Definition is_digit (c : ascii) : Prop :=
  exists d, 0 <= d < 10 /\ c = digit_char d.

(** What follows digit number [j] (counted from 1) of [len]. *)
Definition separator (len j : Z) : list ascii :=
  if (j mod 10 =? 0) && (j <? len) then
    " "%char :: (if j mod 50 =? 0 then [newline; " "; " "]%char else [])
  else [].

(** The output loop as a recursion over the remaining digits. *)
Fixpoint emit (len i : Z) (l : list ascii) : list ascii :=
  match l with
  | [] => []
  | c :: t => c :: separator len (i + 1) ++ emit len (i + 1) t
  end.

(** The layout in the specification's words: blocks of ten digits, a
    space between blocks, and after every fifth block a line break
    (followed by two spaces of indentation). *)
Fixpoint blocks (fuel : nat) (ds : list ascii) : list (list ascii) :=
  match fuel with
  | O => []
  | Datatypes.S f =>
      match ds with
      | [] => []
      | _ => firstn 10 ds :: blocks f (skipn 10 ds)
      end
  end.

Fixpoint lay_out (j : Z) (bs : list (list ascii)) : list ascii :=
  match bs with
  | [] => []
  | b :: rest =>
      b ++ match rest with
           | [] => []
           | _ => " "%char
                  :: (if j mod 5 =? 0 then [newline; " "; " "]%char else [])
                  ++ lay_out (j + 1) rest
           end
  end.

Definition group_digits (ds : list ascii) : list ascii :=
  lay_out 1 (blocks (List.length ds) ds).

(** ** Requests *)

(** The digit count a run works with: the argument, or 100. *)
Definition requested_digits (arg : option Z) : Z :=
  match arg with Some d => d | None => 100 end.

(** A request [main] accepts and whose buffer sizes are representable. *)
Definition valid_request (arg : option Z) : Prop :=
  (1 <= requested_digits arg)%Z /\ (requested_digits arg + 100 <= INT_MAX)%Z.

(** The number of usage lines a process wrote. *)
Definition usage_lines (r : exec (Z * list event)) : nat :=
  match r with
  | Done (_, evs) =>
      List.length (filter (fun ev => match ev with EvUsage => true | _ => false end) evs)
  | Fault _ => O
  end.

(** ** Values and accuracy *)

(** [x] is the power of two [2 ^ c], held with a one-bit mantissa
    pattern. *)
Definition is_pow2 (x : mpf) (c : Z) : Prop :=
  exists a, 0 <= a /\ mant x = 2 ^ a /\ a + expo x = c.

Local Open Scope Q_scope.

(** [v] lies between zero and [x]. *)
Definition between0 (x v : Q) : Prop :=
  (0 <= v /\ v <= x) \/ (x <= v /\ v <= 0).

(** [r] holds [x] truncated toward zero to [p] bits. *)
Record approx (p : Z) (x : Q) (r : mpf) : Prop := MkApprox {
  approx_mant : (Z.abs (mant r) < 2 ^ p)%Z;
  approx_between : between0 x (value r);
  approx_err : Qabs (x - value r) <= Qabs x * 2 ^ (1 - p)
}.

(** The bracket of the BBP term, written over [k8]. *)
Definition bracket_at (k8 : Z) : Q :=
  4 / inject_Z (k8 + 1) - 2 / inject_Z (k8 + 4)
  - 1 / inject_Z (k8 + 5) - 1 / inject_Z (k8 + 6).

(** The series term of index [k], as the specification writes it. *)
Definition bbp_term (k : Z) : Q := (1 / 16 ^ k) * bracket_at (8 * k).

(** The evaluator returns the series term of index [k] at the working
    precision: within [2 ^ (7 - prec)] of it, relative to the scale
    [16 ^ - k] of the term. *)
Definition computes_term (prec k : Z) : Prop :=
  exists t,
    compute_bbp_term prec k = Done t /\
    Qabs (value t - bbp_term k) <= 2 ^ (7 - prec) / 16 ^ k.

(** Bound of the magnitudes of the terms below index [k]:
    [8 * (1 + 1/16 + ... + 1/16^(k-1))]. *)
Definition geo (k : Z) : Q := (128 # 15) * (1 - / 16 ^ k).

(** The printed decimal, as a signed fraction. *)
Definition printed_value (n : Z) (x : mpf) : Q :=
  inject_Z (if mant x <? 0 then - scaled_round n x else scaled_round n x)
  / inject_Z (10 ^ n).

(** The digits of the fractional part of [pi], cut (not rounded) after
    [digits] places. *)
Definition truncated_digits (digits : Z) (pi : mpf) : list ascii :=
  dec_fixed (Z.to_nat digits)
    (Qfloor ((value pi - 3) * inject_Z (10 ^ digits)) mod 10 ^ digits).

(** The renderer cuts the digits after [digit_count] places. *)
Definition renders_truncated (prec : Z) (pi : mpf) (digits : Z) : Prop :=
  print_pi prec pi digits
  = Done (print_header ++ group_digits (truncated_digits digits pi)
          ++ [newline]).

Local Close Scope Q_scope.

(** ** Sums over the index partition *)

(** The number of indices [rank, rank + size, ...] below [num_terms]. *)
Definition owned_count (rank size num_terms : Z) : Z :=
  (num_terms - rank + size - 1) / size.

(** The sum of [f] over the first [n] indices. *)
Fixpoint series (f : Z -> Q) (n : nat) : Q :=
  match n with
  | O => 0%Q
  | Datatypes.S m => (series f m + f (Z.of_nat m))%Q
  end.

(** The part of that sum that falls to [rank]: the indices congruent to
    it modulo [size]. *)
Fixpoint share (f : Z -> Q) (rank size : Z) (n : nat) : Q :=
  match n with
  | O => 0%Q
  | Datatypes.S m =>
      (share f rank size m
       + (if Z.of_nat m mod size =? rank then f (Z.of_nat m) else 0))%Q
  end.

(** The sum of [g] over the ranks [0 .. c-1]. *)
Fixpoint over_ranks (g : Z -> Q) (c : nat) : Q :=
  match c with
  | O => 0%Q
  | Datatypes.S r => (over_ranks g r + g (Z.of_nat r))%Q
  end.

(** The sum of a list of rationals. *)
Definition qsum (l : list Q) : Q := fold_right Qplus 0%Q l.

(** The exact sum of the first [n] terms of the series. *)
Definition bbp_partial_sum (n : Z) : Q := series bbp_term (Z.to_nat n).

(** * Properties *)

(** ** Loops *)

Section ForStride.
Context {S : Type}.
Variables (step stop : Z) (body : Z -> S -> exec S).
Variable Inv : Z -> S -> Prop.
Hypothesis step_pos : 1 <= step.
Hypothesis body_ok :
  forall k acc, k < stop -> Inv k acc ->
    exists acc', body k acc = Done acc' /\ Inv (k + step) acc'.

(** With enough fuel a loop whose body keeps the invariant returns, in a
    state that satisfies it past the bound. *)
Lemma for_stride_rule (fuel : nat) :
  forall k acc,
    (Z.to_nat (stop - k) <= fuel)%nat -> Inv k acc ->
    exists k' acc',
      for_stride fuel k step stop body acc = Done acc' /\
      Inv k' acc' /\ stop <= k'.
Proof.
  induction fuel as [|fuel IH]; intros k acc Hf HI; simpl.
  - destruct (Z.ltb_spec k stop) as [Hlt|Hge]; [lia|].
    exists k, acc; auto.
  - destruct (Z.ltb_spec k stop) as [Hlt|Hge].
    + destruct (body_ok k acc Hlt HI) as (acc' & Hb & HI').
      rewrite Hb; simpl. apply IH; [lia|exact HI'].
    + exists k, acc; auto.
Qed.
End ForStride.

Lemma for_stride_skip {S : Type} (fuel : nat) (k step stop : Z)
    (body : Z -> S -> exec S) (acc : S) :
  stop <= k -> for_stride fuel k step stop body acc = Done acc.
Proof.
  intros H. destruct fuel; simpl;
    destruct (Z.ltb_spec k stop); auto; lia.
Qed.

(** ** Machine words *)

Lemma ulong_range (z : Z) : 0 <= ulong z < ULONG_MOD.
Proof. unfold ulong, ULONG_MOD. apply Z.mod_pos_bound. lia. Qed.

Lemma ulong_small (z : Z) : 0 <= z < ULONG_MOD -> ulong z = z.
Proof. intros H. unfold ulong. apply Z.mod_small. exact H. Qed.

Lemma bbp_k8_mod8 (k : Z) : bbp_k8 k mod 8 = 0.
Proof.
  unfold bbp_k8, ulong, ULONG_MOD.
  replace (2 ^ 64) with (8 * 2 ^ 61) by reflexivity.
  rewrite Z.mul_mod_distr_l by lia.
  rewrite Z.mul_comm. apply Z.mod_mul. lia.
Qed.

Lemma bbp_k8_bound (k : Z) : 0 <= bbp_k8 k <= ULONG_MOD - 8.
Proof.
  pose proof (bbp_k8_mod8 k) as Hm.
  pose proof (ulong_range (8 * k)) as Hr. fold (bbp_k8 k) in Hr.
  unfold ULONG_MOD in *.
  pose proof (Z.div_mod (bbp_k8 k) 8 ltac:(lia)) as Hd.
  rewrite Hm in Hd.
  assert (bbp_k8 k / 8 < 2 ^ 61) by
    (apply Z.div_lt_upper_bound; [lia| change (8 * 2 ^ 61) with (2 ^ 64); lia]).
  change (2 ^ 64) with 18446744073709551616 in *.
  change (2 ^ 61) with 2305843009213693952 in *. lia.
Qed.

Lemma bbp_divisor_exact (k c : Z) :
  0 <= c < 8 -> ulong (bbp_k8 k + c) = bbp_k8 k + c.
Proof.
  intros Hc. apply ulong_small.
  pose proof (bbp_k8_bound k). unfold ULONG_MOD in *. lia.
Qed.

Lemma bbp_k8_small (k : Z) : 0 <= k < 2 ^ 61 -> bbp_k8 k = 8 * k.
Proof.
  intros H. unfold bbp_k8. apply ulong_small. unfold ULONG_MOD.
  change (2 ^ 64) with (8 * 2 ^ 61). lia.
Qed.

(** C9.  For every [k], also when [8 * k] wraps modulo 2^64, [k8] is a
    multiple of 8, the four divisors [k8+1], [k8+4], [k8+5], [k8+6] do not
    wrap, are congruent to 1, 4, 5, 6 modulo 8 and are nonzero, and every
    [mpf_div_ui] by one of them returns a quotient instead of raising
    division by zero: the evaluator always reaches its final [mpf_div]
    with the four quotients. *)
Theorem bbp_divisors_never_zero (k : Z) :
  bbp_k8 k mod 8 = 0 /\
  map (fun d => d mod 8) (bbp_divisors k) = [1; 4; 5; 6] /\
  Forall (fun d => 0 < d < ULONG_MOD) (bbp_divisors k) /\
  (forall prec x,
     Forall (fun d => mpf_div_ui prec x d
                      = Done (mpf_round prec (mant x) d (expo x)))
       (bbp_divisors k)) /\
  forall prec,
    compute_bbp_term prec k =
      let k8 := bbp_k8 k in
      let term1 := mpf_round prec 4 (k8 + 1) 0 in
      let term2 := mpf_round prec 2 (k8 + 4) 0 in
      let term3 := mpf_round prec 1 (k8 + 5) 0 in
      let term4 := mpf_round prec 1 (k8 + 6) 0 in
      mpf_div prec
        (mpf_sub prec (mpf_sub prec (mpf_sub prec term1 term2) term3) term4)
        (mpf_pow_ui prec (mpf_set_ui 16) k).
Proof.
  pose proof (bbp_k8_mod8 k) as Hm.
  pose proof (bbp_k8_bound k) as Hb.
  assert (Hdiv : forall prec x c, 0 < c < 8 ->
            mpf_div_ui prec x (ulong (bbp_k8 k + c))
            = Done (mpf_round prec (mant x) (bbp_k8 k + c) (expo x))).
  { intros prec x c Hc. rewrite bbp_divisor_exact by lia.
    unfold mpf_div_ui.
    destruct (Z.eqb_spec (bbp_k8 k + c) 0) as [E|_]; [lia|reflexivity]. }
  split; [exact Hm|]. split; [|split; [|split]].
  - unfold bbp_divisors. rewrite !bbp_divisor_exact by lia. simpl.
    rewrite !(Z.add_mod (bbp_k8 k)) by lia. rewrite Hm. reflexivity.
  - unfold bbp_divisors. rewrite !bbp_divisor_exact by lia.
    unfold ULONG_MOD in *. repeat constructor; lia.
  - intros prec x. unfold bbp_divisors.
    repeat constructor; rewrite Hdiv by lia;
      rewrite bbp_divisor_exact by lia; reflexivity.
  - intros prec. unfold compute_bbp_term.
    rewrite !Hdiv by lia. reflexivity.
Qed.

(** ** The stride partition *)

(** The loop of [compute_local_sum] returns for every [size >= 1], and
    visits exactly the indices below [num_terms] that are [rank] plus a
    multiple of [size], each once. *)
Lemma owned_terms_spec (rank size num_terms : Z) :
  1 <= size ->
  exists l,
    owned_terms rank size num_terms = Done l /\
    NoDup l /\
    forall k, In k l <->
      rank <= k < num_terms /\ (k - rank) mod size = 0.
Proof.
  intros Hs. unfold owned_terms.
  destruct (for_stride_rule size num_terms
              (fun k acc => Done (acc ++ [k]))
              (fun k acc =>
                 rank <= k /\ (k - rank) mod size = 0 /\ NoDup acc /\
                 forall j, In j acc <->
                   rank <= j < Z.min k num_terms /\ (j - rank) mod size = 0)
              Hs) with (fuel := stride_fuel rank num_terms)
              (k := rank) (acc := @nil Z) as (k' & l & Hrun & HI & Hstop).
  - intros k acc Hlt (Hk & Hmod & Hnd & Hin).
    exists (acc ++ [k]). split; [reflexivity|].
    split; [lia|]. split.
    { replace (k + size - rank) with (k - rank + 1 * size) by lia.
      rewrite Z.mod_add by lia. exact Hmod. }
    split.
    { apply NoDup_app; [exact Hnd|repeat constructor; intros []|].
      intros j Hj [<-|[]]. apply Hin in Hj. lia. }
    intros j. rewrite in_app_iff, Hin. simpl. split.
    + intros [H|[<-|[]]]; [split; [lia|tauto]|split; [lia|exact Hmod]].
    + intros [Hr Hm].
      destruct (Z.eq_dec j k) as [->|Hne]; [right; left; reflexivity|].
      left. split; [|exact Hm].
      assert (j < k); [|lia].
      destruct (Z.lt_ge_cases j k) as [|Hge]; [assumption|exfalso].
      pose proof (Z.div_mod (j - rank) size ltac:(lia)) as Ej.
      pose proof (Z.div_mod (k - rank) size ltac:(lia)) as Ek.
      rewrite Hm in Ej. rewrite Hmod in Ek.
      assert ((k - rank) / size < (j - rank) / size) by nia.
      nia.
  - unfold stride_fuel. lia.
  - split; [lia|]. split; [rewrite Z.sub_diag; apply Z.mod_0_l; lia|].
    split; [constructor|]. intros j. simpl. split; [tauto|lia].
  - destruct HI as (_ & _ & Hnd & Hin).
    exists l. split; [exact Hrun|]. split; [exact Hnd|].
    intros j. rewrite Hin. rewrite Z.min_r by lia. tauto.
Qed.

Lemma stride_residue (rank size k : Z) :
  1 <= size -> 0 <= rank < size ->
  (rank <= k /\ (k - rank) mod size = 0) <-> (0 <= k /\ k mod size = rank).
Proof.
  intros Hs Hr. split.
  - intros [Hk Hm]. split; [lia|].
    pose proof (Z.div_mod (k - rank) size ltac:(lia)) as E. rewrite Hm in E.
    replace k with (rank + (k - rank) / size * size) by lia.
    rewrite Z.mod_add by lia. apply Z.mod_small; lia.
  - intros [Hk Hm].
    pose proof (Z.div_mod k size ltac:(lia)) as E. rewrite Hm in E.
    assert (0 <= k / size) by (apply Z.div_pos; lia).
    split; [nia|].
    replace (k - rank) with (k / size * size) by lia.
    apply Z.mod_mul; lia.
Qed.

Lemma stride_progression (rank size k : Z) :
  1 <= size -> 0 <= rank < size ->
  (0 <= k /\ k mod size = rank) <-> (exists j, 0 <= j /\ k = rank + j * size).
Proof.
  intros Hs Hr. split.
  - intros [Hk Hm]. exists (k / size).
    pose proof (Z.div_mod k size ltac:(lia)) as E. rewrite Hm in E.
    split; [apply Z.div_pos; lia|lia].
  - intros (j & Hj & ->). split; [nia|].
    rewrite Z.mod_add by lia. apply Z.mod_small. exact Hr.
Qed.

(** C2.  For every [group_size >= 1] and [term_count >= 0] the loop of
    every rank returns its index list; the list has no repetition and
    holds exactly the indices [rank + j * group_size] ([j >= 0]) below
    [term_count], which are the [k < term_count] with
    [k mod group_size = rank]; the lists of two different ranks share no
    index, and an index is below [term_count] exactly when some rank owns
    it. *)
Theorem stride_partition (group_size term_count : Z) :
  1 <= group_size -> 0 <= term_count ->
  (forall rank, 0 <= rank < group_size ->
     exists l,
       owned_terms rank group_size term_count = Done l /\
       NoDup l /\
       (forall k, In k l <->
          exists j, 0 <= j /\ k = rank + j * group_size /\ k < term_count) /\
       (forall k, In k l <->
          0 <= k < term_count /\ k mod group_size = rank)) /\
  (forall r1 r2 l1 l2 k,
     0 <= r1 < group_size -> 0 <= r2 < group_size ->
     owned_terms r1 group_size term_count = Done l1 ->
     owned_terms r2 group_size term_count = Done l2 ->
     In k l1 -> In k l2 -> r1 = r2) /\
  (forall k,
     0 <= k < term_count <->
     exists rank l,
       0 <= rank < group_size /\
       owned_terms rank group_size term_count = Done l /\ In k l).
Proof.
  intros Hs Ht.
  assert (Hone : forall rank, 0 <= rank < group_size ->
     exists l,
       owned_terms rank group_size term_count = Done l /\
       NoDup l /\
       forall k, In k l <->
         0 <= k < term_count /\ k mod group_size = rank).
  { intros rank Hr.
    destruct (owned_terms_spec rank group_size term_count Hs)
      as (l & Hl & Hnd & Hin).
    exists l. split; [exact Hl|]. split; [exact Hnd|].
    intros k. rewrite Hin.
    pose proof (stride_residue rank group_size k Hs Hr). tauto. }
  split; [|split].
  - intros rank Hr. destruct (Hone rank Hr) as (l & El & Hnd & Hin).
    exists l. split; [exact El|]. split; [exact Hnd|]. split; [|exact Hin].
    intros k. rewrite Hin.
    pose proof (stride_progression rank group_size k Hs Hr) as Hp.
    split.
    + intros [Hk Hm]. destruct Hp as [Hp _].
      destruct (Hp (conj (proj1 Hk) Hm)) as (j & Hj & Ej).
      exists j. split; [exact Hj|]. split; [exact Ej|lia].
    + intros (j & Hj & Ej & Hlt). destruct Hp as [_ Hp].
      destruct (Hp (ex_intro _ j (conj Hj Ej))) as [Hk Hm].
      split; [lia|exact Hm].
  - intros r1 r2 l1 l2 k H1 H2 E1 E2 I1 I2.
    destruct (Hone r1 H1) as (l1' & E1' & _ & Hin1).
    destruct (Hone r2 H2) as (l2' & E2' & _ & Hin2).
    rewrite E1 in E1'. rewrite E2 in E2'.
    injection E1' as <-. injection E2' as <-.
    apply Hin1 in I1. apply Hin2 in I2. lia.
  - intros k. split.
    + intros Hk. exists (k mod group_size).
      assert (Hr : 0 <= k mod group_size < group_size)
        by (apply Z.mod_pos_bound; lia).
      destruct (Hone _ Hr) as (l & El & _ & Hin).
      exists l. split; [exact Hr|]. split; [exact El|].
      apply Hin. split; [exact Hk|reflexivity].
    + intros (rank & l & Hr & El & Hk).
      destruct (Hone rank Hr) as (l' & El' & _ & Hin).
      rewrite El in El'. injection El' as <-.
      apply Hin in Hk. tauto.
Qed.

Lemma stride_partition_witness :
  (forall rank, 0 <= rank < 4 ->
     exists l,
       owned_terms rank 4 10 = Done l /\
       NoDup l /\
       (forall k, In k l <->
          exists j, 0 <= j /\ k = rank + j * 4 /\ k < 10) /\
       (forall k, In k l <-> 0 <= k < 10 /\ k mod 4 = rank)) /\
  (forall r1 r2 l1 l2 k,
     0 <= r1 < 4 -> 0 <= r2 < 4 ->
     owned_terms r1 4 10 = Done l1 ->
     owned_terms r2 4 10 = Done l2 ->
     In k l1 -> In k l2 -> r1 = r2) /\
  (forall k,
     0 <= k < 10 <->
     exists rank l,
       0 <= rank < 4 /\ owned_terms rank 4 10 = Done l /\ In k l).
Proof. apply (stride_partition 4 10); lia. Defined.

(** ** Truncation to the working precision *)

Lemma normalize_neg (p : Z) (x : mpf) :
  normalize p (mpf_neg x) = mpf_neg (normalize p x).
Proof.
  unfold normalize, mpf_neg; simpl. rewrite Z.abs_opp.
  destruct (Z.abs (mant x) <? 2 ^ p); [reflexivity|].
  simpl. f_equal.
  destruct (Z.eq_dec (2 ^ (Z.log2 (Z.abs (mant x)) + 1 - p)) 0) as [E|E].
  - rewrite E. destruct (mant x); reflexivity.
  - apply Z.quot_opp_l. exact E.
Qed.

Lemma normalize_small (p : Z) (x : mpf) :
  Z.abs (mant x) < 2 ^ p -> normalize p x = x.
Proof.
  intros H. unfold normalize.
  destruct (Z.ltb_spec (Z.abs (mant x)) (2 ^ p)); [reflexivity|lia].
Qed.

(** Truncation of a non-negative mantissa: the kept mantissa [q] and the
    number [t] of dropped bits bracket the original one. *)
Lemma normalize_bracket (p : Z) (x : mpf) :
  1 <= p -> 0 <= mant x ->
  exists t,
    0 <= t /\
    expo (normalize p x) = expo x + t /\
    0 <= mant (normalize p x) < 2 ^ p /\
    mant (normalize p x) * 2 ^ t <= mant x
      < (mant (normalize p x) + 1) * 2 ^ t /\
    (2 ^ p <= mant x -> 2 ^ (p - 1) <= mant (normalize p x)).
Proof.
  intros Hp Hm. unfold normalize. rewrite (Z.abs_eq (mant x)) by exact Hm.
  destruct (Z.ltb_spec (mant x) (2 ^ p)) as [Hlt|Hge].
  - exists 0. rewrite Z.pow_0_r. repeat split; try lia.
  - simpl.
    assert (H2p : 0 < 2 ^ p) by (apply Z.pow_pos_nonneg; lia).
    assert (Hpos : 0 < mant x) by lia.
    pose proof (Z.log2_spec (mant x) Hpos) as [Hlo Hhi].
    assert (HL : p <= Z.log2 (mant x)).
    { apply Z.log2_le_pow2; [exact Hpos|exact Hge]. }
    set (L := Z.log2 (mant x)) in *.
    set (s := L + 1 - p).
    assert (Hs : 1 <= s) by (unfold s; lia).
    assert (H2s : 0 < 2 ^ s) by (apply Z.pow_pos_nonneg; lia).
    rewrite Z.quot_div_nonneg by lia.
    assert (E1 : 2 ^ Z.succ L = 2 ^ p * 2 ^ s).
    { rewrite <- Z.pow_add_r by lia. f_equal. unfold s. lia. }
    assert (E2 : 2 ^ L = 2 ^ (p - 1) * 2 ^ s).
    { rewrite <- Z.pow_add_r by lia. f_equal. unfold s. lia. }
    exists s. split; [lia|]. split; [reflexivity|].
    pose proof (Z.mul_div_le (mant x) (2 ^ s) H2s) as Hd1.
    pose proof (Z.mul_succ_div_gt (mant x) (2 ^ s) H2s) as Hd2.
    split; [split|split].
    + apply Z.div_pos; lia.
    + apply Z.div_lt_upper_bound; [lia|]. rewrite Z.mul_comm. lia.
    + lia.
    + intros _. apply Z.div_le_lower_bound; [lia|]. rewrite Z.mul_comm. lia.
Qed.

Lemma normalize_mant_bound (p : Z) (x : mpf) :
  1 <= p -> Z.abs (mant (normalize p x)) < 2 ^ p.
Proof.
  intros Hp.
  destruct (Z.le_ge_cases 0 (mant x)) as [H|H].
  - destruct (normalize_bracket p x Hp H) as (t & _ & _ & Hb & _). lia.
  - assert (H' : 0 <= mant (mpf_neg x)) by (simpl; lia).
    destruct (normalize_bracket p _ Hp H') as (t & _ & _ & Hb & _).
    rewrite normalize_neg in Hb. simpl in Hb. lia.
Qed.

(** ** Values and accuracy *)

Local Open Scope Q_scope.

Lemma pow2_pos (e : Z) : 0 < 2 ^ e.
Proof. apply Qpower_0_lt. reflexivity. Qed.

Lemma pow2_add (a b : Z) : 2 ^ (a + b) == 2 ^ a * 2 ^ b.
Proof. apply Qpower_plus. discriminate. Qed.

Lemma pow2_sub (a b : Z) : 2 ^ (a - b) == 2 ^ a / 2 ^ b.
Proof.
  unfold Z.sub. rewrite pow2_add, Qpower_opp. reflexivity.
Qed.

Lemma pow2_inject (a : Z) : (0 <= a)%Z -> inject_Z (2 ^ a) == 2 ^ a.
Proof. intros H. apply (Zpower_Qpower 2 a H). Qed.

Lemma value_neg (x : mpf) : value (mpf_neg x) == - value x.
Proof. unfold value, mpf_neg; simpl. rewrite inject_Z_opp. ring. Qed.

Lemma value_scale (m e t : Z) :
  (0 <= t)%Z -> inject_Z (m * 2 ^ t) * 2 ^ e == inject_Z m * 2 ^ (e + t).
Proof.
  intros Ht. rewrite inject_Z_mult, pow2_inject by exact Ht.
  rewrite pow2_add. ring.
Qed.

Lemma between0_abs (x v : Q) : between0 x v -> Qabs v <= Qabs x.
Proof.
  intros [[H1 H2]|[H1 H2]].
  - rewrite !Qabs_pos; lra.
  - rewrite !Qabs_neg; lra.
Qed.

Lemma approx_neg (p : Z) (x : Q) (r : mpf) :
  approx p x r -> approx p (- x) (mpf_neg r).
Proof.
  intros [Hm Hb He]. split.
  - simpl. rewrite Z.abs_opp. exact Hm.
  - pose proof (value_neg r) as Ev. unfold between0.
    destruct Hb as [[H1 H2]|[H1 H2]]; [right|left]; lra.
  - rewrite value_neg, Qabs_opp.
    setoid_replace (- x - - value r) with (- (x - value r)) by ring.
    rewrite Qabs_opp. exact He.
Qed.

Lemma approx_ext (p : Z) (x y : Q) (r : mpf) :
  x == y -> approx p x r -> approx p y r.
Proof.
  intros E [Hm Hb He]. split.
  - exact Hm.
  - destruct Hb as [[H1 H2]|[H1 H2]]; [left|right]; lra.
  - rewrite <- E. exact He.
Qed.

Lemma bracket_error (x iq a b c : Q) :
  0 <= iq -> 0 < a -> 0 < b -> 0 < c -> c * b == 1 ->
  iq * a <= x -> x < (iq + 1) * a ->
  (x == iq * a \/ c <= iq) ->
  0 <= iq * a /\ 0 <= x - iq * a /\ x - iq * a <= x * b.
Proof.
  intros Hq Ha Hb Hc Hone Hlo Hhi Htop.
  assert (H0 : 0 <= iq * a) by nra.
  split; [exact H0|]. split; [lra|].
  destruct Htop as [Hex|Ht].
  - rewrite Hex. nra.
  - assert (H : a * (c * b) <= a * (iq * b)) by
      (apply Qmult_le_l; [exact Ha|apply Qmult_le_compat_r; lra]).
    rewrite Hone in H. nra.
Qed.

(** A non-negative value bracketed by a kept mantissa with its top bit
    set (or hit exactly) is approximated by it. *)
Lemma approx_of_bracket (p q E : Z) (x : Q) :
  (1 <= p)%Z -> (0 <= q < 2 ^ p)%Z ->
  inject_Z q * 2 ^ E <= x -> x < inject_Z (q + 1) * 2 ^ E ->
  (x == inject_Z q * 2 ^ E \/ (2 ^ (p - 1) <= q)%Z) ->
  approx p x (MkMpf q E).
Proof.
  intros Hp Hq Hlo Hhi Hcase.
  assert (Hq0 : inject_Z 0 <= inject_Z q) by (rewrite <- Zle_Qle; lia).
  change (inject_Z 0) with 0 in Hq0.
  assert (Htop : x == inject_Z q * 2 ^ E \/ 2 ^ (p - 1) <= inject_Z q).
  { destruct Hcase as [H|H]; [left; exact H|right].
    rewrite <- pow2_inject by lia. rewrite <- Zle_Qle. exact H. }
  assert (Hone : 2 ^ (p - 1) * 2 ^ (1 - p) == 1).
  { rewrite <- pow2_add. replace (p - 1 + (1 - p))%Z with 0%Z by lia.
    reflexivity. }
  rewrite inject_Z_plus in Hhi. change (inject_Z 1) with 1 in Hhi.
  destruct (bracket_error x (inject_Z q) (2 ^ E) (2 ^ (1 - p)) (2 ^ (p - 1))
              Hq0 (pow2_pos _) (pow2_pos _) (pow2_pos _) Hone Hlo Hhi Htop)
    as (H0 & Hd & Herr).
  split.
  - simpl; lia.
  - left. unfold value; simpl. split; [exact H0|exact Hlo].
  - unfold value; simpl.
    assert (Hx : 0 <= x) by
      (apply Qle_trans with (inject_Z q * 2 ^ E); assumption).
    rewrite (Qabs_pos _ Hd), (Qabs_pos _ Hx). exact Herr.
Qed.

Lemma inject_Z_nonneg (z : Z) : (0 <= z)%Z -> 0 <= inject_Z z.
Proof. intros H. change 0 with (inject_Z 0). rewrite <- Zle_Qle. exact H. Qed.

Lemma inject_Z_pos (z : Z) : (0 < z)%Z -> 0 < inject_Z z.
Proof. intros H. change 0 with (inject_Z 0). rewrite <- Zlt_Qlt. exact H. Qed.

Lemma approx_exact (p : Z) (x : mpf) :
  (Z.abs (mant x) < 2 ^ p)%Z -> approx p (value x) x.
Proof.
  intros H. split.
  - exact H.
  - unfold between0.
    destruct (Qlt_le_dec (value x) 0); [right|left]; lra.
  - setoid_replace (value x - value x) with 0 by ring.
    simpl (Qabs 0). apply Qmult_le_0_compat.
    + apply Qabs_nonneg.
    + apply Qlt_le_weak, pow2_pos.
Qed.

Lemma normalize_approx (p : Z) (x : mpf) :
  (1 <= p)%Z -> approx p (value x) (normalize p x).
Proof.
  intros Hp.
  assert (Hnn : forall y, (0 <= mant y)%Z -> approx p (value y) (normalize p y)).
  { intros y Hy.
    destruct (Z.lt_ge_cases (mant y) (2 ^ p)) as [Hlt|Hge].
    - rewrite normalize_small by lia. apply approx_exact. lia.
    - destruct (normalize_bracket p y Hp Hy) as (t & Ht & He & Hq & Hbr & Htop).
      destruct (normalize p y) as [q E]; simpl in *. subst E.
      pose proof (pow2_pos (expo y)) as HE.
      apply approx_of_bracket; try assumption.
      + rewrite <- value_scale by exact Ht. unfold value.
        apply Qmult_le_compat_r; [|lra]. rewrite <- Zle_Qle. lia.
      + rewrite <- value_scale by exact Ht. unfold value.
        apply Qmult_lt_compat_r; [lra|]. rewrite <- Zlt_Qlt. lia.
      + right. auto. }
  destruct (Z.le_ge_cases 0 (mant x)) as [H|H]; [apply Hnn; exact H|].
  assert (E : x = mpf_neg (mpf_neg x)).
  { destruct x; unfold mpf_neg; simpl. rewrite Z.opp_involutive. reflexivity. }
  rewrite E at 2. rewrite normalize_neg.
  apply approx_ext with (- value (mpf_neg x)).
  - rewrite value_neg. ring.
  - apply approx_neg, Hnn. simpl. lia.
Qed.

Lemma mpf_round_neg (p n d e : Z) :
  d <> 0%Z -> mpf_round p (- n) d e = mpf_neg (mpf_round p n d e).
Proof.
  intros Hd. unfold mpf_round.
  destruct (Z.eqb_spec n 0) as [->|Hn]; [reflexivity|].
  destruct (Z.eqb_spec (- n) 0) as [E|_]; [lia|].
  rewrite Z.abs_opp. rewrite <- normalize_neg. f_equal.
  unfold mpf_neg; simpl. f_equal.
  rewrite Z.mul_opp_l. apply Z.quot_opp_l. exact Hd.
Qed.

Lemma div_bracket_lo (a b d : Z) :
  (0 < d)%Z -> (a * d <= b)%Z -> inject_Z a <= inject_Z b / inject_Z d.
Proof.
  intros Hd H. apply Qle_shift_div_l; [apply inject_Z_pos; exact Hd|].
  rewrite <- inject_Z_mult, <- Zle_Qle. exact H.
Qed.

Lemma div_bracket_hi (a b d : Z) :
  (0 < d)%Z -> (b < a * d)%Z -> inject_Z b / inject_Z d < inject_Z a.
Proof.
  intros Hd H. apply Qlt_shift_div_r; [apply inject_Z_pos; exact Hd|].
  rewrite <- inject_Z_mult, <- Zlt_Qlt. exact H.
Qed.

(** The contract of every rounding arithmetic call: the exact quotient,
    truncated toward zero to [p] bits. *)
Lemma mpf_round_approx (p n d e : Z) :
  (1 <= p)%Z -> (0 < d)%Z ->
  approx p (inject_Z n / inject_Z d * 2 ^ e) (mpf_round p n d e).
Proof.
  intros Hp Hd.
  assert (Hpos : forall m, (0 < m)%Z ->
            approx p (inject_Z m / inject_Z d * 2 ^ e) (mpf_round p m d e)).
  { intros m Hm. unfold mpf_round.
    destruct (Z.eqb_spec m 0) as [E|_]; [lia|].
    rewrite (Z.abs_eq m) by lia.
    set (s := Z.max 0 (p + 1 + Z.log2 d - Z.log2 m)).
    assert (Hs : (0 <= s)%Z) by (unfold s; lia).
    assert (H2s : (0 < 2 ^ s)%Z) by (apply Z.pow_pos_nonneg; lia).
    rewrite Z.quot_div_nonneg by lia.
    set (q0 := (m * 2 ^ s / d)%Z).
    assert (Hq0lo : (q0 * d <= m * 2 ^ s)%Z)
      by (unfold q0; rewrite Z.mul_comm; apply Z.mul_div_le; exact Hd).
    assert (Hq0hi : (m * 2 ^ s < (q0 + 1) * d)%Z).
    { unfold q0.
      pose proof (Z.mul_succ_div_gt (m * 2 ^ s) d Hd). lia. }
    assert (Hbig : (2 ^ p <= q0)%Z).
    { unfold q0. apply Z.div_le_lower_bound; [exact Hd|].
      pose proof (Z.log2_spec m Hm) as [Hml _].
      pose proof (Z.log2_spec d Hd) as [_ Hdh].
      assert (E : (2 ^ (Z.log2 m + s) = 2 ^ Z.log2 m * 2 ^ s)%Z)
        by (apply Z.pow_add_r; [apply Z.log2_nonneg|exact Hs]).
      assert (Hle : (2 ^ (Z.succ (Z.log2 d) + p) <= 2 ^ (Z.log2 m + s))%Z).
      { apply Z.pow_le_mono_r; [lia|]. unfold s. lia. }
      rewrite Z.pow_add_r in Hle by (pose proof (Z.log2_nonneg d); lia).
      assert (H2p : (0 < 2 ^ p)%Z) by (apply Z.pow_pos_nonneg; lia).
      rewrite E in Hle.
      apply Z.le_trans with (2 ^ Z.succ (Z.log2 d) * 2 ^ p)%Z.
      - apply Z.mul_le_mono_nonneg_r; lia.
      - apply Z.le_trans with (2 ^ Z.log2 m * 2 ^ s)%Z; [exact Hle|].
        apply Z.mul_le_mono_nonneg_r; lia. }
    assert (Hq0 : (0 <= mant (MkMpf q0 (e - s)))%Z).
    { simpl. assert (0 < 2 ^ p)%Z by (apply Z.pow_pos_nonneg; lia). lia. }
    destruct (normalize_bracket p (MkMpf q0 (e - s)) Hp Hq0)
      as (t & Ht & He & Hq & Hbr & Htop).
    destruct (normalize p (MkMpf q0 (e - s))) as [q E]; simpl in *. subst E.
    assert (H2t : (0 < 2 ^ t)%Z) by (apply Z.pow_pos_nonneg; lia).
    assert (EX : inject_Z m / inject_Z d * 2 ^ e
                 == inject_Z (m * 2 ^ s) / inject_Z d * 2 ^ (e - s)).
    { rewrite inject_Z_mult, pow2_inject by exact Hs.
      rewrite pow2_sub. field. split.
      - pose proof (pow2_pos s). lra.
      - pose proof (inject_Z_pos d Hd). lra. }
    pose proof (pow2_pos (e - s)) as HE.
    apply approx_of_bracket; try assumption.
    - rewrite EX, <- value_scale by exact Ht.
      apply Qmult_le_compat_r; [|lra].
      apply div_bracket_lo; [exact Hd|nia].
    - rewrite EX, <- value_scale by exact Ht.
      apply Qmult_lt_compat_r; [lra|].
      apply div_bracket_hi; [exact Hd|nia].
    - right. auto. }
  destruct (Z.lt_trichotomy n 0) as [Hn|[->|Hn]].
  - replace n with (- - n)%Z by lia.
    rewrite mpf_round_neg by lia.
    apply approx_ext with (- (inject_Z (- n) / inject_Z d * 2 ^ e)).
    + rewrite !inject_Z_opp. field.
      pose proof (inject_Z_pos d Hd). lra.
    + apply approx_neg, Hpos. lia.
  - apply approx_ext with (value mpf_zero).
    + unfold value; simpl. field. pose proof (inject_Z_pos d Hd). lra.
    + apply approx_exact. simpl. apply Z.pow_pos_nonneg; lia.
  - apply Hpos. exact Hn.
Qed.

(** ** The arithmetic calls *)

Lemma value_zero_mant (x : mpf) : mant x = 0%Z -> value x == 0.
Proof. intros H. unfold value. rewrite H. ring. Qed.

Lemma mpf_set_approx (p : Z) (x : mpf) :
  (1 <= p)%Z -> approx p (value x) (mpf_set p x).
Proof. apply normalize_approx. Qed.

Lemma mpf_add_approx (p : Z) (x y : mpf) :
  (1 <= p)%Z -> approx p (value x + value y) (mpf_add p x y).
Proof.
  intros Hp. unfold mpf_add.
  destruct (Z.eqb_spec (mant y) 0) as [Hy|Hy].
  { apply approx_ext with (value x);
      [rewrite (value_zero_mant y Hy); ring|apply normalize_approx, Hp]. }
  destruct (Z.eqb_spec (mant x) 0) as [Hx|Hx].
  { apply approx_ext with (value y);
      [rewrite (value_zero_mant x Hx); ring|apply normalize_approx, Hp]. }
  set (e := Z.min (expo x) (expo y)).
  set (z := MkMpf _ e).
  apply approx_ext with (value z); [|apply normalize_approx, Hp].
  unfold z, value; simpl. rewrite inject_Z_plus, Qmult_plus_distr_l.
  rewrite !value_scale by (unfold e; lia).
  replace (e + (expo x - e))%Z with (expo x) by lia.
  replace (e + (expo y - e))%Z with (expo y) by lia.
  reflexivity.
Qed.

Lemma mpf_sub_approx (p : Z) (x y : mpf) :
  (1 <= p)%Z -> approx p (value x - value y) (mpf_sub p x y).
Proof.
  intros Hp. unfold mpf_sub.
  apply approx_ext with (value x + value (mpf_neg y)).
  - rewrite value_neg. ring.
  - apply mpf_add_approx, Hp.
Qed.

Lemma mpf_mul_approx (p : Z) (x y : mpf) :
  (1 <= p)%Z -> approx p (value x * value y) (mpf_mul p x y).
Proof.
  intros Hp. unfold mpf_mul.
  set (z := MkMpf _ _).
  apply approx_ext with (value z); [|apply normalize_approx, Hp].
  unfold z, value; simpl. rewrite inject_Z_mult, pow2_add. ring.
Qed.

Lemma mpf_div_ui_approx (p : Z) (x : mpf) (n : Z) :
  (1 <= p)%Z -> (0 < n)%Z ->
  exists r, mpf_div_ui p x n = Done r /\
            approx p (value x / inject_Z n) r.
Proof.
  intros Hp Hn. unfold mpf_div_ui.
  destruct (Z.eqb_spec n 0) as [E|_]; [lia|].
  eexists; split; [reflexivity|].
  apply approx_ext with (inject_Z (mant x) / inject_Z n * 2 ^ expo x).
  - unfold value. field. pose proof (inject_Z_pos n Hn). lra.
  - apply mpf_round_approx; assumption.
Qed.

Lemma mpf_div_approx (p : Z) (x y : mpf) :
  (1 <= p)%Z -> mant y <> 0%Z ->
  exists r, mpf_div p x y = Done r /\
            approx p (value x / value y) r.
Proof.
  intros Hp Hy. unfold mpf_div.
  destruct (Z.eqb_spec (mant y) 0) as [E|_]; [contradiction|].
  eexists; split; [reflexivity|].
  eapply approx_ext; [|apply mpf_round_approx; [exact Hp|lia]].
  unfold value. rewrite pow2_sub, inject_Z_mult.
  assert (Ey : inject_Z (mant y)
               == inject_Z (Z.sgn (mant y)) * inject_Z (Z.abs (mant y))).
  { rewrite <- inject_Z_mult. rewrite Z.mul_comm, Z.abs_sgn. reflexivity. }
  assert (Hs : inject_Z (Z.sgn (mant y)) * inject_Z (Z.sgn (mant y)) == 1).
  { rewrite <- inject_Z_mult.
    destruct (mant y); simpl; [contradiction|reflexivity|reflexivity]. }
  assert (Ha : 0 < inject_Z (Z.abs (mant y))) by (apply inject_Z_pos; lia).
  pose proof (pow2_pos (expo y)) as HE.
  rewrite Ey.
  generalize dependent (inject_Z (Z.sgn (mant y))).
  generalize dependent (inject_Z (Z.abs (mant y))).
  generalize dependent (2 ^ expo y).
  intros b Hb a Ha sg _ Hs.
  assert (~ sg == 0) by (intros E0; rewrite E0 in Hs; lra).
  setoid_replace (inject_Z (mant x) * 2 ^ expo x / (sg * a * b))
    with (inject_Z (mant x) * (sg * sg) * 2 ^ expo x / (sg * a * b));
    [|rewrite Hs; field; repeat split; lra].
  field. repeat split; lra.
Qed.

(** ** Powers of sixteen *)

Local Close Scope Q_scope.

Lemma normalize_pow2 (p : Z) (x : mpf) (c : Z) :
  1 <= p -> is_pow2 x c -> is_pow2 (normalize p x) c.
Proof.
  intros Hp (a & Ha & Hm & Hc). unfold normalize. rewrite Hm.
  assert (H2a : 0 < 2 ^ a) by (apply Z.pow_pos_nonneg; lia).
  rewrite Z.abs_eq by lia.
  destruct (Z.ltb_spec (2 ^ a) (2 ^ p)) as [Hlt|Hge].
  - exists a. auto.
  - rewrite Z.log2_pow2 by exact Ha.
    assert (Hpa : p <= a).
    { destruct (Z.le_gt_cases p a) as [|Hgt]; [assumption|].
      apply (Z.pow_lt_mono_r 2) in Hgt; lia. }
    exists (p - 1). simpl. split; [lia|]. split; [|lia].
    rewrite Z.quot_div_nonneg by (try apply Z.pow_pos_nonneg; lia).
    rewrite <- Z.pow_sub_r by lia. f_equal. lia.
Qed.

Lemma mpf_mul_pow2 (p : Z) (x y : mpf) (c d : Z) :
  1 <= p -> is_pow2 x c -> is_pow2 y d -> is_pow2 (mpf_mul p x y) (c + d).
Proof.
  intros Hp (a & Ha & Hm & Hc) (b & Hb & Hn & Hd).
  unfold mpf_mul. apply normalize_pow2; [exact Hp|].
  exists (a + b). simpl. split; [lia|]. split; [|lia].
  rewrite Hm, Hn. symmetry. apply Z.pow_add_r; assumption.
Qed.

Lemma iter_op_pow2 (p : Z) (n : positive) :
  1 <= p ->
  forall x c, is_pow2 x c ->
    is_pow2 (Pos.iter_op (mpf_mul p) n x) (c * Z.pos n).
Proof.
  intros Hp. induction n as [n IH|n IH|]; intros x c Hx; simpl.
  - replace (c * Z.pos n~1) with (c + (c + c) * Z.pos n) by lia.
    apply mpf_mul_pow2; [exact Hp|exact Hx|].
    apply IH. apply mpf_mul_pow2; assumption.
  - replace (c * Z.pos n~0) with ((c + c) * Z.pos n) by lia.
    apply IH. apply mpf_mul_pow2; assumption.
  - rewrite Z.mul_1_r. exact Hx.
Qed.

Lemma mpf_pow_ui_16 (p k : Z) :
  1 <= p -> 0 <= k ->
  is_pow2 (mpf_pow_ui p (mpf_set_ui 16) k) (4 * k).
Proof.
  intros Hp Hk.
  assert (H16 : is_pow2 (mpf_set_ui 16) 4)
    by (exists 4; simpl; repeat split; lia).
  unfold mpf_pow_ui. destruct k as [|n|n]; [| |lia].
  - exists 0. simpl. repeat split; lia.
  - apply normalize_pow2; [exact Hp|].
    apply iter_op_pow2; [|exact H16].
    pose proof (Z.log2_nonneg (Z.pos n)). lia.
Qed.

Local Open Scope Q_scope.

Lemma is_pow2_value (x : mpf) (c : Z) : is_pow2 x c -> value x == 2 ^ c.
Proof.
  intros (a & Ha & Hm & Hc). unfold value. rewrite Hm, <- Hc.
  rewrite pow2_inject by exact Ha. symmetry. apply pow2_add.
Qed.

Lemma is_pow2_mant (x : mpf) (c : Z) : is_pow2 x c -> mant x <> 0%Z.
Proof.
  intros (a & Ha & Hm & _). rewrite Hm.
  apply Z.pow_nonzero; lia.
Qed.

Lemma pow16_pow2 (k : Z) : 16 ^ k == 2 ^ (4 * k).
Proof. rewrite Qpower_mult. reflexivity. Qed.

(** ** The term evaluator *)

Lemma approx_bound (p : Z) (x : Q) (r : mpf) (c : Q) :
  approx p x r -> Qabs x <= c ->
  (- c <= value r /\ value r <= c) /\
  (x - c * 2 ^ (1 - p) <= value r /\ value r <= x + c * 2 ^ (1 - p)).
Proof.
  intros [_ Hb He] Hc.
  pose proof (between0_abs _ _ Hb) as Hv.
  pose proof (pow2_pos (1 - p)) as Hu.
  split.
  - apply Qabs_Qle_condition. lra.
  - assert (H : Qabs (x - value r) <= c * 2 ^ (1 - p)).
    { eapply Qle_trans; [exact He|]. apply Qmult_le_compat_r; lra. }
    apply Qabs_diff_Qle_condition in H. lra.
Qed.

Lemma unit_fraction_bound (c d : Z) :
  (0 <= c)%Z -> (1 <= d)%Z ->
  Qabs (inject_Z c / inject_Z d) <= inject_Z c.
Proof.
  intros Hc Hd.
  pose proof (inject_Z_nonneg c Hc) as Hc'.
  assert (Hd' : 1 <= inject_Z d)
    by (change 1 with (inject_Z 1); rewrite <- Zle_Qle; exact Hd).
  assert (H0 : 0 <= inject_Z c / inject_Z d).
  { apply Qle_shift_div_l; lra. }
  rewrite Qabs_pos by exact H0.
  apply Qle_shift_div_r; [lra|]. nra.
Qed.

(** What the evaluator returns for any [unsigned long] index: the bracket
    over the wrapped [k8], divided by [16 ^ k], within [2 ^ (7 - prec)]
    of that scale. *)
Lemma compute_bbp_term_spec (prec k : Z) :
  (1 <= prec)%Z -> (0 <= k)%Z ->
  exists t,
    compute_bbp_term prec k = Done t /\
    (Z.abs (mant t) < 2 ^ prec)%Z /\
    Qabs (value t - bracket_at (bbp_k8 k) / 16 ^ k)
      <= 2 ^ (7 - prec) / 16 ^ k /\
    Qabs (value t) <= 8 / 16 ^ k.
Proof.
  intros Hp Hk. unfold compute_bbp_term.
  pose proof (bbp_k8_bound k) as Hb.
  rewrite !bbp_divisor_exact by lia.
  set (k8 := bbp_k8 k) in *.
  destruct (mpf_div_ui_approx prec (mpf_set_ui 4) (k8 + 1) Hp ltac:(lia))
    as (t1 & E1 & A1).
  destruct (mpf_div_ui_approx prec (mpf_set_ui 2) (k8 + 4) Hp ltac:(lia))
    as (t2 & E2 & A2).
  destruct (mpf_div_ui_approx prec (mpf_set_ui 1) (k8 + 5) Hp ltac:(lia))
    as (t3 & E3 & A3).
  destruct (mpf_div_ui_approx prec (mpf_set_ui 1) (k8 + 6) Hp ltac:(lia))
    as (t4 & E4 & A4).
  rewrite E1, E2, E3, E4; simpl bind.
  pose proof (mpf_sub_approx prec t1 t2 Hp) as S1.
  set (s1 := mpf_sub prec t1 t2) in *.
  pose proof (mpf_sub_approx prec s1 t3 Hp) as S2.
  set (s2 := mpf_sub prec s1 t3) in *.
  pose proof (mpf_sub_approx prec s2 t4 Hp) as S3.
  set (s3 := mpf_sub prec s2 t4) in *.
  pose proof (mpf_pow_ui_16 prec k Hp Hk) as P16.
  set (pw := mpf_pow_ui prec (mpf_set_ui 16) k) in *.
  destruct (mpf_div_approx prec s3 pw Hp (is_pow2_mant _ _ P16))
    as (t & Et & At).
  exists t. split; [exact Et|]. split; [apply At|].
  assert (Epw : value pw == 16 ^ k)
    by (rewrite pow16_pow2; apply is_pow2_value; exact P16).
  assert (HP : 0 < 16 ^ k) by (apply Qpower_0_lt; reflexivity).
  assert (V4 : value (mpf_set_ui 4) == 4) by (unfold value; simpl; ring).
  assert (V2 : value (mpf_set_ui 2) == 2) by (unfold value; simpl; ring).
  assert (V1 : value (mpf_set_ui 1) == 1) by (unfold value; simpl; ring).
  apply (approx_ext _ _ (4 / inject_Z (k8 + 1))) in A1; [|rewrite V4; reflexivity].
  apply (approx_ext _ _ (2 / inject_Z (k8 + 4))) in A2; [|rewrite V2; reflexivity].
  apply (approx_ext _ _ (1 / inject_Z (k8 + 5))) in A3; [|rewrite V1; reflexivity].
  apply (approx_ext _ _ (1 / inject_Z (k8 + 6))) in A4; [|rewrite V1; reflexivity].
  apply (approx_ext _ _ (value s3 * / 16 ^ k)) in At;
    [|rewrite Epw; reflexivity].
  destruct (approx_bound _ _ _ 4 A1 (unit_fraction_bound 4 (k8 + 1) ltac:(lia) ltac:(lia)))
    as (B1 & F1).
  destruct (approx_bound _ _ _ 2 A2 (unit_fraction_bound 2 (k8 + 4) ltac:(lia) ltac:(lia)))
    as (B2 & F2).
  destruct (approx_bound _ _ _ 1 A3 (unit_fraction_bound 1 (k8 + 5) ltac:(lia) ltac:(lia)))
    as (B3 & F3).
  destruct (approx_bound _ _ _ 1 A4 (unit_fraction_bound 1 (k8 + 6) ltac:(lia) ltac:(lia)))
    as (B4 & F4).
  assert (C1 : Qabs (value t1 - value t2) <= 6)
    by (apply Qabs_Qle_condition; lra).
  destruct (approx_bound _ _ _ 6 S1 C1) as (B5 & F5).
  assert (C2 : Qabs (value s1 - value t3) <= 7)
    by (apply Qabs_Qle_condition; lra).
  destruct (approx_bound _ _ _ 7 S2 C2) as (B6 & F6).
  assert (C3 : Qabs (value s2 - value t4) <= 8)
    by (apply Qabs_Qle_condition; lra).
  destruct (approx_bound _ _ _ 8 S3 C3) as (B7 & F7).
  assert (HiP : 0 < / 16 ^ k) by (apply Qinv_lt_0_compat; exact HP).
  assert (C4 : Qabs (value s3 * / 16 ^ k) <= 8 * / 16 ^ k).
  { apply Qabs_Qle_condition. split.
    - setoid_replace (- (8 * / 16 ^ k)) with ((- (8)) * / 16 ^ k) by ring.
      apply Qmult_le_compat_r; lra.
    - apply Qmult_le_compat_r; lra. }
  destruct (approx_bound _ _ _ _ At C4) as (B8 & F8).
  assert (Eu : 2 ^ (7 - prec) == 64 * 2 ^ (1 - prec)).
  { replace (7 - prec)%Z with (6 + (1 - prec))%Z by lia.
    rewrite pow2_add. reflexivity. }
  assert (Hu1 : 2 ^ (1 - prec) <= 1).
  { destruct (Z.eq_dec prec 1) as [->|Hne]; [simpl; lra|].
    replace (1 - prec)%Z with (- (prec - 1))%Z by lia.
    rewrite Qpower_opp.
    assert (H1 : 1 <= 2 ^ (prec - 1)).
    { apply Qpower_1_le; [lra|lia]. }
    apply Qle_shift_inv_r; lra. }
  pose proof (pow2_pos (1 - prec)) as Hu.
  unfold bracket_at. fold k8.
  set (B := 4 / inject_Z (k8 + 1) - 2 / inject_Z (k8 + 4)
            - 1 / inject_Z (k8 + 5) - 1 / inject_Z (k8 + 6)).
  rewrite Eu. clear Eu.
  remember (2 ^ (1 - prec)) as u eqn:Hudef. clear Hudef.
  remember (/ 16 ^ k) as iP eqn:HiPdef.
  assert (L1 : value s3 * iP <= (B + 29 * u) * iP)
    by (apply Qmult_le_compat_r; unfold B; lra).
  assert (L2 : (B - 29 * u) * iP <= value s3 * iP)
    by (apply Qmult_le_compat_r; unfold B; lra).
  assert (L3 : 0 <= u * iP) by (apply Qmult_le_0_compat; lra).
  split.
  - unfold Qdiv. rewrite <- HiPdef.
    apply Qabs_Qle_condition. lra.
  - unfold Qdiv. rewrite <- HiPdef.
    apply Qabs_Qle_condition. lra.
Qed.

(** C3 (as amended).  For every index [0 <= k < 2^61] and every working
    precision the evaluator returns the term
    [(1/16^k) * (4/(8k+1) - 2/(8k+4) - 1/(8k+5) - 1/(8k+6))] at that
    precision, and the four divisors it passes to [mpf_div_ui] are
    [8k+1], [8k+4], [8k+5], [8k+6], all strictly positive. *)
Theorem compute_bbp_term_correct (prec k : Z) :
  (1 <= prec)%Z -> (0 <= k < 2 ^ 61)%Z ->
  computes_term prec k /\
  bbp_divisors k = [8 * k + 1; 8 * k + 4; 8 * k + 5; 8 * k + 6]%Z /\
  Forall (fun d => (0 < d)%Z) (bbp_divisors k).
Proof.
  intros Hp Hk.
  assert (Ed : bbp_divisors k = [8 * k + 1; 8 * k + 4; 8 * k + 5; 8 * k + 6]%Z).
  { unfold bbp_divisors. rewrite !bbp_divisor_exact by lia.
    rewrite bbp_k8_small by exact Hk. reflexivity. }
  split; [|split; [exact Ed|rewrite Ed; repeat constructor; lia]].
  destruct (compute_bbp_term_spec prec k Hp ltac:(lia)) as (t & Et & _ & Herr & _).
  exists t. split; [exact Et|].
  rewrite bbp_k8_small in Herr by exact Hk.
  unfold bbp_term.
  setoid_replace (1 / 16 ^ k * bracket_at (8 * k))
    with (bracket_at (8 * k) / 16 ^ k); [exact Herr|].
  field. apply Qnot_eq_sym, Qlt_not_eq, Qpower_0_lt. reflexivity.
Qed.

Lemma compute_bbp_term_correct_witness :
  computes_term 64 3 /\
  bbp_divisors 3 = [8 * 3 + 1; 8 * 3 + 4; 8 * 3 + 5; 8 * 3 + 6]%Z /\
  Forall (fun d => (0 < d)%Z) (bbp_divisors 3).
Proof. apply (compute_bbp_term_correct 64 3); lia. Defined.

(** At [k = 2^61] the product [8 * k] wraps to zero: the evaluator
    divides by 1, 4, 5, 6 and returns [(1/16^k) * (47/15)] instead of the
    term of index [k]. *)
Lemma compute_bbp_term_wraps : ~ computes_term 64 (2 ^ 61).
Proof.
  intros (t & Et & Hacc).
  destruct (compute_bbp_term_spec 64 (2 ^ 61) ltac:(lia) ltac:(lia))
    as (t' & Et' & _ & Herr & _).
  rewrite Et in Et'. injection Et' as <-.
  change (bbp_k8 (2 ^ 61)) with 0%Z in Herr.
  unfold bbp_term in Hacc.
  assert (HA : 3 <= bracket_at 0) by (vm_compute; discriminate).
  assert (HC : bracket_at (8 * 2 ^ 61) <= 1) by (vm_compute; discriminate).
  assert (He : 2 ^ (7 - 64) <= 1 # 2) by (vm_compute; discriminate).
  assert (HP : 0 < / 16 ^ (2 ^ 61)).
  { apply Qinv_lt_0_compat, Qpower_0_lt. reflexivity. }
  unfold Qdiv in *. rewrite Qmult_1_l in Hacc.
  remember (/ 16 ^ (2 ^ 61)) as iP eqn:HiP. clear HiP.
  remember (bracket_at 0) as A eqn:HAdef. clear HAdef.
  remember (bracket_at (8 * 2 ^ 61)) as C eqn:HCdef. clear HCdef.
  remember (2 ^ (7 - 64)) as eps eqn:Hedef. clear Hedef.
  apply Qabs_diff_Qle_condition in Herr.
  apply Qabs_diff_Qle_condition in Hacc.
  assert (H1 : 1 * iP <= (A - C - 2 * eps) * iP)
    by (apply Qmult_le_compat_r; lra).
  lra.
Qed.

(** ** Partial sums *)

Lemma pow16_ge_1 (k : Z) : (0 <= k)%Z -> 1 <= 16 ^ k.
Proof. intros H. apply Qpower_1_le; [lra|exact H]. Qed.

Lemma geo_range (k : Z) : (0 <= k)%Z -> 0 <= geo k /\ geo k <= 128 # 15.
Proof.
  intros Hk. unfold geo.
  pose proof (pow16_ge_1 k Hk) as H1.
  assert (H2 : 0 < / 16 ^ k) by (apply Qinv_lt_0_compat; lra).
  assert (H3 : / 16 ^ k <= 1).
  { apply Qle_shift_inv_r; lra. }
  split; nra.
Qed.

Lemma geo_step (k size : Z) :
  (0 <= k)%Z -> (1 <= size)%Z -> geo k + 8 / 16 ^ k <= geo (k + size).
Proof.
  intros Hk Hs. unfold geo.
  pose proof (pow16_ge_1 k Hk) as H1.
  assert (E : 16 ^ (k + size) == 16 ^ k * 16 ^ size)
    by (apply Qpower_plus; discriminate).
  assert (H16 : 16 <= 16 ^ size).
  { change 16 with (16 ^ 1) at 1. apply Qpower_le_compat_l; [exact Hs|lra]. }
  rewrite E.
  assert (H2 : / (16 ^ k * 16 ^ size) <= / 16 ^ k * (1 # 16)).
  { rewrite Qinv_mult_distr.
    apply Qmult_le_l; [apply Qinv_lt_0_compat; lra|].
    apply Qle_shift_inv_r; lra. }
  unfold Qdiv.
  remember (/ 16 ^ k) as a. remember (/ (16 ^ k * 16 ^ size)) as b.
  lra.
Qed.

(** Every rank's loop returns, and the partial sum it returns is held at
    the working precision and is below [128/15] in magnitude. *)
Lemma compute_local_sum_spec (prec rank size num_terms : Z) :
  (1 <= prec)%Z -> (1 <= size)%Z -> (0 <= rank)%Z ->
  (num_terms <= ULONG_MOD)%Z ->
  exists s,
    compute_local_sum prec rank size num_terms = Done s /\
    (Z.abs (mant s) < 2 ^ prec)%Z /\
    Qabs (value s) <= 128 # 15.
Proof.
  intros Hp Hs Hr Hn. unfold compute_local_sum.
  destruct (for_stride_rule size num_terms
              (fun k local_sum =>
                 term <- compute_bbp_term prec (ulong k) ;;
                 Done (mpf_add prec local_sum term))
              (fun k acc =>
                 (0 <= k)%Z /\ (Z.abs (mant acc) < 2 ^ prec)%Z /\
                 Qabs (value acc) <= geo k)
              Hs) with (fuel := stride_fuel rank num_terms)
              (k := rank) (acc := mpf_set_ui 0) as (k' & s & Hrun & HI & _).
  - intros k acc Hlt (Hk & Hm & Hv).
    rewrite ulong_small by lia.
    destruct (compute_bbp_term_spec prec k Hp Hk) as (t & Et & _ & _ & Ht).
    rewrite Et; simpl bind.
    eexists; split; [reflexivity|].
    pose proof (mpf_add_approx prec acc t Hp) as [Am Ab _].
    split; [lia|]. split; [exact Am|].
    apply between0_abs in Ab.
    eapply Qle_trans; [exact Ab|].
    eapply Qle_trans; [apply Qabs_triangle|].
    eapply Qle_trans; [|apply geo_step; assumption]. lra.
  - unfold stride_fuel. lia.
  - split; [exact Hr|]. split.
    + simpl. apply Z.pow_pos_nonneg; lia.
    + change (Qabs (value (mpf_set_ui 0))) with 0. apply geo_range, Hr.
  - destruct HI as (Hk & Hm & Hv).
    exists s. split; [exact Hrun|]. split; [exact Hm|].
    eapply Qle_trans; [exact Hv|]. apply geo_range, Hk.
Qed.

(** ** Decimal text: printing and reading back *)

Local Close Scope Q_scope.

Ltac digit_cases d H :=
  assert (d = 0 \/ d = 1 \/ d = 2 \/ d = 3 \/ d = 4 \/
          d = 5 \/ d = 6 \/ d = 7 \/ d = 8 \/ d = 9) as H by lia;
  repeat (destruct H as [H|H]); subst d.

Lemma digit_val_char (d : Z) : 0 <= d < 10 -> digit_val (digit_char d) = Some d.
Proof. intros H. digit_cases d H'; reflexivity. Qed.

Lemma digit_not_special (c : ascii) :
  is_digit c ->
  Ascii.eqb c "."%char = false /\ Ascii.eqb c "-"%char = false /\
  Ascii.eqb c NUL = false.
Proof.
  intros (d & Hd & ->). digit_cases d H'; repeat split; reflexivity.
Qed.

Lemma dec_fixed_length (w : nat) (n : Z) : List.length (dec_fixed w n) = w.
Proof.
  revert n. induction w as [|w IH]; intros n; simpl; [reflexivity|].
  rewrite length_app, IH. simpl. lia.
Qed.

Lemma dec_fixed_digits (w : nat) (n : Z) : Forall is_digit (dec_fixed w n).
Proof.
  revert n. induction w as [|w IH]; intros n; simpl; [constructor|].
  apply Forall_app. split; [apply IH|].
  constructor; [|constructor].
  exists (n mod 10). split; [apply Z.mod_pos_bound; lia|reflexivity].
Qed.

Lemma dec_width_small (n : Z) : n < 10 -> dec_width n = 1%nat.
Proof.
  intros H. unfold dec_width.
  destruct (Z.to_nat (Z.log2 n)); simpl; [reflexivity|].
  destruct (Z.ltb_spec n 10); [reflexivity|lia].
Qed.

Lemma dec_width_pos (n : Z) : (1 <= dec_width n)%nat.
Proof.
  unfold dec_width. destruct (Z.to_nat (Z.log2 n)); simpl; [lia|].
  destruct (n <? 10); lia.
Qed.

Lemma dec_width_aux_bound (f : nat) :
  forall n, 0 <= n < 2 ^ (Z.of_nat f + 1) ->
            n < 10 ^ Z.of_nat (dec_width_aux f n).
Proof.
  induction f as [|f IH]; intros n Hn.
  - simpl in *. lia.
  - cbn [dec_width_aux]. destruct (Z.ltb_spec n 10) as [Hlt|Hge].
    + simpl. lia.
    + rewrite Nat2Z.inj_succ, Z.pow_succ_r by lia.
      assert (Hq : n / 10 < 10 ^ Z.of_nat (dec_width_aux f (n / 10))).
      { apply IH. split; [apply Z.div_pos; lia|].
        apply Z.div_lt_upper_bound; [lia|].
        rewrite Nat2Z.inj_succ in Hn.
        replace (Z.succ (Z.of_nat f) + 1) with (Z.succ (Z.of_nat f + 1)) in Hn by lia.
        rewrite Z.pow_succ_r in Hn by lia. lia. }
      pose proof (Z.div_mod n 10 ltac:(lia)) as E.
      pose proof (Z.mod_pos_bound n 10 ltac:(lia)). lia.
Qed.

Lemma dec_width_bound (n : Z) : 0 <= n -> n < 10 ^ Z.of_nat (dec_width n).
Proof.
  intros Hn. unfold dec_width.
  destruct (Z.eq_dec n 0) as [->|Hne].
  - simpl. lia.
  - apply dec_width_aux_bound. split; [exact Hn|].
    rewrite Z2Nat.id by apply Z.log2_nonneg.
    pose proof (Z.log2_spec n ltac:(lia)). 
    replace (Z.log2 n + 1) with (Z.succ (Z.log2 n)) by lia. lia.
Qed.

Lemma parse_dec_app (l1 l2 : list ascii) :
  forall acc cnt,
    parse_dec (l1 ++ l2) acc cnt =
    match parse_dec l1 acc cnt with
    | Some (a, c) => parse_dec l2 a c
    | None => None
    end.
Proof.
  induction l1 as [|c l1 IH]; intros acc cnt; simpl; [reflexivity|].
  destruct (digit_val c); [apply IH|reflexivity].
Qed.

Lemma parse_dec_fixed (w : nat) :
  forall n acc cnt,
    0 <= n < 10 ^ Z.of_nat w ->
    parse_dec (dec_fixed w n) acc cnt
    = Some (acc * 10 ^ Z.of_nat w + n, cnt + Z.of_nat w).
Proof.
  induction w as [|w IH]; intros n acc cnt Hn.
  - simpl in *. f_equal. f_equal; lia.
  - cbn [dec_fixed]. rewrite parse_dec_app.
    rewrite Nat2Z.inj_succ, Z.pow_succ_r in * by lia.
    rewrite IH.
    + cbn [parse_dec]. rewrite digit_val_char by (apply Z.mod_pos_bound; lia).
      f_equal. pose proof (Z.div_mod n 10 ltac:(lia)). f_equal; lia.
    + split; [apply Z.div_pos; lia|].
      apply Z.div_lt_upper_bound; lia.
Qed.

Lemma split_point_digits (ip fp : list ascii) :
  Forall is_digit ip ->
  split_point (ip ++ "."%char :: fp) = (ip, fp).
Proof.
  induction 1 as [|c ip Hc _ IH]; simpl; [reflexivity|].
  destruct (digit_not_special c Hc) as (-> & _ & _).
  rewrite IH. reflexivity.
Qed.

Lemma c_string_terminated (text : list ascii) :
  Forall (fun c => Ascii.eqb c NUL = false) text ->
  c_string (text ++ [NUL]) = text.
Proof.
  induction 1 as [|c text Hc _ IH]; simpl; [reflexivity|].
  rewrite Hc, IH. reflexivity.
Qed.

(** The text [gmp_sprintf_Ff] writes: the sign, the integer part, the
    point and exactly [n] digits. *)
Lemma gmp_sprintf_Ff_shape (n : Z) (x : mpf) :
  1 <= n ->
  let r := scaled_round n x in
  gmp_sprintf_Ff n x =
    (if mant x <? 0 then ["-"%char] else [])
    ++ dec_nat (r / 10 ^ n)
    ++ "."%char :: dec_fixed (Z.to_nat n) (r mod 10 ^ n).
Proof.
  intros Hn. unfold gmp_sprintf_Ff. rewrite Z.max_r by lia.
  destruct (Z.ltb_spec 0 n); [reflexivity|lia].
Qed.

Lemma gmp_sprintf_Ff_length (n : Z) (x : mpf) :
  1 <= n ->
  Z.of_nat (List.length (gmp_sprintf_Ff n x)) =
    (if mant x <? 0 then 1 else 0)
    + Z.of_nat (dec_width (scaled_round n x / 10 ^ n)) + 1 + n.
Proof.
  intros Hn. rewrite gmp_sprintf_Ff_shape by exact Hn.
  rewrite !length_app. cbn [List.length].
  unfold dec_nat. rewrite !dec_fixed_length.
  destruct (mant x <? 0); simpl List.length; lia.
Qed.

Lemma gmp_sprintf_Ff_no_nul (n : Z) (x : mpf) :
  1 <= n ->
  Forall (fun c => Ascii.eqb c NUL = false) (gmp_sprintf_Ff n x).
Proof.
  intros Hn. rewrite gmp_sprintf_Ff_shape by exact Hn.
  assert (Hd : forall l, Forall is_digit l ->
                 Forall (fun c => Ascii.eqb c NUL = false) l).
  { intros l. apply Forall_impl. intros c Hc. apply digit_not_special, Hc. }
  apply Forall_app. split.
  - destruct (mant x <? 0); repeat constructor.
  - apply Forall_app. split; [apply Hd, dec_fixed_digits|].
    constructor; [reflexivity|apply Hd, dec_fixed_digits].
Qed.

Lemma scaled_round_nonneg (n : Z) (x : mpf) : 0 <= n -> 0 <= scaled_round n x.
Proof.
  intros Hn. unfold scaled_round.
  assert (0 <= Z.abs (mant x) * 10 ^ n)
    by (apply Z.mul_nonneg_nonneg; [lia|apply Z.pow_nonneg; lia]).
  destruct (0 <=? expo x) eqn:E.
  - apply Z.mul_nonneg_nonneg; [lia|apply Z.pow_nonneg; lia].
  - assert (0 < 2 ^ (- expo x)) by (apply Z.pow_pos_nonneg; lia).
    apply Z.div_pos; lia.
Qed.

(** Reading back what [gmp_sprintf_Ff] wrote: the printed decimal,
    converted to the working precision. *)
Lemma mpf_set_str_sprintf (p n : Z) (x : mpf) :
  1 <= n ->
  mpf_set_str p (gmp_sprintf_Ff n x) =
    Some (mpf_round p
            (if mant x <? 0 then - scaled_round n x else scaled_round n x)
            (10 ^ n) 0).
Proof.
  intros Hn. rewrite gmp_sprintf_Ff_shape by exact Hn. cbv zeta.
  pose proof (scaled_round_nonneg n x ltac:(lia)) as HR.
  set (r := scaled_round n x) in *.
  assert (H10 : 0 < 10 ^ n) by (apply Z.pow_pos_nonneg; lia).
  set (ip := r / 10 ^ n). set (fp := r mod 10 ^ n).
  assert (Hip : 0 <= ip) by (apply Z.div_pos; lia).
  assert (Hfp : 0 <= fp < 10 ^ n) by (apply Z.mod_pos_bound; lia).
  assert (Hbody :
    parse_fixed (dec_nat ip ++ "."%char :: dec_fixed (Z.to_nat n) fp)
    = Some (r, 10 ^ n)).
  { unfold parse_fixed.
    rewrite split_point_digits by apply dec_fixed_digits.
    unfold dec_nat.
    rewrite parse_dec_fixed by (split; [exact Hip|apply dec_width_bound, Hip]).
    rewrite parse_dec_fixed by (rewrite Z2Nat.id by lia; exact Hfp).
    rewrite Z2Nat.id by lia. simpl (0 * _ + _). simpl (0 + _).
    pose proof (dec_width_pos ip).
    destruct (Z.eqb_spec (Z.of_nat (dec_width ip) + n) 0) as [E|_]; [lia|].
    f_equal. f_equal. unfold ip, fp.
    pose proof (Z.div_mod r (10 ^ n) ltac:(lia)). lia. }
  unfold mpf_set_str.
  destruct (mant x <? 0).
  - cbn [app]. change (Ascii.eqb "-" "-") with true. cbv iota.
    rewrite Hbody. reflexivity.
  - cbn [app].
    assert (Hhead : exists c t, dec_nat ip = c :: t /\ is_digit c).
    { pose proof (dec_fixed_digits (dec_width ip) ip) as HF.
      pose proof (dec_fixed_length (dec_width ip) ip) as HL.
      pose proof (dec_width_pos ip).
      unfold dec_nat. destruct (dec_fixed (dec_width ip) ip) as [|c t].
      - simpl in HL. lia.
      - exists c, t. split; [reflexivity|]. inversion HF; assumption. }
    destruct Hhead as (c & t & Ec & Hc).
    revert Hbody. rewrite Ec. cbn [app]. intros Hbody.
    destruct (digit_not_special c Hc) as (_ & -> & _).
    rewrite Hbody. reflexivity.
Qed.

(** ** The precision plan *)

Lemma calculate_precision_eq (digits : Z) :
  0 <= digits <= INT_MAX ->
  calculate_precision digits = (7 * digits + 128) / 2.
Proof.
  intros H. unfold calculate_precision, INT_MAX in *.
  rewrite Z.quot_div_nonneg by lia.
  apply ulong_small. unfold ULONG_MOD. split.
  - apply Z.div_pos; lia.
  - apply Z.div_lt_upper_bound; lia.
Qed.

Lemma calculate_precision_pos (digits : Z) :
  0 <= digits <= INT_MAX -> 64 <= calculate_precision digits.
Proof.
  intros H. rewrite calculate_precision_eq by exact H.
  apply Z.div_le_lower_bound; lia.
Qed.

(** The planned precision leaves room for eighteen decimal places beyond
    the requested ones: [2 * 10 ^ (digits + 18) <= 2 ^ (prec - 1)]. *)
Lemma calculate_precision_margin (digits : Z) :
  0 <= digits <= INT_MAX ->
  2 * 10 ^ (digits + 18) <= 2 ^ (calculate_precision digits - 1).
Proof.
  intros H. rewrite calculate_precision_eq by exact H.
  set (p := (7 * digits + 128) / 2).
  assert (Hp : 7 * digits + 127 <= 2 * p).
  { unfold p. pose proof (Z.div_mod (7 * digits + 128) 2 ltac:(lia)).
    pose proof (Z.mod_pos_bound (7 * digits + 128) 2 ltac:(lia)). lia. }
  assert (Hsq : (2 * 10 ^ (digits + 18)) ^ 2 <= (2 ^ (p - 1)) ^ 2).
  { rewrite <- Z.pow_mul_r by lia.
    apply Z.le_trans with (2 ^ (7 * digits + 125));
      [|apply Z.pow_le_mono_r; lia].
    rewrite Z.pow_mul_l, <- Z.pow_mul_r by lia.
    replace ((digits + 18) * 2) with (2 * digits + 36) by lia.
    rewrite !Z.pow_add_r by lia.
    rewrite !Z.pow_mul_r by lia.
    change (10 ^ 2) with 100. change (2 ^ 7) with 128.
    assert (H1 : 100 ^ digits <= 128 ^ digits)
      by (apply Z.pow_le_mono_l; lia).
    assert (H0 : 0 < 100 ^ digits) by (apply Z.pow_pos_nonneg; lia).
    change (2 ^ 2 * (100 ^ digits * 10 ^ 36) <= 128 ^ digits * 2 ^ 125)
      with (4 * (100 ^ digits * 1000000000000000000000000000000000000)
            <= 128 ^ digits * 42535295865117307932921825928971026432).
    nia. }
  apply Z.pow_le_mono_l_iff in Hsq; lia.
Qed.

(** ** Rounding to decimal places *)

Local Open Scope Q_scope.

Lemma Qabs_inject_Z (m : Z) : Qabs (inject_Z m) == inject_Z (Z.abs m).
Proof. reflexivity. Qed.

Lemma Qabs_value (x : mpf) :
  Qabs (value x) == inject_Z (Z.abs (mant x)) * 2 ^ expo x.
Proof.
  unfold value. rewrite Qabs_Qmult, Qabs_inject_Z.
  rewrite (Qabs_pos (2 ^ expo x)) by (apply Qlt_le_weak, pow2_pos).
  reflexivity.
Qed.

Lemma half_round_bounds (iD iR ia : Q) :
  0 < iD -> 2 * iD * iR <= 2 * ia + iD -> 2 * ia + iD < 2 * iD * (iR + 1) ->
  Qabs (iR - ia / iD) <= 1 # 2.
Proof.
  intros HiD Hlo Hhi. apply Qabs_diff_Qle_condition. split.
  - apply Qle_shift_div_l; [exact HiD|]. lra.
  - apply Qle_shift_div_r; [exact HiD|]. lra.
Qed.

(** [scaled_round n x] is [|x| * 10 ^ n] rounded to nearest. *)
Lemma scaled_round_spec (n : Z) (x : mpf) :
  (0 <= n)%Z ->
  Qabs (inject_Z (scaled_round n x) - Qabs (value x) * inject_Z (10 ^ n))
  <= 1 # 2.
Proof.
  intros Hn. rewrite Qabs_value. unfold scaled_round.
  set (m := Z.abs (mant x)).
  assert (H10 : (0 < 10 ^ n)%Z) by (apply Z.pow_pos_nonneg; lia).
  destruct (Z.leb_spec 0 (expo x)) as [He|He].
  - rewrite !inject_Z_mult, pow2_inject by exact He.
    setoid_replace (inject_Z m * inject_Z (10 ^ n) * 2 ^ expo x
                    - inject_Z m * 2 ^ expo x * inject_Z (10 ^ n))
      with 0 by ring.
    simpl. discriminate.
  - set (D := (2 ^ (- expo x))%Z).
    assert (HD : (0 < D)%Z) by (apply Z.pow_pos_nonneg; lia).
    set (a := (m * 10 ^ n)%Z).
    set (R := ((2 * a + D) / (2 * D))%Z).
    assert (Hlo : (2 * D * R <= 2 * a + D)%Z)
      by (apply Z.mul_div_le; lia).
    assert (Hhi : (2 * a + D < 2 * D * (R + 1))%Z).
    { pose proof (Z.mul_succ_div_gt (2 * a + D) (2 * D) ltac:(lia)).
      fold R in H. lia. }
    assert (E2 : 2 ^ expo x == / inject_Z D).
    { unfold D. rewrite pow2_inject by lia.
      rewrite <- Qpower_opp. rewrite Z.opp_involutive. reflexivity. }
    rewrite E2.
    setoid_replace (inject_Z m * / inject_Z D * inject_Z (10 ^ n))
      with (inject_Z a / inject_Z D)
      by (unfold a; rewrite inject_Z_mult; unfold Qdiv; ring).
    rewrite Zle_Qle in Hlo. rewrite Zlt_Qlt in Hhi.
    rewrite inject_Z_plus, !inject_Z_mult in Hlo.
    rewrite inject_Z_plus, !inject_Z_mult, inject_Z_plus in Hhi.
    change (inject_Z 2) with 2 in *. change (inject_Z 1) with 1 in *.
    apply half_round_bounds; [apply inject_Z_pos; exact HD|exact Hlo|exact Hhi].
Qed.

Lemma value_sign (x : mpf) :
  (if mant x <? 0 then value x == - Qabs (value x)
   else value x == Qabs (value x))%Z.
Proof.
  pose proof (pow2_pos (expo x)) as HE.
  destruct (Z.ltb_spec (mant x) 0) as [H|H].
  - rewrite Qabs_neg; [ring|]. unfold value.
    assert (inject_Z (mant x) <= 0)
      by (change 0 with (inject_Z 0); rewrite <- Zle_Qle; lia).
    nra.
  - rewrite Qabs_pos; [reflexivity|]. unfold value.
    pose proof (inject_Z_nonneg (mant x) H). nra.
Qed.

Lemma printed_value_close (n : Z) (x : mpf) :
  (0 <= n)%Z ->
  Qabs (printed_value n x - value x) <= (1 # 2) / inject_Z (10 ^ n).
Proof.
  intros Hn. unfold printed_value.
  pose proof (scaled_round_spec n x Hn) as HR.
  pose proof (value_sign x) as Hs.
  assert (H10 : 0 < inject_Z (10 ^ n))
    by (apply inject_Z_pos, Z.pow_pos_nonneg; lia).
  assert (HiT : 0 < / inject_Z (10 ^ n)) by (apply Qinv_lt_0_compat, H10).
  apply Qabs_diff_Qle_condition in HR. destruct HR as [HR1 HR2].
  assert (Ev : Qabs (value x) * inject_Z (10 ^ n) * / inject_Z (10 ^ n)
               == Qabs (value x)) by (field; lra).
  apply (Qmult_le_compat_r _ _ (/ inject_Z (10 ^ n))) in HR1; [|lra].
  apply (Qmult_le_compat_r _ _ (/ inject_Z (10 ^ n))) in HR2; [|lra].
  rewrite Ev in HR1, HR2. clear Ev.
  unfold Qdiv.
  remember (/ inject_Z (10 ^ n)) as iT eqn:HiTdef. clear HiTdef.
  remember (Qabs (value x)) as av eqn:Hav. clear Hav.
  apply Qabs_diff_Qle_condition.
  destruct (mant x <? 0)%Z.
  - rewrite inject_Z_opp. lra.
  - lra.
Qed.

(** ** The transport buffer *)

Lemma partial_sum_int_digit (n : Z) (x : mpf) :
  (0 <= n)%Z -> Qabs (value x) <= 128 # 15 ->
  (0 <= scaled_round n x / 10 ^ n < 10)%Z.
Proof.
  intros Hn Hx.
  pose proof (scaled_round_spec n x Hn) as HR.
  pose proof (scaled_round_nonneg n x Hn) as H0.
  assert (H10 : (1 <= 10 ^ n)%Z)
    by (pose proof (Z.pow_pos_nonneg 10 n ltac:(lia) Hn); lia).
  split; [apply Z.div_pos; lia|].
  apply Z.div_lt_upper_bound; [lia|].
  rewrite Zlt_Qlt, inject_Z_mult.
  rewrite Zle_Qle in H10.
  apply Qabs_diff_Qle_condition in HR.
  pose proof (Qabs_nonneg (value x)) as Hv.
  change (inject_Z 1) with 1 in H10. change (inject_Z 10) with 10.
  revert HR H10 Hx Hv.
  generalize (inject_Z (scaled_round n x)) (Qabs (value x)) (inject_Z (10 ^ n)).
  intros iR av T HR H10 Hx Hv. nra.
Qed.

Lemma buffer_size_eq (digits : Z) :
  (1 <= digits)%Z -> (digits + 100 <= INT_MAX)%Z ->
  buffer_size digits = (digits + 100)%Z.
Proof.
  intros H1 H2. unfold buffer_size, to_size_t, ULONG_MOD, INT_MAX in *.
  apply Z.mod_small. lia.
Qed.

(** The text of a partial sum: one integer digit, so at most
    [digits + 23] characters, which fit the buffer with the terminator;
    the message is the whole text and its NUL. *)
Lemma serialize_fits (digits : Z) (x : mpf) :
  (1 <= digits)%Z -> (digits + 100 <= INT_MAX)%Z ->
  Qabs (value x) <= 128 # 15 ->
  let text := gmp_sprintf_Ff (digits + 20) x in
  Z.of_nat (List.length text)
    = ((if mant x <? 0 then 1 else 0) + 1 + 1 + (digits + 20))%Z /\
  serialize digits x = Done (text ++ [NUL]).
Proof.
  intros H1 H2 Hx text.
  assert (Hlen : Z.of_nat (List.length text)
    = ((if mant x <? 0 then 1 else 0) + 1 + 1 + (digits + 20))%Z).
  { unfold text. rewrite gmp_sprintf_Ff_length by lia.
    rewrite dec_width_small
      by (apply partial_sum_int_digit; [lia|exact Hx]).
    reflexivity. }
  split; [exact Hlen|].
  unfold serialize, sprintf_into. fold text.
  rewrite buffer_size_eq by assumption.
  destruct (Z.leb_spec (Z.of_nat (List.length text) + 1) (digits + 100))
    as [_|Hbad]; [reflexivity|].
  destruct (mant x <? 0)%Z; lia.
Qed.

(** C6.  For every [digit_count >= 1] (with [digit_count + 100]
    representable as an [int]) and every rank of a group, the partial sum
    the rank computes is written as one integer digit (after a minus sign,
    if any), the point and [digit_count + 20] digits; with the terminator
    this fits the buffer of [digit_count + 100] bytes, so [gmp_sprintf]
    stays inside it, the message is the whole text and its NUL, and the
    coordinator's receive into a buffer of the same size takes all of
    it. *)
Theorem transport_buffer_suffices (digits rank size : Z) :
  (1 <= digits)%Z -> (digits + 100 <= INT_MAX)%Z ->
  (1 <= size)%Z -> (0 <= rank < size)%Z ->
  exists x,
    compute_local_sum (calculate_precision digits) rank size
      (calculate_num_terms digits) = Done x /\
    let text := gmp_sprintf_Ff (digits + 20) x in
    buffer_size digits = (digits + 100)%Z /\
    Z.of_nat (List.length text)
      = ((if mant x <? 0 then 1 else 0) + 1 + 1 + (digits + 20))%Z /\
    (Z.of_nat (List.length text) + 1 <= buffer_size digits)%Z /\
    sprintf_into (buffer_size digits) text = Done text /\
    serialize digits x = Done (text ++ [NUL]) /\
    forall inbox,
      inbox rank = Some (text ++ [NUL]) ->
      mpi_recv (buffer_size digits) inbox rank = Done (text ++ [NUL]).
Proof.
  intros H1 H2 Hs Hr.
  assert (Hd : (0 <= digits <= INT_MAX)%Z) by (unfold INT_MAX in *; lia).
  pose proof (calculate_precision_pos digits Hd) as Hp.
  destruct (compute_local_sum_spec (calculate_precision digits) rank size
              (calculate_num_terms digits))
    as (x & Ex & _ & Hx); try lia.
  { unfold calculate_num_terms, ULONG_MOD, INT_MAX in *. lia. }
  exists x. split; [exact Ex|]. intros text.
  destruct (serialize_fits digits x H1 H2 Hx) as (Hlen & Hser). fold text in Hlen, Hser.
  pose proof (buffer_size_eq digits H1 H2) as Hb.
  assert (Hfit : (Z.of_nat (List.length text) + 1 <= buffer_size digits)%Z).
  { rewrite Hb, Hlen. destruct (mant x <? 0)%Z; lia. }
  split; [exact Hb|]. split; [exact Hlen|]. split; [exact Hfit|].
  split; [|split; [exact Hser|]].
  - unfold sprintf_into.
    destruct (Z.leb_spec (Z.of_nat (List.length text) + 1) (buffer_size digits));
      [reflexivity|lia].
  - intros inbox Hin. unfold mpi_recv. rewrite Hin.
    rewrite length_app. cbn [List.length].
    destruct (Z.leb_spec (Z.of_nat (List.length text + 1)) (buffer_size digits));
      [reflexivity|lia].
Qed.

Lemma transport_buffer_suffices_witness :
  exists x,
    compute_local_sum (calculate_precision 5) 1 3
      (calculate_num_terms 5) = Done x /\
    let text := gmp_sprintf_Ff (5 + 20) x in
    buffer_size 5 = (5 + 100)%Z /\
    Z.of_nat (List.length text)
      = ((if mant x <? 0 then 1 else 0) + 1 + 1 + (5 + 20))%Z /\
    (Z.of_nat (List.length text) + 1 <= buffer_size 5)%Z /\
    sprintf_into (buffer_size 5) text = Done text /\
    serialize 5 x = Done (text ++ [NUL]) /\
    forall inbox,
      inbox 1%Z = Some (text ++ [NUL]) ->
      mpi_recv (buffer_size 5) inbox 1 = Done (text ++ [NUL]).
Proof. apply (transport_buffer_suffices 5 1 3); unfold INT_MAX; lia. Defined.

(** ** The round trip of the transport *)

Lemma round_trip_arith (vx pv vy U W u : Q) :
  1 <= U -> 0 < u -> u * W == 1 -> 20 * U <= W ->
  Qabs vx <= 128 # 15 ->
  Qabs (pv - vx) <= (1 # 2) / (1000 * U) ->
  (Qabs pv <= 10 ->
   pv - 10 * u <= vy /\ vy <= pv + 10 * u) ->
  Qabs (vy - vx) <= 1 / U.
Proof.
  intros HU Hu HuW HW Hx Hp Hy.
  assert (HiU : 0 < / U) by (apply Qinv_lt_0_compat; lra).
  assert (HiU1 : / U <= 1) by (apply Qle_shift_inv_r; lra).
  assert (E1 : (1 # 2) / (1000 * U) == (1 # 2000) * / U) by (field; lra).
  assert (E2 : U * / U == 1) by (field; lra).
  rewrite E1 in Hp. clear E1.
  assert (Hu2 : 10 * u <= (1 # 2) * / U).
  { assert (H20 : u * (20 * U) <= u * W)
      by (apply Qmult_le_l; [exact Hu|exact HW]).
    rewrite HuW in H20.
    assert (H3 : (u * (20 * U)) * / U <= 1 * / U)
      by (apply Qmult_le_compat_r; lra).
    setoid_replace (u * (20 * U) * / U) with (20 * u * (U * / U)) in H3 by ring.
    rewrite E2 in H3. lra. }
  apply Qabs_Qle_condition in Hx.
  apply Qabs_diff_Qle_condition in Hp.
  assert (Hpv : Qabs pv <= 10) by (apply Qabs_Qle_condition; lra).
  destruct (Hy Hpv) as [Hy1 Hy2].
  unfold Qdiv. apply Qabs_diff_Qle_condition. lra.
Qed.

(** C4.  For every [digit_count >= 1] (with [digit_count + 100]
    representable as an [int]) and every value [x] in the range of the
    partial sums ([|x| <= 128/15], see [compute_local_sum_spec]):
    serializing [x] with [digit_count + 20] fractional digits returns a
    message, reading the message back in base 10 at the planned precision
    returns a value, and that value is within [10 ^ - (digit_count + 17)]
    of [x], seventeen decimal places beyond the requested ones. *)
Theorem transport_round_trip (digits : Z) (x : mpf) :
  (1 <= digits)%Z -> (digits + 100 <= INT_MAX)%Z ->
  Qabs (value x) <= 128 # 15 ->
  exists msg y,
    serialize digits x = Done msg /\
    mpf_set_str (calculate_precision digits) (c_string msg) = Some y /\
    Qabs (value y - value x) <= 1 / inject_Z (10 ^ (digits + 17)).
Proof.
  intros H1 H2 Hx.
  assert (Hd : (0 <= digits <= INT_MAX)%Z) by (unfold INT_MAX in *; lia).
  pose proof (calculate_precision_pos digits Hd) as Hp.
  pose proof (calculate_precision_margin digits Hd) as Hm.
  set (p := calculate_precision digits) in *.
  destruct (serialize_fits digits x H1 H2 Hx) as (_ & Hser).
  set (n := (digits + 20)%Z) in *.
  eexists; eexists. split; [exact Hser|].
  rewrite c_string_terminated by (apply gmp_sprintf_Ff_no_nul; unfold n; lia).
  rewrite mpf_set_str_sprintf by (unfold n; lia).
  split; [reflexivity|].
  set (r := (if (mant x <? 0)%Z then (- scaled_round n x)%Z else scaled_round n x)).
  assert (H10 : (0 < 10 ^ n)%Z) by (apply Z.pow_pos_nonneg; unfold n; lia).
  pose proof (mpf_round_approx p r (10 ^ n) 0 ltac:(lia) H10) as A.
  apply (approx_ext _ _ (printed_value n x)) in A;
    [|unfold printed_value; fold r; simpl (2 ^ 0); ring].
  pose proof (printed_value_close n x ltac:(unfold n; lia)) as Hc.
  assert (EU : inject_Z (10 ^ n) == 1000 * inject_Z (10 ^ (digits + 17))).
  { unfold n. replace (digits + 20)%Z with (3 + (digits + 17))%Z by lia.
    rewrite Z.pow_add_r by lia. rewrite inject_Z_mult. reflexivity. }
  rewrite EU in Hc.
  apply (round_trip_arith (value x) (printed_value n x) _ _
           (inject_Z (2 ^ (p - 1))) (2 ^ (1 - p))).
  - change 1 with (inject_Z 1). rewrite <- Zle_Qle.
    pose proof (Z.pow_pos_nonneg 10 (digits + 17) ltac:(lia) ltac:(lia)). lia.
  - apply pow2_pos.
  - rewrite pow2_inject by lia. rewrite <- pow2_add.
    replace (1 - p + (p - 1))%Z with 0%Z by lia. reflexivity.
  - change 20 with (inject_Z 20). rewrite <- inject_Z_mult, <- Zle_Qle.
    replace (digits + 18)%Z with (1 + (digits + 17))%Z in Hm by lia.
    rewrite Z.pow_add_r in Hm by lia. lia.
  - exact Hx.
  - exact Hc.
  - intros Hpv. apply (approx_bound _ _ _ _ A Hpv).
Qed.

Lemma transport_round_trip_witness :
  exists msg y,
    serialize 5 (MkMpf 25 (-3)) = Done msg /\
    mpf_set_str (calculate_precision 5) (c_string msg) = Some y /\
    Qabs (value y - value (MkMpf 25 (-3))) <= 1 / inject_Z (10 ^ (5 + 17)).
Proof.
  apply (transport_round_trip 5 (MkMpf 25 (-3)));
    [lia|unfold INT_MAX; lia|vm_compute; discriminate].
Defined.

(** ** Ranks without terms *)

Local Close Scope Q_scope.

Lemma mpf_set_str_zero (p n : Z) :
  1 <= n -> mpf_set_str p (gmp_sprintf_Ff n mpf_zero) = Some mpf_zero.
Proof.
  intros Hn. rewrite mpf_set_str_sprintf by exact Hn.
  assert (E : scaled_round n mpf_zero = 0).
  { unfold scaled_round. simpl. reflexivity. }
  rewrite E. reflexivity.
Qed.

(** C8.  A rank at or past [term_count] (there is one whenever
    [group_size > term_count]) runs no turn of the accumulation loop: it
    owns no index and its partial sum is exactly zero.  Its message reads
    back as exactly zero, and the coordinator's addition of it leaves
    [pi] as it was, for every [pi] held at the working precision; the
    values [pi] takes in the receive loop, the copy of the local sum and
    the results of the additions, are held at it. *)
Theorem empty_rank_adds_nothing (prec digits rank size term_count : Z) :
  1 <= prec -> 1 <= digits -> digits + 100 <= INT_MAX ->
  term_count < size -> term_count <= rank < size ->
  owned_terms rank size term_count = Done [] /\
  compute_local_sum prec rank size term_count = Done mpf_zero /\
  exists msg,
    serialize digits mpf_zero = Done msg /\
    (forall inbox pi received,
       Z.abs (mant pi) < 2 ^ prec ->
       inbox rank = Some msg ->
       recv_step prec digits inbox rank (pi, received) = Done (pi, mpf_zero)) /\
    (forall local, Z.abs (mant (mpf_set prec local)) < 2 ^ prec) /\
    (forall pi received_sum, Z.abs (mant (mpf_add prec pi received_sum)) < 2 ^ prec).
Proof.
  intros Hp H1 H2 Hsz Hr.
  split; [apply for_stride_skip; lia|].
  split; [apply for_stride_skip; lia|].
  assert (Hz : (Qabs (value mpf_zero) <= 128 # 15)%Q) by (vm_compute; discriminate).
  destruct (serialize_fits digits mpf_zero H1 H2 Hz) as (Hlen & Hser).
  eexists. split; [exact Hser|]. split; [|split].
  - intros inbox pi received Hpi Hin.
    unfold recv_step, mpi_recv. rewrite Hin.
    rewrite length_app. cbn [List.length].
    rewrite buffer_size_eq by assumption.
    destruct (Z.leb_spec (Z.of_nat (List.length (gmp_sprintf_Ff (digits + 20) mpf_zero) + 1))
                (digits + 100)) as [_|Hbad].
    + cbn [bind].
      rewrite c_string_terminated by (apply gmp_sprintf_Ff_no_nul; lia).
      rewrite mpf_set_str_zero by lia.
      unfold mpf_add. cbn [mant mpf_zero Z.eqb]. unfold mpf_set.
      rewrite normalize_small by exact Hpi. reflexivity.
    + change (mant mpf_zero <? 0) with false in Hlen. cbv zeta in Hlen. lia.
  - intros local. apply normalize_mant_bound, Hp.
  - intros pi received_sum. unfold mpf_add, mpf_set.
    destruct (mant received_sum =? 0); [apply normalize_mant_bound, Hp|].
    destruct (mant pi =? 0); apply normalize_mant_bound, Hp.
Qed.

Lemma empty_rank_adds_nothing_witness :
  owned_terms 12 13 11 = Done [] /\
  compute_local_sum 64 12 13 11 = Done mpf_zero /\
  exists msg,
    serialize 1 mpf_zero = Done msg /\
    (forall inbox pi received,
       Z.abs (mant pi) < 2 ^ 64 ->
       inbox 12 = Some msg ->
       recv_step 64 1 inbox 12 (pi, received) = Done (pi, mpf_zero)) /\
    (forall local, Z.abs (mant (mpf_set 64 local)) < 2 ^ 64) /\
    (forall pi received_sum, Z.abs (mant (mpf_add 64 pi received_sum)) < 2 ^ 64).
Proof.
  apply (empty_rank_adds_nothing 64 1 12 13 11); unfold INT_MAX; lia.
Defined.

(** ** The digit renderer *)

Lemma print_step_emit (dp : list ascii) (len i : Z) (out : list ascii) :
  print_step dp len i out
  = Done (out ++ nth (Z.to_nat i) dp NUL :: separator len (i + 1)).
Proof.
  unfold print_step, separator.
  destruct ((i + 1) mod 10 =? 0); destruct (i + 1 <? len);
    destruct ((i + 1) mod 50 =? 0); cbn [andb];
    rewrite <- ?app_assoc; reflexivity.
Qed.

Lemma skipn_nth_cons (l : list ascii) (i : nat) :
  (i < List.length l)%nat ->
  skipn i l = nth i l NUL :: skipn (Datatypes.S i) l.
Proof.
  revert i. induction l as [|c l IH]; intros i Hi; simpl in Hi; [lia|].
  destruct i; [reflexivity|]. simpl. apply IH. lia.
Qed.

Lemma print_loop_emit (dp : list ascii) (len : Z) (out : list ascii) :
  0 <= len <= Z.of_nat (List.length dp) ->
  for_stride (Z.to_nat len) 0 1 len (print_step dp len) out
  = Done (out ++ emit len 0 (firstn (Z.to_nat len) dp)).
Proof.
  intros Hlen.
  pose (rest := fun k => firstn (Z.to_nat (len - k)) (skipn (Z.to_nat k) dp)).
  destruct (for_stride_rule 1 len (print_step dp len)
              (fun k acc =>
                 0 <= k <= len /\
                 acc ++ emit len k (rest k) = out ++ emit len 0 (rest 0))
              ltac:(lia)) with (fuel := Z.to_nat len) (k := 0) (acc := out)
    as (k' & acc' & Hrun & (Hk & HI) & Hstop).
  - intros k acc Hlt (Hk & HI).
    rewrite print_step_emit. eexists. split; [reflexivity|].
    split; [lia|]. rewrite <- HI. rewrite <- app_assoc. f_equal.
    unfold rest.
    rewrite (skipn_nth_cons dp (Z.to_nat k)) by lia.
    replace (Z.to_nat (len - k)) with (Datatypes.S (Z.to_nat (len - (k + 1)))) by lia.
    cbn [firstn emit app].
    replace (Datatypes.S (Z.to_nat k)) with (Z.to_nat (k + 1)) by lia.
    reflexivity.
  - lia.
  - split; [lia|reflexivity].
  - rewrite Hrun. f_equal.
    assert (k' = len) by lia. subst k'.
    unfold rest in HI. rewrite Z.sub_diag in HI. cbn [Z.to_nat firstn emit] in HI.
    rewrite app_nil_r in HI. rewrite HI.
    rewrite Z.sub_0_r. reflexivity.
Qed.

Lemma separator_inner (len i t : Z) :
  i mod 10 = 0 -> 1 <= t <= 9 -> separator len (i + t) = [].
Proof.
  intros Hi Ht. unfold separator.
  destruct (Z.eqb_spec ((i + t) mod 10) 0) as [E|_]; [|reflexivity].
  exfalso. rewrite Z.add_mod, Hi, Z.add_0_l, Z.mod_mod in E by lia.
  rewrite Z.mod_small in E; lia.
Qed.

Lemma separator_block (len i : Z) :
  0 <= i -> i mod 10 = 0 ->
  separator len (i + 10)
  = if i + 10 <? len then
      " "%char :: (if (i / 10 + 1) mod 5 =? 0 then [newline; " "; " "]%char else [])
    else [].
Proof.
  intros H0 Hi. unfold separator.
  pose proof (Z.div_mod i 10 ltac:(lia)) as E. rewrite Hi in E.
  assert (E10 : (i + 10) mod 10 = 0).
  { replace (i + 10) with (i + 1 * 10) by lia. rewrite Z.mod_add; lia. }
  rewrite E10. cbn [Z.eqb andb].
  destruct (i + 10 <? len); [|reflexivity].
  f_equal.
  assert (E50 : (i + 10) mod 50 = 10 * ((i / 10 + 1) mod 5)).
  { replace (i + 10) with (10 * (i / 10 + 1)) by lia.
    change 50 with (10 * 5). rewrite Z.mul_mod_distr_l by lia. reflexivity. }
  rewrite E50.
  destruct (Z.eqb_spec ((i / 10 + 1) mod 5) 0) as [->|Hne]; [reflexivity|].
  destruct (Z.eqb_spec (10 * ((i / 10 + 1) mod 5)) 0) as [E0|_]; [lia|reflexivity].
Qed.

Lemma blocks_nil (fuel : nat) : blocks fuel [] = [].
Proof. destruct fuel; reflexivity. Qed.

(** Inside a block no separator is written. *)
Lemma emit_inner (len i : Z) (b rest : list ascii) :
  i mod 10 = 0 ->
  forall t, 0 <= t -> t + Z.of_nat (List.length b) <= 9 ->
    emit len (i + t) (b ++ rest)
    = b ++ emit len (i + t + Z.of_nat (List.length b)) rest.
Proof.
  intros Hi. induction b as [|c b IH]; intros t Ht Hb.
  - cbn [app List.length Z.of_nat]. rewrite Z.add_0_r. reflexivity.
  - change (List.length (c :: b)) with (Datatypes.S (List.length b)) in *.
    rewrite Nat2Z.inj_succ in *.
    cbn [app emit].
    replace (i + t + 1) with (i + (t + 1)) by lia.
    rewrite (separator_inner len i (t + 1) Hi) by lia. cbn [app].
    rewrite IH by lia.
    replace (i + (t + 1) + Z.of_nat (List.length b))
      with (i + t + Z.succ (Z.of_nat (List.length b))) by lia.
    reflexivity.
Qed.

Lemma blocks_cons (f : nat) (l : list ascii) :
  l <> [] -> blocks (Datatypes.S f) l = firstn 10 l :: blocks f (skipn 10 l).
Proof. destruct l; [congruence|reflexivity]. Qed.

Lemma emit_lay_out (fuel : nat) :
  forall l i len,
    (List.length l <= fuel)%nat -> 0 <= i -> i mod 10 = 0 ->
    len = i + Z.of_nat (List.length l) ->
    emit len i l = lay_out (i / 10 + 1) (blocks fuel l).
Proof.
  induction fuel as [|f IH]; intros l i len Hl H0 Hi Hlen.
  - destruct l; [reflexivity|simpl in Hl; lia].
  - destruct l as [|c l']; [reflexivity|].
    assert (Hne : c :: l' <> []) by discriminate.
    remember (c :: l') as l eqn:El. clear El.
    rewrite blocks_cons by exact Hne.
    destruct (Nat.le_gt_cases (List.length l) 9) as [Hshort|Hlong].
    + rewrite firstn_all2 by lia. rewrite skipn_all2 by lia.
      rewrite blocks_nil. cbn [lay_out]. rewrite app_nil_r.
      rewrite <- (app_nil_r l) at 1.
      replace i with (i + 0) at 1 by lia.
      rewrite emit_inner by (assumption || lia).
      cbn [emit]. apply app_nil_r.
    + assert (E : l = firstn 9 l ++ nth 9 l NUL :: skipn 10 l).
      { rewrite <- (firstn_skipn 9 l) at 1. f_equal.
        apply skipn_nth_cons. lia. }
      assert (E10 : firstn 10 l = firstn 9 l ++ [nth 9 l NUL]).
      { rewrite E at 1. rewrite firstn_app.
        rewrite firstn_length_le by lia.
        rewrite (firstn_all2 (n := 10)) by (rewrite firstn_length_le; lia).
        reflexivity. }
      assert (L9 : List.length (firstn 9 l) = 9%nat)
        by (apply firstn_length_le; lia).
      assert (Lrest : List.length (skipn 10 l) = (List.length l - 10)%nat)
        by apply length_skipn.
      rewrite E at 1.
      replace i with (i + 0) at 1 by lia.
      rewrite emit_inner by (assumption || lia).
      rewrite L9. cbn [emit].
      replace (i + 0 + Z.of_nat 9 + 1) with (i + 10) by lia.
      rewrite separator_block by assumption.
      rewrite E10. cbn [lay_out]. rewrite <- app_assoc. cbn [app].
      f_equal. f_equal.
      assert (Hi10 : (i + 10) mod 10 = 0).
      { replace (i + 10) with (i + 1 * 10) by lia. rewrite Z.mod_add; lia. }
      assert (Ediv : (i + 10) / 10 + 1 = i / 10 + 1 + 1).
      { replace (i + 10) with (i + 1 * 10) by lia. rewrite Z.div_add; lia. }
      destruct (skipn 10 l) as [|d rest] eqn:Erest.
      * rewrite blocks_nil.
        destruct (Z.ltb_spec (i + 10) len) as [Hlt|_];
          [cbn [List.length] in Lrest; lia|reflexivity].
      * destruct (Z.ltb_spec (i + 10) len) as [_|Hbad];
          [|cbn [List.length] in Lrest; lia].
        rewrite (IH (d :: rest) (i + 10) len)
          by (cbn [List.length] in *; lia).
        rewrite Ediv.
        destruct f as [|f']; [cbn [List.length] in *; lia|].
        rewrite blocks_cons by discriminate. reflexivity.
Qed.

Lemma dec_nat_one_digit (n : Z) :
  0 <= n < 10 -> dec_nat n = [digit_char n].
Proof.
  intros H. unfold dec_nat. rewrite dec_width_small by lia.
  cbn [dec_fixed app]. rewrite Z.mod_small by lia. reflexivity.
Qed.

(** [print_pi] on a fractional part that prints with one integer digit
    and no sign: the header, the [digits] digits after the point in the
    layout of the specification, and the final line break. *)
Lemma print_pi_digits (prec : Z) (pi : mpf) (digits : Z) :
  1 <= digits -> digits + 100 <= INT_MAX ->
  let frac := mpf_sub_ui prec (mpf_set prec pi) 3 in
  let r := scaled_round digits frac in
  0 <= mant frac -> 0 <= r / 10 ^ digits < 10 ->
  print_pi prec pi digits
  = Done (print_header
          ++ group_digits (dec_fixed (Z.to_nat digits) (r mod 10 ^ digits))
          ++ [newline]).
Proof.
  intros H1 H2 frac r Hm Hip. unfold print_pi. fold frac.
  rewrite gmp_sprintf_Ff_shape by exact H1. fold r.
  destruct (Z.ltb_spec (mant frac) 0) as [Hneg|_]; [lia|].
  rewrite dec_nat_one_digit by exact Hip. cbn [app].
  set (ds := dec_fixed (Z.to_nat digits) (r mod 10 ^ digits)).
  assert (Lds : List.length ds = Z.to_nat digits) by apply dec_fixed_length.
  unfold sprintf_into. cbn [List.length].
  fold (buffer_size digits). rewrite buffer_size_eq by assumption.
  destruct (Z.leb_spec (Z.of_nat (Datatypes.S (Datatypes.S (List.length ds))) + 1)
              (digits + 100)) as [_|Hbad]; [|lia].
  cbn [bind skipn].
  destruct (Z.gtb_spec (Z.of_nat (List.length ds)) digits) as [Hgt|_]; [lia|].
  rewrite print_loop_emit by lia.
  cbn [bind]. rewrite Nat2Z.id. rewrite firstn_all.
  rewrite (emit_lay_out (List.length ds) ds 0 (Z.of_nat (List.length ds)))
    by (reflexivity || lia).
  rewrite <- app_assoc. reflexivity.
Qed.

Local Open Scope Q_scope.

(** Truncation never drops below an integer that fits the precision. *)
Lemma normalize_ge_int (p c : Z) (x : mpf) :
  (1 <= p)%Z -> (0 < c < 2 ^ p)%Z ->
  inject_Z c <= value x -> inject_Z c <= value (normalize p x).
Proof.
  intros Hp Hc Hx.
  assert (Hc0 : 0 < inject_Z c) by (apply inject_Z_pos; lia).
  assert (Hm : (0 < mant x)%Z).
  { destruct (Z.lt_ge_cases 0 (mant x)) as [H|H]; [exact H|]. exfalso.
    unfold value in Hx. pose proof (pow2_pos (expo x)) as HE.
    assert (Hi : inject_Z (mant x) <= 0)
      by (change 0 with (inject_Z 0); rewrite <- Zle_Qle; lia).
    nra. }
  destruct (Z.lt_ge_cases (mant x) (2 ^ p)) as [Hlt|Hge].
  { rewrite normalize_small by lia. exact Hx. }
  destruct (normalize_bracket p x Hp ltac:(lia))
    as (t & Ht & He & Hq & Hbr & Htop).
  specialize (Htop Hge).
  destruct (normalize p x) as [q E]; simpl in *. subst E.
  unfold value at 1. cbn [mant expo].
  assert (Hup : value x < inject_Z (q + 1) * 2 ^ (expo x + t)).
  { rewrite <- value_scale by exact Ht. unfold value.
    apply Qmult_lt_compat_r; [apply pow2_pos|]. rewrite <- Zlt_Qlt. lia. }
  destruct (Z.le_gt_cases (expo x + t) 0) as [Hle|Hgt].
  - set (s := (- (expo x + t))%Z).
    assert (Es : 2 ^ (expo x + t) == / inject_Z (2 ^ s)).
    { replace (expo x + t)%Z with (- s)%Z by (unfold s; lia).
      rewrite Qpower_opp, pow2_inject by (unfold s; lia). reflexivity. }
    rewrite Es. rewrite Es in Hup.
    assert (H2s : 0 < inject_Z (2 ^ s))
      by (apply inject_Z_pos, Z.pow_pos_nonneg; unfold s; lia).
    assert (Hz : (c * 2 ^ s < q + 1)%Z).
    { rewrite Zlt_Qlt, inject_Z_mult.
      apply (Qmult_lt_r _ _ (/ inject_Z (2 ^ s)));
        [apply Qinv_lt_0_compat, H2s|].
      setoid_replace (inject_Z c * inject_Z (2 ^ s) * / inject_Z (2 ^ s))
        with (inject_Z c) by (field; lra).
      lra. }
    assert (Hz' : (c * 2 ^ s <= q)%Z) by lia.
    rewrite Zle_Qle, inject_Z_mult in Hz'.
    apply (Qmult_le_r _ _ (inject_Z (2 ^ s))); [exact H2s|].
    setoid_replace (inject_Z q * / inject_Z (2 ^ s) * inject_Z (2 ^ s))
      with (inject_Z q) by (field; lra).
    exact Hz'.
  - rewrite <- pow2_inject by lia. rewrite <- inject_Z_mult, <- Zle_Qle.
    assert (H2 : (2 <= 2 ^ (expo x + t))%Z).
    { change 2%Z with (2 ^ 1)%Z at 1. apply Z.pow_le_mono_r; lia. }
    assert (E2 : (2 ^ p = 2 * 2 ^ (p - 1))%Z).
    { replace p with (1 + (p - 1))%Z at 1 by lia.
      rewrite Z.pow_add_r by lia. reflexivity. }
    nia.
Qed.

(** A precision that resolves five places past the printed ones: the
    unit roundoff is at most [10 ^ -5] units of the last printed place.
    The planned precision resolves eighteen. *)
Lemma roundoff_vs_places (prec digits : Z) :
  (0 <= digits)%Z -> (10 ^ (digits + 5) <= 2 ^ (prec - 1))%Z ->
  (2 <= prec)%Z /\
  2 ^ (1 - prec) * inject_Z (10 ^ digits) <= 1 # 100000.
Proof.
  intros Hd Hprec.
  assert (H10 : (0 < 10 ^ digits)%Z) by (apply Z.pow_pos_nonneg; lia).
  assert (E5 : (10 ^ (digits + 5) = 100000 * 10 ^ digits)%Z).
  { rewrite Z.pow_add_r by lia. change (10 ^ 5)%Z with 100000%Z. lia. }
  rewrite E5 in Hprec.
  assert (Hp : (2 <= prec)%Z).
  { destruct (Z.lt_ge_cases prec 2) as [Hs|]; [|assumption]. exfalso.
    destruct (Z.lt_ge_cases (prec - 1) 0) as [Hn|Hn].
    - rewrite (Z.pow_neg_r 2 (prec - 1)) in Hprec by lia. lia.
    - replace (prec - 1)%Z with 0%Z in Hprec by lia.
      rewrite Z.pow_0_r in Hprec. lia. }
  split; [exact Hp|].
  assert (Eu : 2 ^ (1 - prec) == / inject_Z (2 ^ (prec - 1))).
  { rewrite pow2_inject by lia. rewrite <- Qpower_opp.
    replace (- (prec - 1))%Z with (1 - prec)%Z by lia. reflexivity. }
  rewrite Eu.
  assert (HW : 0 < inject_Z (2 ^ (prec - 1)))
    by (apply inject_Z_pos, Z.pow_pos_nonneg; lia).
  rewrite Zle_Qle, inject_Z_mult in Hprec.
  change (inject_Z 100000) with 100000 in Hprec.
  apply (Qmult_le_r _ _ (inject_Z (2 ^ (prec - 1)))); [exact HW|].
  setoid_replace (/ inject_Z (2 ^ (prec - 1)) * inject_Z (10 ^ digits)
                  * inject_Z (2 ^ (prec - 1)))
    with (inject_Z (10 ^ digits)) by (field; lra).
  revert Hprec. generalize (inject_Z (10 ^ digits)) (inject_Z (2 ^ (prec - 1))).
  intros a b Hprec. lra.
Qed.

Lemma nonneg_mantissa (x : mpf) : 0 <= value x -> (0 <= mant x)%Z.
Proof.
  intros Hv. destruct (Z.lt_ge_cases (mant x) 0) as [Hneg|]; [|assumption].
  exfalso. unfold value in Hv.
  pose proof (pow2_pos (expo x)) as HE.
  assert (Hi : inject_Z (mant x) < 0)
    by (change 0 with (inject_Z 0); rewrite <- Zlt_Qlt; exact Hneg).
  nra.
Qed.

(** C5 (as amended).  For a final result [3 <= pi < 4],
    [digit_count >= 1] (with [digit_count + 100] representable as an
    [int]) and a working precision that resolves five decimal places past
    the printed ones (the planned precision resolves eighteen), the
    renderer writes the header ending in ["3."], then exactly
    [digit_count] decimal digits in blocks of ten with a line break after
    every fifth block, then a line break; its length cap removes nothing.
    The digits are not cut: they are the last [digit_count] digits of an
    integer [r] that the formatter reaches by rounding, within 0.501 of
    [(pi - 3) * 10 ^ digit_count]. *)
Theorem print_pi_renders (prec : Z) (pi : mpf) (digits : Z) :
  (1 <= digits)%Z -> (digits + 100 <= INT_MAX)%Z ->
  (10 ^ (digits + 5) <= 2 ^ (prec - 1))%Z ->
  3 <= value pi -> value pi < 4 ->
  exists r ds,
    print_pi prec pi digits
      = Done (print_header ++ group_digits ds ++ [newline]) /\
    ds = dec_fixed (Z.to_nat digits) (r mod 10 ^ digits) /\
    Z.of_nat (List.length ds) = digits /\
    Forall is_digit ds /\
    (0 <= r <= 10 ^ digits)%Z /\
    Qabs (inject_Z r - (value pi - 3) * inject_Z (10 ^ digits))
      <= 501 # 1000.
Proof.
  intros H1 H2 Hprec Hlo Hhi.
  destruct (roundoff_vs_places prec digits ltac:(lia) Hprec) as (Hp & HuT).
  pose proof (pow2_pos (1 - prec)) as Hu.
  assert (H3p : (0 < 3 < 2 ^ prec)%Z).
  { split; [lia|].
    assert (H4 : (2 ^ 2 <= 2 ^ prec)%Z) by (apply Z.pow_le_mono_r; lia).
    change (2 ^ 2)%Z with 4%Z in H4. lia. }
  set (cp := mpf_set prec pi).
  pose proof (mpf_set_approx prec pi ltac:(lia)) as [_ Cb Ce]. fold cp in Cb, Ce.
  assert (Hcp : 3 <= value cp)
    by (apply (normalize_ge_int prec 3 pi ltac:(lia) H3p); exact Hlo).
  assert (Hcp2 : value cp <= value pi).
  { destruct Cb as [[_ Hb]|[Hb1 Hb2]]; [exact Hb|lra]. }
  rewrite (Qabs_pos (value pi)) in Ce by lra.
  rewrite (Qabs_pos (value pi - value cp)) in Ce by lra.
  set (frac := mpf_sub_ui prec cp 3).
  pose proof (mpf_sub_approx prec cp (mpf_set_ui 3) ltac:(lia)) as A.
  fold (mpf_sub_ui prec cp 3) in A. fold frac in A.
  apply (approx_ext _ _ (value cp - 3)) in A;
    [|unfold value at 2; simpl; ring].
  destruct A as [_ Ab Ae].
  assert (Hb : 0 <= value frac /\ value frac <= value cp - 3).
  { destruct Ab as [Hb|[Hb1 Hb2]]; [exact Hb|]. split; lra. }
  rewrite (Qabs_pos (value cp - 3 - value frac)) in Ae by lra.
  rewrite (Qabs_pos (value cp - 3)) in Ae by lra.
  assert (Hm : (0 <= mant frac)%Z) by (apply nonneg_mantissa, Hb).
  set (r := scaled_round digits frac).
  pose proof (scaled_round_spec digits frac ltac:(lia)) as HR. fold r in HR.
  rewrite (Qabs_pos (value frac)) in HR by apply Hb.
  pose proof (scaled_round_nonneg digits frac ltac:(lia)) as H0. fold r in H0.
  assert (H10 : (1 <= 10 ^ digits)%Z)
    by (pose proof (Z.pow_pos_nonneg 10 digits ltac:(lia) ltac:(lia)); lia).
  assert (HT : 1 <= inject_Z (10 ^ digits)).
  { change 1 with (inject_Z 1). rewrite <- Zle_Qle. exact H10. }
  apply Qabs_diff_Qle_condition in HR.
  assert (Hr : (r <= 10 ^ digits)%Z).
  { apply Z.lt_succ_r. unfold Z.succ.
    rewrite Zlt_Qlt, inject_Z_plus. change (inject_Z 1) with 1.
    revert HR HT Hb Hcp2 Hhi.
    generalize (inject_Z r) (value frac) (value cp) (value pi)
      (inject_Z (10 ^ digits)).
    intros iR vf vc vp T HR HT Hb Hcp2 Hhi. nra. }
  assert (Hip : (0 <= r / 10 ^ digits < 10)%Z).
  { split; [apply Z.div_pos; lia|].
    apply Z.div_lt_upper_bound; lia. }
  exists r, (dec_fixed (Z.to_nat digits) (r mod 10 ^ digits)).
  split; [apply print_pi_digits; assumption|].
  split; [reflexivity|].
  split; [rewrite dec_fixed_length; lia|].
  split; [apply dec_fixed_digits|].
  split; [lia|].
  revert HR HT Hb Hcp Hcp2 Hhi Ce Ae Hu HuT.
  generalize (inject_Z r) (value frac) (value cp) (value pi)
    (inject_Z (10 ^ digits)) (2 ^ (1 - prec)).
  intros iR vf vc vp T u HR HT Hb Hcp Hcp2 Hhi Ce Ae Hu HuT.
  assert (P1 : (vp - 3 - vf) * T <= 5 * u * T).
  { apply Qmult_le_compat_r; [nra|lra]. }
  apply Qabs_diff_Qle_condition. split; nra.
Qed.

Lemma print_pi_renders_witness :
  exists r ds,
    print_pi 64 (MkMpf 7074029114692207 (-51)) 5
      = Done (print_header ++ group_digits ds ++ [newline]) /\
    ds = dec_fixed (Z.to_nat 5) (r mod 10 ^ 5) /\
    Z.of_nat (List.length ds) = 5%Z /\
    Forall is_digit ds /\
    (0 <= r <= 10 ^ 5)%Z /\
    Qabs (inject_Z r
          - (value (MkMpf 7074029114692207 (-51)) - 3) * inject_Z (10 ^ 5))
      <= 501 # 1000.
Proof.
  apply (print_pi_renders 64 (MkMpf 7074029114692207 (-51)) 5);
    [lia|unfold INT_MAX; lia|vm_compute; discriminate
    |vm_compute; discriminate|vm_compute; reflexivity].
Defined.

(** With [digit_count = 50] on one process the final result is
    3.14159...6939937510|58..., and the renderer writes the fiftieth digit
    as 1: the formatter rounds. *)
Lemma print_pi_rounds_up :
  exists pi,
    final_result 50 1 = Done pi /\
    (3 <= value pi /\ value pi < 4) /\
    truncated_digits 50 pi
      = list_ascii_of_string
          "14159265358979323846264338327950288419716939937510" /\
    print_pi (calculate_precision 50) pi 50
      = Done (print_header
              ++ list_ascii_of_string
                   "1415926535 8979323846 2643383279 5028841971 6939937511"
              ++ [newline]) /\
    ~ renders_truncated (calculate_precision 50) pi 50.
Proof.
  eexists. split; [vm_compute; reflexivity|].
  split; [split; vm_compute; [discriminate|reflexivity]|].
  split; [vm_compute; reflexivity|].
  split; [vm_compute; reflexivity|].
  unfold renders_truncated. vm_compute. intros H. discriminate H.
Qed.

(** C1.  With [digit_count = 50]: the run with four processes (the
    coordinator adds its own partial sum and the three it reads back from
    the workers' messages) and the run with one process both finish; the
    two final results differ by less than [10 ^ -50], have the same first
    fifty fractional digits, and are rendered as the same text. *)
Theorem scenario_b_agrees :
  exists a b out,
    final_result 50 4 = Done a /\
    final_result 50 1 = Done b /\
    Qabs (value a - value b) < 1 / inject_Z (10 ^ 50) /\
    truncated_digits 50 a = truncated_digits 50 b /\
    rendered 50 4 = Done out /\
    rendered 50 1 = Done out.
Proof.
  do 3 eexists.
  split; [vm_compute; reflexivity|].
  split; [vm_compute; reflexivity|].
  split; [vm_compute; reflexivity|].
  split; [vm_compute; reflexivity|].
  split; vm_compute; reflexivity.
Qed.

(** ** The block partition of the midpoint rule *)

Module MidpointFacts.
Import Midpoint.

Lemma block_bounds (n size rank : Z) :
  (0 <= n)%Z -> (1 <= size)%Z -> (0 <= rank < size)%Z ->
  (0 <= local_start n size rank <= local_end n size rank)%Z /\
  (local_end n size rank <= n)%Z.
Proof.
  intros Hn Hs Hr. unfold local_start, local_end.
  assert (Hq : (0 <= n / size)%Z) by (apply Z.div_pos; lia).
  pose proof (Z.mul_div_le n size ltac:(lia)) as Hle.
  destruct (Z.eqb_spec rank (size - 1)) as [->|Hne]; nia.
Qed.

Lemma block_cover (n size i : Z) :
  (0 <= n)%Z -> (1 <= size)%Z -> (0 <= i < n)%Z ->
  exists rank,
    (0 <= rank < size)%Z /\
    (local_start n size rank <= i < local_end n size rank)%Z.
Proof.
  intros Hn Hs Hi. unfold local_start, local_end.
  assert (Hq : (0 <= n / size)%Z) by (apply Z.div_pos; lia).
  pose proof (Z.mul_div_le n size ltac:(lia)) as Hle.
  destruct (Z.lt_ge_cases i (n / size * (size - 1))) as [Hin|Hlast].
  - assert (Hqpos : (0 < n / size)%Z) by nia.
    exists (i / (n / size))%Z.
    pose proof (Z.mul_div_le i (n / size) Hqpos) as H1.
    pose proof (Z.mul_succ_div_gt i (n / size) Hqpos) as H2.
    assert (H3 : (0 <= i / (n / size))%Z) by (apply Z.div_pos; lia).
    assert (H4 : (i / (n / size) < size - 1)%Z)
      by (apply Z.div_lt_upper_bound; lia).
    destruct (Z.eqb_spec (i / (n / size)) (size - 1)) as [E|_]; [lia|].
    split; [lia|]. lia.
  - exists (size - 1)%Z. rewrite Z.eqb_refl. split; lia.
Qed.

Lemma block_disjoint (n size i r1 r2 : Z) :
  (0 <= n)%Z -> (1 <= size)%Z ->
  (0 <= r1 < size)%Z -> (0 <= r2 < size)%Z ->
  (local_start n size r1 <= i < local_end n size r1)%Z ->
  (local_start n size r2 <= i < local_end n size r2)%Z ->
  r1 = r2.
Proof.
  intros Hn Hs H1 H2. unfold local_start, local_end.
  assert (Hq : (0 <= n / size)%Z) by (apply Z.div_pos; lia).
  destruct (Z.eqb_spec r1 (size - 1)) as [E1|E1];
    destruct (Z.eqb_spec r2 (size - 1)) as [E2|E2]; intros B1 B2;
    try lia; nia.
Qed.

Lemma prefix_sum_succ (n k : Z) :
  (0 <= k)%Z ->
  prefix_sum n (Z.to_nat (k + 1)) == prefix_sum n (Z.to_nat k) + integrand n k.
Proof.
  intros Hk. replace (Z.to_nat (k + 1)) with (Datatypes.S (Z.to_nat k)) by lia.
  cbn [prefix_sum]. rewrite Z2Nat.id by exact Hk. reflexivity.
Qed.

(** The loop of one rank returns the sum over its block, times [h]. *)
Lemma local_sum_spec (n size rank : Z) :
  (0 <= n)%Z -> (1 <= size)%Z -> (0 <= rank < size)%Z ->
  exists s,
    local_sum n size rank = Done s /\
    s == (prefix_sum n (Z.to_nat (local_end n size rank))
          - prefix_sum n (Z.to_nat (local_start n size rank)))
         * (1 / inject_Z n).
Proof.
  intros Hn Hs Hr.
  destruct (block_bounds n size rank Hn Hs Hr) as (Hb & _).
  unfold local_sum.
  set (lo := local_start n size rank) in *.
  set (hi := local_end n size rank) in *.
  destruct (for_stride_rule 1 hi
              (fun i acc => Done (acc + integrand n i))
              (fun k acc =>
                 (lo <= k <= hi)%Z /\
                 acc == prefix_sum n (Z.to_nat k) - prefix_sum n (Z.to_nat lo))
              ltac:(lia)) with (fuel := stride_fuel lo hi) (k := lo) (acc := 0)
    as (k' & s & Hrun & (Hk & HI) & Hstop).
  - intros k acc Hlt (Hk & HI). eexists. split; [reflexivity|].
    split; [lia|]. rewrite prefix_sum_succ by lia. rewrite HI. ring.
  - unfold stride_fuel. lia.
  - split; [lia|ring].
  - rewrite Hrun. cbn [bind]. eexists. split; [reflexivity|].
    assert (k' = hi) by lia. subst k'. rewrite HI. reflexivity.
Qed.

Lemma reduce_sum_spec (n size : Z) (c : nat) :
  (0 <= n)%Z -> (1 <= size)%Z -> (Z.of_nat c <= size)%Z ->
  exists s,
    reduce_sum n size c = Done s /\
    s == prefix_sum n (Z.to_nat (covered n size c)) * (1 / inject_Z n).
Proof.
  intros Hn Hs. induction c as [|c IH]; intros Hc.
  - exists 0. split; [reflexivity|].
    unfold covered. destruct (Z.eqb_spec (Z.of_nat 0) size) as [E|_];
      [simpl in E; lia|].
    rewrite Z.mul_0_r. simpl. ring.
  - destruct IH as (s & Es & Hs'); [lia|].
    destruct (local_sum_spec n size (Z.of_nat c) Hn Hs ltac:(lia))
      as (x & Ex & Hx).
    cbn [reduce_sum]. rewrite Es. cbn [bind]. rewrite Ex. cbn [bind].
    eexists. split; [reflexivity|].
    rewrite Hs', Hx.
    assert (E1 : covered n size c = local_start n size (Z.of_nat c)).
    { unfold covered, local_start.
      destruct (Z.eqb_spec (Z.of_nat c) size); [lia|reflexivity]. }
    assert (E2 : covered n size (Datatypes.S c) = local_end n size (Z.of_nat c)).
    { unfold covered, local_end.
      destruct (Z.eqb_spec (Z.of_nat (Datatypes.S c)) size);
        destruct (Z.eqb_spec (Z.of_nat c) (size - 1)); try lia;
        try reflexivity; f_equal; lia. }
    rewrite E1, E2. ring.
Qed.

Lemma estimate_spec (n size : Z) :
  (0 <= n)%Z -> (1 <= size)%Z ->
  exists s,
    estimate n size = Done s /\
    s == prefix_sum n (Z.to_nat n) * (1 / inject_Z n).
Proof.
  intros Hn Hs. unfold estimate.
  destruct (reduce_sum_spec n size (Z.to_nat size) Hn Hs ltac:(lia))
    as (s & Es & Hs').
  exists s. split; [exact Es|]. rewrite Hs'. unfold covered.
  rewrite Z2Nat.id by lia. rewrite Z.eqb_refl. reflexivity.
Qed.

End MidpointFacts.

(** C10.  For every group size [size >= 1] and the program's
    [n = 1000000000]: every interval index of [0, n) lies in the block of
    some rank, no index lies in the blocks of two ranks, every block lies
    inside [0, n), and in exact arithmetic the reduced sum of the ranks'
    contributions equals the sum a single process computes, which is the
    midpoint sum over all [n] intervals times [h]. *)
Theorem midpoint_blocks_partition (size : Z) :
  (1 <= size)%Z ->
  let n := Midpoint.n in
  (forall i, (0 <= i < n)%Z <->
     exists rank,
       (0 <= rank < size)%Z /\
       (Midpoint.local_start n size rank <= i
        < Midpoint.local_end n size rank)%Z) /\
  (forall i r1 r2,
     (0 <= r1 < size)%Z -> (0 <= r2 < size)%Z ->
     (Midpoint.local_start n size r1 <= i < Midpoint.local_end n size r1)%Z ->
     (Midpoint.local_start n size r2 <= i < Midpoint.local_end n size r2)%Z ->
     r1 = r2) /\
  exists a b,
    Midpoint.estimate n size = Done a /\
    Midpoint.estimate n 1 = Done b /\
    a == b /\
    b == Midpoint.prefix_sum n (Z.to_nat n) * (1 / inject_Z n).
Proof.
  intros Hs n.
  assert (Hn : (0 <= n)%Z) by (unfold n, Midpoint.n; lia).
  split; [|split].
  - intros i. split.
    + intros Hi. apply MidpointFacts.block_cover; assumption.
    + intros (rank & Hr & Hi).
      destruct (MidpointFacts.block_bounds n size rank Hn Hs Hr) as (H1 & H2).
      lia.
  - intros i r1 r2 H1 H2 B1 B2.
    exact (MidpointFacts.block_disjoint n size i r1 r2 Hn Hs H1 H2 B1 B2).
  - destruct (MidpointFacts.estimate_spec n size Hn Hs) as (a & Ea & Ha).
    destruct (MidpointFacts.estimate_spec n 1 Hn ltac:(lia)) as (b & Eb & Hb).
    exists a, b. split; [exact Ea|]. split; [exact Eb|].
    split; [rewrite Ha, Hb; reflexivity|exact Hb].
Qed.

Lemma midpoint_blocks_partition_witness :
  let n := Midpoint.n in
  (forall i, (0 <= i < n)%Z <->
     exists rank,
       (0 <= rank < 4)%Z /\
       (Midpoint.local_start n 4 rank <= i
        < Midpoint.local_end n 4 rank)%Z) /\
  (forall i r1 r2,
     (0 <= r1 < 4)%Z -> (0 <= r2 < 4)%Z ->
     (Midpoint.local_start n 4 r1 <= i < Midpoint.local_end n 4 r1)%Z ->
     (Midpoint.local_start n 4 r2 <= i < Midpoint.local_end n 4 r2)%Z ->
     r1 = r2) /\
  exists a b,
    Midpoint.estimate n 4 = Done a /\
    Midpoint.estimate n 1 = Done b /\
    a == b /\
    b == Midpoint.prefix_sum n (Z.to_nat n) * (1 / inject_Z n).
Proof. apply (midpoint_blocks_partition 4). lia. Defined.

(** ** Every process returns *)

Local Close Scope Q_scope.

Lemma dec_width_aux_le (f : nat) :
  forall n w, 0 <= n < 10 ^ Z.of_nat w -> (1 <= w)%nat ->
              (dec_width_aux f n <= w)%nat.
Proof.
  induction f as [|f IH]; intros n w Hn Hw; cbn [dec_width_aux]; [lia|].
  destruct (Z.ltb_spec n 10) as [|Hge]; [lia|].
  destruct w as [|[|w]]; [lia|simpl in Hn; lia|].
  apply le_n_S. apply IH; [|lia].
  rewrite Nat2Z.inj_succ, Z.pow_succ_r in Hn by lia.
  split; [apply Z.div_pos; lia|].
  apply Z.div_lt_upper_bound; lia.
Qed.

Lemma dec_width_le (n : Z) (w : nat) :
  0 <= n < 10 ^ Z.of_nat w -> (1 <= w)%nat -> (dec_width n <= w)%nat.
Proof. apply dec_width_aux_le. Qed.

Lemma print_loop_total (dp : list ascii) (len : Z) (out : list ascii) :
  exists out',
    for_stride (Z.to_nat len) 0 1 len (print_step dp len) out = Done out'.
Proof.
  destruct (for_stride_rule 1 len (print_step dp len) (fun _ _ => True)
              ltac:(lia)) with (fuel := Z.to_nat len) (k := 0) (acc := out)
    as (k' & out' & Hrun & _).
  - intros k acc _ _. rewrite print_step_emit. eexists. split; [reflexivity|exact I].
  - lia.
  - exact I.
  - exists out'. exact Hrun.
Qed.

Local Open Scope Q_scope.

(** [print_pi] returns for every value of moderate size: the text of the
    fractional part fits its buffer. *)
Lemma print_pi_total (prec : Z) (pi : mpf) (digits : Z) :
  (1 <= prec)%Z -> (1 <= digits)%Z -> (digits + 100 <= INT_MAX)%Z ->
  Qabs (value pi) <= inject_Z (10 ^ 20) ->
  exists text, print_pi prec pi digits = Done text.
Proof.
  intros Hp H1 H2 Hpi. unfold print_pi.
  set (frac := mpf_sub_ui prec (mpf_set prec pi) 3).
  assert (Hf : Qabs (value frac) <= inject_Z (10 ^ 20) + 3).
  { pose proof (mpf_sub_approx prec (mpf_set prec pi) (mpf_set_ui 3) Hp) as [_ A1 _].
    pose proof (mpf_set_approx prec pi Hp) as [_ A2 _].
    apply between0_abs in A1. apply between0_abs in A2.
    fold (mpf_sub_ui prec (mpf_set prec pi) 3) in A1. fold frac in A1.
    eapply Qle_trans; [exact A1|].
    assert (E3 : value (mpf_set_ui 3) == 3) by (unfold value; simpl; ring).
    rewrite E3.
    eapply Qle_trans; [apply Qabs_triangle|].
    rewrite Qabs_opp. change (Qabs 3) with 3. lra. }
  pose proof (scaled_round_spec digits frac ltac:(lia)) as HR.
  pose proof (scaled_round_nonneg digits frac ltac:(lia)) as H0.
  set (r := scaled_round digits frac) in *.
  assert (H10 : (1 <= 10 ^ digits)%Z)
    by (pose proof (Z.pow_pos_nonneg 10 digits ltac:(lia) ltac:(lia)); lia).
  assert (Hip : (0 <= r / 10 ^ digits < 10 ^ Z.of_nat 21)%Z).
  { split; [apply Z.div_pos; lia|].
    apply Z.div_lt_upper_bound; [lia|].
    rewrite Zlt_Qlt, inject_Z_mult. rewrite Zle_Qle in H10.
    apply Qabs_diff_Qle_condition in HR.
    pose proof (Qabs_nonneg (value frac)) as Hv.
    change (inject_Z 1) with 1 in H10.
    change (inject_Z (10 ^ Z.of_nat 21)) with (1000000000000000000000 # 1).
    change (inject_Z (10 ^ 20)) with (100000000000000000000 # 1) in Hf.
    revert HR H10 Hf Hv.
    generalize (inject_Z r) (Qabs (value frac)) (inject_Z (10 ^ digits)).
    intros iR av T HR H10 Hf Hv. nra. }
  pose proof (dec_width_le _ 21 Hip ltac:(lia)) as Hw.
  pose proof (gmp_sprintf_Ff_length digits frac H1) as Hlen. fold r in Hlen.
  unfold sprintf_into. fold (buffer_size digits).
  rewrite buffer_size_eq by assumption.
  destruct (Z.leb_spec (Z.of_nat (List.length (gmp_sprintf_Ff digits frac)) + 1)
              (digits + 100)) as [_|Hbad].
  - cbn [bind].
    match goal with
    | |- context [for_stride ?f 0 1 ?len (print_step ?dp ?len) ?out] =>
        destruct (print_loop_total dp len out) as (out' & Eo)
    end.
    rewrite Eo. cbn [bind]. eexists. reflexivity.
  - destruct (mant frac <? 0)%Z; lia.
Qed.

Lemma received_value_bound (prec n : Z) (x : mpf) :
  (1 <= prec)%Z -> (1 <= n)%Z -> Qabs (value x) <= 128 # 15 ->
  exists y,
    mpf_set_str prec (gmp_sprintf_Ff n x) = Some y /\
    (Z.abs (mant y) < 2 ^ prec)%Z /\ Qabs (value y) <= 10.
Proof.
  intros Hp Hn Hx. rewrite mpf_set_str_sprintf by exact Hn.
  eexists. split; [reflexivity|].
  set (r := (if (mant x <? 0)%Z then (- scaled_round n x)%Z else scaled_round n x)).
  assert (H10 : (0 < 10 ^ n)%Z) by (apply Z.pow_pos_nonneg; lia).
  pose proof (mpf_round_approx prec r (10 ^ n) 0 Hp H10) as A.
  apply (approx_ext _ _ (printed_value n x)) in A;
    [|unfold printed_value; fold r; simpl (2 ^ 0); ring].
  destruct A as [Am Ab _]. split; [exact Am|].
  apply between0_abs in Ab. eapply Qle_trans; [exact Ab|].
  pose proof (printed_value_close n x ltac:(lia)) as Hc.
  assert (HT : 1 <= inject_Z (10 ^ n)).
  { change 1 with (inject_Z 1). rewrite <- Zle_Qle. lia. }
  assert (Hh : (1 # 2) / inject_Z (10 ^ n) <= 1 # 2).
  { apply Qle_shift_div_r; lra. }
  apply Qabs_Qle_condition in Hx.
  apply Qabs_diff_Qle_condition in Hc.
  apply Qabs_Qle_condition. lra.
Qed.

Lemma main_valid (arg : option Z) (rank size : Z)
    (inbox : Z -> option (list ascii)) :
  valid_request arg ->
  main arg rank size inbox =
    let digits := requested_digits arg in
    let precision := calculate_precision digits in
    let num_terms := calculate_num_terms digits in
    local_sum <- compute_local_sum precision rank size num_terms ;;
    r <- aggregate_results precision local_sum rank size digits inbox ;;
    let (pi, sent) := r in
    let ev_send := match sent with Some m => [EvSent m] | None => [] end in
    if (rank =? 0)%Z then
      text <- print_pi precision pi digits ;;
      Done (0%Z, [EvLocalSum local_sum; EvAggregated pi; EvPrinted text])
    else
      Done (0%Z, EvLocalSum local_sum :: ev_send).
Proof.
  intros [H1 _]. unfold main. destruct arg as [d|]; [|reflexivity].
  cbn [requested_digits] in *.
  destruct (Z.ltb_spec d 1); [lia|reflexivity].
Qed.

(** A worker computes its partial sum, sends the whole text and returns
    0. *)
Lemma main_worker (arg : option Z) (rank size : Z)
    (inbox : Z -> option (list ascii)) :
  valid_request arg -> (0 < rank < size)%Z ->
  exists x,
    Qabs (value x) <= 128 # 15 /\
    main arg rank size inbox
    = Done (0%Z, [EvLocalSum x;
                  EvSent (gmp_sprintf_Ff (requested_digits arg + 20) x ++ [NUL])]).
Proof.
  intros Hv Hr. rewrite main_valid by exact Hv. destruct Hv as [H1 H2].
  set (digits := requested_digits arg) in *. cbv zeta.
  assert (Hd : (0 <= digits <= INT_MAX)%Z) by (unfold INT_MAX in *; lia).
  pose proof (calculate_precision_pos digits Hd) as Hp.
  destruct (compute_local_sum_spec (calculate_precision digits) rank size
              (calculate_num_terms digits))
    as (x & Ex & _ & Hx); try lia.
  { unfold calculate_num_terms, ULONG_MOD, INT_MAX in *. lia. }
  exists x. split; [exact Hx|].
  rewrite Ex. cbn [bind]. unfold aggregate_results.
  destruct (Z.eqb_spec rank 0) as [E|_]; [lia|].
  destruct (serialize_fits digits x H1 H2 Hx) as (_ & Hser).
  rewrite Hser. cbn [bind]. reflexivity.
Qed.

(** The receive loop of the coordinator returns when every worker's
    message is the text of a partial sum. *)
Lemma recv_loop_total (prec digits size : Z)
    (inbox : Z -> option (list ascii)) (local : mpf) :
  (1 <= prec)%Z -> (1 <= digits)%Z -> (digits + 100 <= INT_MAX)%Z ->
  (1 <= size)%Z ->
  Qabs (value local) <= 128 # 15 ->
  (forall src, (1 <= src < size)%Z ->
     exists x, Qabs (value x) <= 128 # 15 /\
               inbox src = Some (gmp_sprintf_Ff (digits + 20) x ++ [NUL])) ->
  exists st,
    for_stride (stride_fuel 1 size) 1 1 size (recv_step prec digits inbox)
      (mpf_set prec local, mpf_zero) = Done st /\
    Qabs (value (fst st)) <= 10 * inject_Z size.
Proof.
  intros Hp H1 H2 Hs Hl Hin.
  destruct (for_stride_rule 1 size (recv_step prec digits inbox)
              (fun k st =>
                 (1 <= k <= size)%Z /\
                 Qabs (value (fst st)) <= 10 * inject_Z k)
              ltac:(lia)) with (fuel := stride_fuel 1 size) (k := 1%Z)
              (acc := (mpf_set prec local, mpf_zero))
    as (k' & st & Hrun & (Hk & HI) & Hstop).
  - intros k [pi rs] Hlt (Hk & HI). cbn [fst] in HI.
    destruct (Hin k ltac:(lia)) as (x & Hx & Ex).
    destruct (serialize_fits digits x H1 H2 Hx) as (Hlen & _).
    destruct (received_value_bound prec (digits + 20) x Hp ltac:(lia) Hx)
      as (y & Ey & _ & Hy).
    unfold recv_step, mpi_recv. rewrite Ex.
    rewrite length_app. cbn [List.length].
    rewrite buffer_size_eq by assumption.
    destruct (Z.leb_spec
                (Z.of_nat (List.length (gmp_sprintf_Ff (digits + 20) x) + 1))
                (digits + 100)) as [_|Hbad];
      [|destruct (mant x <? 0)%Z; lia].
    cbn [bind].
    rewrite c_string_terminated by (apply gmp_sprintf_Ff_no_nul; lia).
    rewrite Ey. eexists. split; [reflexivity|].
    split; [lia|]. cbn [fst].
    pose proof (mpf_add_approx prec pi y Hp) as [_ Ab _].
    apply between0_abs in Ab.
    eapply Qle_trans; [exact Ab|].
    eapply Qle_trans; [apply Qabs_triangle|].
    rewrite inject_Z_plus. change (inject_Z 1) with 1. lra.
  - unfold stride_fuel. lia.
  - split; [lia|]. cbn [fst].
    pose proof (mpf_set_approx prec local Hp) as [_ Ab _].
    apply between0_abs in Ab. change (inject_Z 1) with 1. lra.
  - exists st. split; [exact Hrun|].
    assert (k' = size) by lia. subst k'. exact HI.
Qed.

(** The coordinator returns 0 when every worker's message is the text
    of a partial sum. *)
Lemma main_root (arg : option Z) (size : Z)
    (inbox : Z -> option (list ascii)) :
  valid_request arg -> (1 <= size <= INT_MAX)%Z ->
  (forall src, (1 <= src < size)%Z ->
     exists x, Qabs (value x) <= 128 # 15 /\
               inbox src
               = Some (gmp_sprintf_Ff (requested_digits arg + 20) x ++ [NUL])) ->
  exists evs, main arg 0 size inbox = Done (0%Z, evs).
Proof.
  intros Hv Hs Hin. rewrite main_valid by exact Hv. destruct Hv as [H1 H2].
  set (digits := requested_digits arg) in *. cbv zeta.
  assert (Hd : (0 <= digits <= INT_MAX)%Z) by (unfold INT_MAX in *; lia).
  pose proof (calculate_precision_pos digits Hd) as Hp.
  set (prec := calculate_precision digits) in *.
  destruct (compute_local_sum_spec prec 0 size (calculate_num_terms digits))
    as (x & Ex & _ & Hx); try lia.
  { unfold calculate_num_terms, ULONG_MOD, INT_MAX in *. lia. }
  rewrite Ex. cbn [bind]. unfold aggregate_results.
  rewrite Z.eqb_refl.
  destruct (recv_loop_total prec digits size inbox x) as (st & Est & Hst);
    try assumption; try lia.
  rewrite Est. cbn [bind].
  destruct (print_pi_total prec (fst st) digits) as (text & Et);
    try assumption; try lia.
  { eapply Qle_trans; [exact Hst|].
    change 10 with (inject_Z 10). rewrite <- inject_Z_mult, <- Zle_Qle.
    unfold INT_MAX in *. change (10 ^ 20)%Z with 100000000000000000000%Z. lia. }
  rewrite Et. cbn [bind]. eexists. reflexivity.
Qed.

Local Close Scope Q_scope.

Lemma run_group_worker (arg : option Z) (size : Z) (i : nat) :
  (i < Z.to_nat size - 1)%nat ->
  nth i (map (fun r => main arg (Z.of_nat r) size (fun _ => None))
           (seq 1 (Z.to_nat size - 1))) (Fault NoMessage)
  = main arg (Z.of_nat (Datatypes.S i)) size (fun _ => None).
Proof.
  intros Hi.
  set (f := fun r => main arg (Z.of_nat r) size (fun _ => None)).
  rewrite (nth_indep _ (Fault NoMessage) (f O))
    by (rewrite length_map, length_seq; exact Hi).
  rewrite (map_nth f). rewrite seq_nth by exact Hi. reflexivity.
Qed.

(** With a valid request every process of the group returns 0. *)
Lemma run_group_succeeds (arg : option Z) (size : Z) :
  valid_request arg -> 1 <= size <= INT_MAX ->
  Forall (fun r => exists evs, r = Done (0, evs)) (run_group arg size).
Proof.
  intros Hv Hs. unfold run_group. constructor.
  - apply main_root; [exact Hv|exact Hs|].
    intros src Hsrc.
    destruct (Z.leb_spec 1 src) as [_|]; [|lia].
    destruct (Z.ltb_spec src size) as [_|]; [|lia].
    cbn [andb].
    rewrite run_group_worker by lia.
    replace (Z.of_nat (Datatypes.S (Z.to_nat src - 1))) with src by lia.
    destruct (main_worker arg src size (fun _ => None) Hv ltac:(lia))
      as (x & Hx & Ex).
    exists x. split; [exact Hx|]. rewrite Ex. reflexivity.
  - apply Forall_forall. intros r Hr.
    apply in_map_iff in Hr. destruct Hr as (k & <- & Hk).
    apply in_seq in Hk.
    destruct (main_worker arg (Z.of_nat k) size (fun _ => None) Hv ltac:(lia))
      as (x & _ & Ex).
    eexists. exact Ex.
Qed.

Lemma run_group_rejects (d size : Z) :
  d < 1 ->
  run_group (Some d) size
  = Done (1, [EvUsage]) :: repeat (Done (1, [])) (Z.to_nat size - 1).
Proof.
  intros Hd. unfold run_group.
  assert (Hm : forall rank inbox,
            main (Some d) rank size inbox
            = Done (1, if rank =? 0 then [EvUsage] else [])).
  { intros rank inbox. unfold main.
    destruct (Z.ltb_spec d 1); [reflexivity|lia]. }
  rewrite Hm. cbn [Z.eqb]. f_equal.
  generalize (Z.to_nat size - 1)%nat as m. intros m.
  assert (Hgen : forall s, (1 <= s)%nat ->
    map (fun r => main (Some d) (Z.of_nat r) size (fun _ => None)) (seq s m)
    = repeat (Done (1, [])) m).
  { induction m as [|m IH]; intros s Hs1; [reflexivity|].
    cbn [seq map repeat]. rewrite Hm.
    destruct (Z.eqb_spec (Z.of_nat s) 0) as [E|_]; [lia|].
    f_equal. apply IH. lia. }
  apply Hgen. lia.
Qed.

(** C7.  For a group of [size >= 1] processes.  With a supplied
    [digit_count < 1] every process returns 1; rank 0 does nothing but
    write the usage line and the other ranks do nothing at all (no partial
    sum is computed, nothing is sent), so the line is written once.  With
    a valid request (a supplied [digit_count >= 1] with
    [digit_count + 100] representable as an [int], or none, which means
    100) every process runs to its end and returns 0. *)
Theorem exit_codes (size : Z) :
  1 <= size <= INT_MAX ->
  (forall d, d < 1 ->
     List.length (run_group (Some d) size) = Z.to_nat size /\
     (forall rank inbox,
        main (Some d) rank size inbox
        = Done (1, if rank =? 0 then [EvUsage] else [])) /\
     run_group (Some d) size
       = Done (1, [EvUsage]) :: repeat (Done (1, [])) (Z.to_nat size - 1) /\
     list_sum (map usage_lines (run_group (Some d) size)) = 1%nat) /\
  (forall arg, valid_request arg ->
     List.length (run_group arg size) = Z.to_nat size /\
     Forall (fun r => exists evs, r = Done (0, evs)) (run_group arg size)).
Proof.
  intros Hs.
  assert (Hlen : forall arg, List.length (run_group arg size) = Z.to_nat size).
  { intros arg. unfold run_group. cbn [List.length].
    rewrite length_map, length_seq. lia. }
  split.
  - intros d Hd. split; [apply Hlen|]. split.
    + intros rank inbox. unfold main.
      destruct (Z.ltb_spec d 1); [reflexivity|lia].
    + split; [apply run_group_rejects; exact Hd|].
      rewrite run_group_rejects by exact Hd.
      cbn [map list_sum usage_lines filter List.length].
      generalize (Z.to_nat size - 1)%nat as m.
      induction m as [|m IH]; [reflexivity|].
      cbn [repeat map list_sum usage_lines filter List.length]. exact IH.
  - intros arg Hv. split; [apply Hlen|].
    apply run_group_succeeds; assumption.
Qed.

Lemma exit_codes_witness :
  (forall d, d < 1 ->
     List.length (run_group (Some d) 3) = Z.to_nat 3 /\
     (forall rank inbox,
        main (Some d) rank 3 inbox
        = Done (1, if rank =? 0 then [EvUsage] else [])) /\
     run_group (Some d) 3
       = Done (1, [EvUsage]) :: repeat (Done (1, [])) (Z.to_nat 3 - 1) /\
     list_sum (map usage_lines (run_group (Some d) 3)) = 1%nat) /\
  (forall arg, valid_request arg ->
     List.length (run_group arg 3) = Z.to_nat 3 /\
     Forall (fun r => exists evs, r = Done (0, evs)) (run_group arg 3)).
Proof. apply (exit_codes 3). unfold INT_MAX. lia. Defined.

(** ** Runs on concrete requests *)

Example owned_terms_1_4_10 : owned_terms 1 4 10 = Done [1; 5; 9].
Proof. reflexivity. Qed.

Example plan_for_50_digits :
  calculate_precision 50 = 239 /\ calculate_num_terms 50 = 60.
Proof. split; reflexivity. Qed.

Example divisors_at_wrap : bbp_divisors (2 ^ 61) = [1; 4; 5; 6].
Proof. reflexivity. Qed.

(** Scenario A of the specification: 100 digits on one process start
    with 1415926535. *)
Example scenario_a_first_digits :
  exists out,
    rendered 100 1 = Done out /\
    firstn 10 (skipn (List.length print_header) out)
    = list_ascii_of_string "1415926535".
Proof. eexists. split; vm_compute; reflexivity. Qed.

(** The default request, 100 digits: the last block is written
    3421170680, the hundredth digit of pi (9) rounded up by the digit
    after it (8). *)
Example default_run_last_block :
  exists out,
    rendered 100 1 = Done out /\
    firstn 10 (skipn (List.length out - 11) out)
    = list_ascii_of_string "3421170680".
Proof. eexists. split; vm_compute; reflexivity. Qed.

(** * Further properties of the program *)

(** ** Order and balance of the stride partition *)

Lemma sorted_snoc (l : list Z) (k : Z) :
  StronglySorted Z.lt l -> Forall (fun j => j < k) l ->
  StronglySorted Z.lt (l ++ [k]).
Proof.
  induction 1 as [|a l Hs IH Ha]; intros Hk; cbn [app].
  - constructor; constructor.
  - inversion Hk as [|? ? Hak Hk']; subst.
    constructor; [apply IH; exact Hk'|].
    apply Forall_app. split; [exact Ha|]. constructor; [exact Hak|constructor].
Qed.

(** X1.  For [size >= 1], a rank of the group and [num_terms >= 0] (with
    [num_terms + size - 1] representable as an [int], so that the loop
    counter stays in range), the accumulation loop visits its indices in
    strictly increasing order, and visits
    [(num_terms - rank + size - 1) / size] of them: the ranks' shares of
    the work differ by at most one term, a lower rank never having
    fewer. *)
Theorem owned_terms_ordered_balanced (size num_terms : Z) :
  1 <= size -> 0 <= num_terms -> num_terms + size - 1 <= INT_MAX ->
  (forall rank, 0 <= rank < size ->
     exists l,
       owned_terms rank size num_terms = Done l /\
       StronglySorted Z.lt l /\
       Z.of_nat (List.length l) = owned_count rank size num_terms) /\
  forall r1 r2, 0 <= r1 <= r2 -> r2 < size ->
    owned_count r2 size num_terms <= owned_count r1 size num_terms
      <= owned_count r2 size num_terms + 1.
Proof.
  intros Hs Hn _. split.
  - intros rank Hr. unfold owned_terms.
    destruct (for_stride_rule size num_terms
                (fun k acc => Done (acc ++ [k]))
                (fun k acc =>
                   rank <= k < num_terms + size /\
                   (k - rank) mod size = 0 /\
                   Z.of_nat (List.length acc) = (k - rank) / size /\
                   StronglySorted Z.lt acc /\
                   Forall (fun j => j < k) acc)
                Hs) with (fuel := stride_fuel rank num_terms)
                (k := rank) (acc := @nil Z)
      as (k' & l & Hrun & (Hk & Hmod & Hlen & Hsort & _) & Hstop).
    + intros k acc Hlt (Hk & Hmod & Hlen & Hsort & Hall).
      eexists. split; [reflexivity|].
      replace (k + size - rank) with (k - rank + 1 * size) by lia.
      rewrite Z.mod_add, Z.div_add by lia.
      split; [lia|]. split; [exact Hmod|].
      split; [rewrite length_app; cbn [List.length]; lia|].
      split; [apply sorted_snoc; assumption|].
      apply Forall_app. split.
      * eapply Forall_impl; [|exact Hall]. cbv beta. intros; lia.
      * constructor; [lia|constructor].
    + unfold stride_fuel. lia.
    + rewrite Z.sub_diag. cbn [List.length Z.of_nat].
      rewrite Z.mod_0_l, Z.div_0_l by lia.
      repeat split; try lia; constructor.
    + exists l. split; [exact Hrun|]. split; [exact Hsort|].
      rewrite Hlen. unfold owned_count.
      pose proof (Z.div_mod (k' - rank) size ltac:(lia)) as E.
      rewrite Hmod in E.
      apply (Z.div_unique _ _ _ (num_terms - rank + size - 1 - (k' - rank)));
        lia.
  - intros r1 r2 H1 H2. unfold owned_count.
    pose proof (Z.div_le_mono (num_terms - r2 + size - 1)
                  (num_terms - r1 + size - 1) size ltac:(lia) ltac:(lia)) as Hle.
    split; [exact Hle|].
    rewrite <- (Z.div_add (num_terms - r2 + size - 1) 1 size) by lia.
    apply Z.div_le_mono; lia.
Qed.

Lemma owned_terms_ordered_balanced_witness :
  (forall rank, 0 <= rank < 4 ->
     exists l,
       owned_terms rank 4 10 = Done l /\
       StronglySorted Z.lt l /\
       Z.of_nat (List.length l) = owned_count rank 4 10) /\
  forall r1 r2, 0 <= r1 <= r2 -> r2 < 4 ->
    owned_count r2 4 10 <= owned_count r1 4 10 <= owned_count r2 4 10 + 1.
Proof. apply (owned_terms_ordered_balanced 4 10); unfold INT_MAX; lia. Defined.

(** ** Who sends, who receives, who prints *)

Lemma for_stride_ext {S : Type} (step stop : Z) (body body' : Z -> S -> exec S)
    (start : Z) :
  1 <= step ->
  (forall k acc, start <= k < stop -> body k acc = body' k acc) ->
  forall fuel k acc, start <= k ->
    for_stride fuel k step stop body acc
    = for_stride fuel k step stop body' acc.
Proof.
  intros Hstep Hext. induction fuel as [|fuel IH]; intros k acc Hk;
    [reflexivity|].
  cbn [for_stride]. destruct (Z.ltb_spec k stop) as [Hlt|]; [|reflexivity].
  rewrite (Hext k acc) by lia.
  destruct (body' k acc) as [acc'|f]; [|reflexivity].
  cbn [bind]. apply IH. lia.
Qed.

(** X2.  A process of rank other than 0 never receives: its run does not
    depend on the inbox.  If it returns, it either rejected the request
    (code 1, nothing done) or computed its partial sum and sent exactly
    one message, the serialized sum; it never aggregates and never
    prints. *)
Theorem worker_sends_once (arg : option Z) (rank size : Z)
    (inbox : Z -> option (list ascii)) :
  rank <> 0 ->
  main arg rank size inbox = main arg rank size (fun _ => None) /\
  forall code evs,
    main arg rank size inbox = Done (code, evs) ->
    (code = 1 /\ evs = [] /\ requested_digits arg < 1) \/
    (code = 0 /\
     exists x msg,
       evs = [EvLocalSum x; EvSent msg] /\
       compute_local_sum (calculate_precision (requested_digits arg)) rank size
         (calculate_num_terms (requested_digits arg)) = Done x /\
       serialize (requested_digits arg) x = Done msg).
Proof.
  intros Hr.
  assert (Hz : (rank =? 0) = false)
    by (destruct (Z.eqb_spec rank 0); [contradiction|reflexivity]).
  assert (Hrej : forall d, d < 1 ->
            forall ib, main (Some d) rank size ib = Done (1, [])).
  { intros d Hd ib. unfold main.
    destruct (Z.ltb_spec d 1); [|lia]. rewrite Hz. reflexivity. }
  assert (Hrun : forall ib,
            (match arg with Some d => d <? 1 | None => false end) = false ->
            main arg rank size ib =
              (local_sum <- compute_local_sum
                              (calculate_precision (requested_digits arg)) rank size
                              (calculate_num_terms (requested_digits arg)) ;;
               msg <- serialize (requested_digits arg) local_sum ;;
               Done (0, [EvLocalSum local_sum; EvSent msg]))).
  { intros ib Hv. unfold main. rewrite Hv.
    fold (requested_digits arg).
    destruct (compute_local_sum _ rank size _) as [x|f]; [|reflexivity].
    cbn [bind]. unfold aggregate_results. rewrite Hz.
    destruct (serialize (requested_digits arg) x) as [msg|f]; reflexivity. }
  destruct (match arg with Some d => d <? 1 | None => false end) eqn:Hv.
  - destruct arg as [d|]; [|discriminate].
    apply Z.ltb_lt in Hv. split.
    + rewrite !Hrej by exact Hv. reflexivity.
    + intros code evs E. rewrite Hrej in E by exact Hv.
      injection E as <- <-. left. cbn [requested_digits]. auto.
  - split.
    + rewrite !Hrun by reflexivity. reflexivity.
    + intros code evs E. rewrite Hrun in E by reflexivity. right.
      destruct (compute_local_sum _ rank size _) as [x|f]; [|discriminate].
      cbn [bind] in E.
      destruct (serialize (requested_digits arg) x) as [msg|f] eqn:Es;
        [|discriminate].
      cbn [bind] in E. injection E as <- <-.
      split; [reflexivity|]. exists x, msg. auto.
Qed.

Lemma worker_sends_once_witness :
  main (Some 5) 2 3 (fun _ => Some [NUL]) = main (Some 5) 2 3 (fun _ => None) /\
  forall code evs,
    main (Some 5) 2 3 (fun _ => Some [NUL]) = Done (code, evs) ->
    (code = 1 /\ evs = [] /\ requested_digits (Some 5) < 1) \/
    (code = 0 /\
     exists x msg,
       evs = [EvLocalSum x; EvSent msg] /\
       compute_local_sum (calculate_precision (requested_digits (Some 5))) 2 3
         (calculate_num_terms (requested_digits (Some 5))) = Done x /\
       serialize (requested_digits (Some 5)) x = Done msg).
Proof. apply (worker_sends_once (Some 5) 2 3). lia. Defined.

(** X3.  The coordinator consults exactly the messages of the ranks
    [1 .. size-1], and sends none: two inboxes that agree on those ranks
    give the same run, and a run that returns either rejected the request
    (code 1, only the usage line) or computed its partial sum, aggregated
    and printed once, in that order. *)
Theorem coordinator_reads_workers_only (arg : option Z) (size : Z)
    (inbox inbox' : Z -> option (list ascii)) :
  (forall src, 1 <= src < size -> inbox src = inbox' src) ->
  main arg 0 size inbox = main arg 0 size inbox' /\
  forall code evs,
    main arg 0 size inbox = Done (code, evs) ->
    (code = 1 /\ evs = [EvUsage] /\ requested_digits arg < 1) \/
    (code = 0 /\
     exists x pi text,
       evs = [EvLocalSum x; EvAggregated pi; EvPrinted text] /\
       compute_local_sum (calculate_precision (requested_digits arg)) 0 size
         (calculate_num_terms (requested_digits arg)) = Done x /\
       print_pi (calculate_precision (requested_digits arg)) pi
         (requested_digits arg) = Done text).
Proof.
  intros Hagree.
  assert (Hloop : forall prec digits st,
            for_stride (stride_fuel 1 size) 1 1 size
              (recv_step prec digits inbox) st
            = for_stride (stride_fuel 1 size) 1 1 size
                (recv_step prec digits inbox') st).
  { intros prec digits st. apply (for_stride_ext 1 size _ _ 1); [lia| |lia].
    intros k [pi rs] Hk. unfold recv_step, mpi_recv.
    rewrite (Hagree k Hk). reflexivity. }
  split.
  - unfold main.
    destruct (match arg with Some d => d <? 1 | None => false end);
      [reflexivity|].
    destruct (compute_local_sum _ 0 size _) as [x|f]; [|reflexivity].
    cbn [bind]. unfold aggregate_results. cbn [Z.eqb].
    rewrite Hloop. reflexivity.
  - intros code evs E. unfold main in E.
    destruct (match arg with Some d => d <? 1 | None => false end) eqn:Hv.
    + destruct arg as [d|]; [|discriminate]. apply Z.ltb_lt in Hv.
      cbn [Z.eqb] in E. injection E as <- <-. left.
      cbn [requested_digits]. auto.
    + right. fold (requested_digits arg) in E.
      destruct (compute_local_sum _ 0 size _) as [x|f]; [|discriminate].
      cbn [bind] in E.
      destruct (aggregate_results _ x 0 size _ inbox) as [[pi sent]|f] eqn:Ea;
        [|discriminate].
      cbn [bind Z.eqb] in E.
      destruct (print_pi _ pi _) as [text|f] eqn:Ep; [|discriminate].
      cbn [bind] in E. injection E as <- <-.
      split; [reflexivity|]. exists x, pi, text. auto.
Qed.

Lemma coordinator_reads_workers_only_witness :
  let inbox := fun src : Z =>
    match src with
    | 0 => Some [NUL]
    | 1 => Some (list_ascii_of_string "0.25" ++ [NUL])
    | 2 => Some (list_ascii_of_string "0.5" ++ [NUL])
    | _ => None
    end in
  let inbox' := fun src : Z =>
    match src with
    | 1 => Some (list_ascii_of_string "0.25" ++ [NUL])
    | 2 => Some (list_ascii_of_string "0.5" ++ [NUL])
    | 3 => Some (list_ascii_of_string "9.75" ++ [NUL])
    | _ => None
    end in
  main (Some 5) 0 3 inbox = main (Some 5) 0 3 inbox' /\
  forall code evs,
    main (Some 5) 0 3 inbox = Done (code, evs) ->
    (code = 1 /\ evs = [EvUsage] /\ requested_digits (Some 5) < 1) \/
    (code = 0 /\
     exists x pi text,
       evs = [EvLocalSum x; EvAggregated pi; EvPrinted text] /\
       compute_local_sum (calculate_precision (requested_digits (Some 5))) 0 3
         (calculate_num_terms (requested_digits (Some 5))) = Done x /\
       print_pi (calculate_precision (requested_digits (Some 5))) pi
         (requested_digits (Some 5)) = Done text).
Proof.
  intros inbox inbox'.
  apply (coordinator_reads_workers_only (Some 5) 3 inbox inbox').
  intros src Hsrc.
  assert (Hcase : src = 1 \/ src = 2) by lia.
  destruct Hcase as [->| ->]; reflexivity.
Defined.

(** X4.  With a group of one process and a valid request nothing is
    exchanged: whatever the inbox holds, the run returns 0 and the value
    it aggregates and prints is its own partial sum, bit for bit. *)
Theorem single_process_run (arg : option Z)
    (inbox : Z -> option (list ascii)) :
  valid_request arg ->
  let digits := requested_digits arg in
  let prec := calculate_precision digits in
  exists x text,
    compute_local_sum prec 0 1 (calculate_num_terms digits) = Done x /\
    print_pi prec x digits = Done text /\
    main arg 0 1 inbox
    = Done (0, [EvLocalSum x; EvAggregated x; EvPrinted text]).
Proof.
  intros Hv digits prec. rewrite main_valid by exact Hv.
  destruct Hv as [H1 H2]. fold digits in H1, H2.
  cbv zeta. fold digits. fold prec.
  assert (Hd : 0 <= digits <= INT_MAX) by (unfold INT_MAX in *; lia).
  pose proof (calculate_precision_pos digits Hd) as Hp. fold prec in Hp.
  destruct (compute_local_sum_spec prec 0 1 (calculate_num_terms digits))
    as (x & Ex & Hm & Hx); try lia.
  { unfold calculate_num_terms, ULONG_MOD, INT_MAX in *. lia. }
  destruct (print_pi_total prec x digits) as (text & Et); try lia.
  { eapply Qle_trans; [exact Hx|]. vm_compute. discriminate. }
  exists x, text. split; [exact Ex|]. split; [exact Et|].
  rewrite Ex. cbn [bind]. unfold aggregate_results. cbn [Z.eqb].
  rewrite for_stride_skip by lia.
  unfold mpf_set. rewrite normalize_small by exact Hm.
  cbn [bind fst]. rewrite Et. reflexivity.
Qed.

Lemma single_process_run_witness :
  let digits := requested_digits (Some 5) in
  let prec := calculate_precision digits in
  exists x text,
    compute_local_sum prec 0 1 (calculate_num_terms digits) = Done x /\
    print_pi prec x digits = Done text /\
    main (Some 5) 0 1 (fun _ => None)
    = Done (0, [EvLocalSum x; EvAggregated x; EvPrinted text]).
Proof.
  apply (single_process_run (Some 5) (fun _ => None)).
  split; cbn [requested_digits]; unfold INT_MAX; lia.
Defined.

(** ** The series and the plan *)

Local Open Scope Q_scope.

Lemma inv_lt_inject (a b : Z) :
  (0 < a < b)%Z -> / inject_Z b < / inject_Z a.
Proof.
  intros H.
  assert (Ha : 0 < inject_Z a) by (apply inject_Z_pos; lia).
  assert (Hb : 0 < inject_Z b) by (apply inject_Z_pos; lia).
  apply (Qinv_lt_contravar _ _ Ha Hb).
  rewrite <- Zlt_Qlt. lia.
Qed.

Lemma bracket_at_bounds (a : Z) :
  (0 <= a)%Z ->
  0 < bracket_at a /\ bracket_at a <= 4 * / inject_Z (a + 1).
Proof.
  intros Ha. unfold bracket_at, Qdiv.
  pose proof (inv_lt_inject (a + 1) (a + 4) ltac:(lia)) as H4.
  pose proof (inv_lt_inject (a + 1) (a + 5) ltac:(lia)) as H5.
  pose proof (inv_lt_inject (a + 1) (a + 6) ltac:(lia)) as H6.
  assert (P4 : 0 < / inject_Z (a + 4))
    by (apply Qinv_lt_0_compat, inject_Z_pos; lia).
  assert (P5 : 0 < / inject_Z (a + 5))
    by (apply Qinv_lt_0_compat, inject_Z_pos; lia).
  assert (P6 : 0 < / inject_Z (a + 6))
    by (apply Qinv_lt_0_compat, inject_Z_pos; lia).
  revert H4 H5 H6 P4 P5 P6.
  generalize (/ inject_Z (a + 1)) (/ inject_Z (a + 4))
    (/ inject_Z (a + 5)) (/ inject_Z (a + 6)).
  intros i1 i4 i5 i6 H4 H5 H6 P4 P5 P6. split; lra.
Qed.

(** Every term of the series is positive and at most [(47/15) / 16^k],
    the value of the first one scaled down. *)
Lemma bbp_term_bounds (k : Z) :
  (0 <= k)%Z ->
  0 < bbp_term k /\ bbp_term k <= (47 # 15) / 16 ^ k.
Proof.
  intros Hk. unfold bbp_term.
  destruct (bracket_at_bounds (8 * k) ltac:(lia)) as (Hpos & Hup).
  assert (HP : 0 < 16 ^ k) by (apply Qpower_0_lt; reflexivity).
  assert (HiP : 0 < / 16 ^ k) by (apply Qinv_lt_0_compat, HP).
  assert (Hb : bracket_at (8 * k) <= 47 # 15).
  { destruct (Z.eq_dec k 0) as [->|Hne]; [vm_compute; discriminate|].
    eapply Qle_trans; [exact Hup|].
    assert (H9 : / inject_Z (8 * k + 1) <= 1 # 9).
    { assert (H9' : 9 <= inject_Z (8 * k + 1))
        by (change 9 with (inject_Z 9); rewrite <- Zle_Qle; lia).
      apply Qle_shift_inv_r; [lra|].
      revert H9'. generalize (inject_Z (8 * k + 1)). intros c H9'. lra. }
    revert H9. generalize (/ inject_Z (8 * k + 1)). intros c H9. lra. }
  unfold Qdiv. rewrite Qmult_1_l.
  revert Hpos Hb HiP. generalize (bracket_at (8 * k)) (/ 16 ^ k).
  intros b iP Hpos Hb HiP. split; nra.
Qed.

Lemma pow16_succ (k : Z) : (0 <= k)%Z -> 16 ^ (k + 1) == 16 ^ k * 16.
Proof. intros Hk. rewrite Qpower_plus by discriminate. reflexivity. Qed.

Lemma series_succ (f : Z -> Q) (k : Z) :
  (0 <= k)%Z -> series f (Z.to_nat (k + 1)) == series f (Z.to_nat k) + f k.
Proof.
  intros Hk. replace (Z.to_nat (k + 1)) with (Datatypes.S (Z.to_nat k)) by lia.
  cbn [series]. rewrite Z2Nat.id by exact Hk. reflexivity.
Qed.

(** Partial sums grow, and stay below the partial sum plus
    [(752/225) / 16^n]. *)
Lemma bbp_partial_sum_tail (n : Z) (m : nat) :
  (0 <= n)%Z ->
  bbp_partial_sum n <= bbp_partial_sum (n + Z.of_nat m) /\
  bbp_partial_sum (n + Z.of_nat m) + (752 # 225) / 16 ^ (n + Z.of_nat m)
    <= bbp_partial_sum n + (752 # 225) / 16 ^ n.
Proof.
  intros Hn. induction m as [|m IH].
  - rewrite Z.add_0_r. split; apply Qle_refl.
  - replace (n + Z.of_nat (Datatypes.S m))%Z with (n + Z.of_nat m + 1)%Z by lia.
    unfold bbp_partial_sum in *.
    rewrite series_succ by lia.
    destruct (bbp_term_bounds (n + Z.of_nat m) ltac:(lia)) as (Hpos & Hup).
    rewrite pow16_succ by lia.
    assert (HP : 0 < 16 ^ (n + Z.of_nat m)) by (apply Qpower_0_lt; reflexivity).
    assert (E : (752 # 225) / (16 ^ (n + Z.of_nat m) * 16)
                == (47 # 225) / 16 ^ (n + Z.of_nat m)) by (field; lra).
    rewrite E. unfold Qdiv in *.
    destruct IH as [IH1 IH2].
    revert IH1 IH2 Hpos Hup.
    generalize (series bbp_term (Z.to_nat (n + Z.of_nat m)))
      (series bbp_term (Z.to_nat n)) (bbp_term (n + Z.of_nat m))
      (/ 16 ^ (n + Z.of_nat m)) (/ 16 ^ n).
    intros sm sn t a b IH1 IH2 Hpos Hup. split; lra.
Qed.

Local Close Scope Q_scope.

Lemma pow16_vs_pow10 (d : Z) :
  0 <= d -> 752 * 10 ^ (d + 11) < 225 * 16 ^ (d + 10).
Proof.
  intros Hd. rewrite !Z.pow_add_r by lia.
  assert (H1 : 10 ^ d <= 16 ^ d) by (apply Z.pow_le_mono_l; lia).
  assert (H0 : 0 < 10 ^ d) by (apply Z.pow_pos_nonneg; lia).
  change (10 ^ 11) with 100000000000. change (16 ^ 10) with 1099511627776.
  nia.
Qed.

Local Open Scope Q_scope.

(** The terms past the planned number add up to less than
    [10 ^ - (digits + 11)]. *)
Lemma planned_tail (digits more : Z) :
  (0 <= digits)%Z -> (0 <= more)%Z ->
  let n := calculate_num_terms digits in
  bbp_partial_sum n <= bbp_partial_sum (n + more) /\
  bbp_partial_sum (n + more) < bbp_partial_sum n + 1 / inject_Z (10 ^ (digits + 11)).
Proof.
  intros Hd Hm n.
  assert (Hn : (0 <= n)%Z) by (unfold n, calculate_num_terms; lia).
  destruct (bbp_partial_sum_tail n (Z.to_nat more) Hn) as (H1 & H2).
  rewrite Z2Nat.id in H1, H2 by exact Hm.
  split; [exact H1|].
  assert (HP : 0 < 16 ^ (n + more)) by (apply Qpower_0_lt; reflexivity).
  assert (Htail : 0 < (752 # 225) / 16 ^ (n + more)).
  { apply Qlt_shift_div_l; [exact HP|]. reflexivity. }
  assert (Hsmall : (752 # 225) / 16 ^ n < 1 / inject_Z (10 ^ (digits + 11))).
  { pose proof (pow16_vs_pow10 digits Hd) as Hz.
    assert (H10 : 0 < inject_Z (10 ^ (digits + 11)))
      by (apply inject_Z_pos, Z.pow_pos_nonneg; lia).
    assert (H16 : 0 < 16 ^ n) by (apply Qpower_0_lt; reflexivity).
    assert (E16 : 16 ^ n == inject_Z (16 ^ (digits + 10))).
    { unfold n, calculate_num_terms. symmetry.
      apply (Zpower_Qpower 16 (digits + 10)). lia. }
    rewrite E16 in *.
    rewrite Zlt_Qlt in Hz. rewrite !inject_Z_mult in Hz.
    change (inject_Z 752) with 752 in Hz. change (inject_Z 225) with 225 in Hz.
    apply Qlt_shift_div_r; [exact H16|].
    unfold Qdiv. rewrite Qmult_1_l.
    apply (Qmult_lt_r _ _ (inject_Z (10 ^ (digits + 11)))); [exact H10|].
    setoid_replace (/ inject_Z (10 ^ (digits + 11)) * inject_Z (16 ^ (digits + 10))
                    * inject_Z (10 ^ (digits + 11)))
      with (inject_Z (16 ^ (digits + 10))) by (field; lra).
    revert Hz. generalize (inject_Z (10 ^ (digits + 11)))
      (inject_Z (16 ^ (digits + 10))). intros a b Hz. lra. }
  lra.
Qed.

(** X5.  The planned number of terms, [digits + 10], leaves out little:
    every partial sum of the series with more terms is at least the one
    with the planned number, and exceeds it by less than
    [10 ^ - (digits + 11)]. *)
Theorem planned_terms_suffice (digits more : Z) :
  (0 <= digits)%Z -> (0 <= more)%Z ->
  let n := calculate_num_terms digits in
  bbp_partial_sum n <= bbp_partial_sum (n + more) /\
  bbp_partial_sum (n + more) < bbp_partial_sum n + 1 / inject_Z (10 ^ (digits + 11)).
Proof.
  intros Hd Hm. exact (planned_tail digits more Hd Hm).
Qed.

Lemma planned_terms_suffice_witness :
  let n := calculate_num_terms 50 in
  bbp_partial_sum n <= bbp_partial_sum (n + 7) /\
  bbp_partial_sum (n + 7) < bbp_partial_sum n + 1 / inject_Z (10 ^ (50 + 11)).
Proof. apply (planned_terms_suffice 50 7); lia. Defined.

(** X6.  For every [int] digit count [0 <= digits] the planned precision
    is [3.5 * digits + 64] with the fraction dropped, at least 64 bits,
    and its unit roundoff [2 ^ (1 - prec)] is at most
    [(1/2) * 10 ^ - (digits + 18)]: eighteen decimal places of guard. *)
Theorem planned_precision_guard (digits : Z) :
  (0 <= digits <= INT_MAX)%Z ->
  calculate_precision digits = ((7 * digits + 128) / 2)%Z /\
  (2 * calculate_precision digits <= 7 * digits + 128
   < 2 * calculate_precision digits + 2)%Z /\
  (64 <= calculate_precision digits)%Z /\
  2 ^ (1 - calculate_precision digits)
    <= (1 # 2) / inject_Z (10 ^ (digits + 18)).
Proof.
  intros Hd.
  pose proof (calculate_precision_eq digits Hd) as E.
  pose proof (calculate_precision_pos digits Hd) as Hp.
  pose proof (calculate_precision_margin digits Hd) as Hm.
  split; [exact E|]. split.
  { rewrite E.
    pose proof (Z.div_mod (7 * digits + 128) 2 ltac:(lia)).
    pose proof (Z.mod_pos_bound (7 * digits + 128) 2 ltac:(lia)). lia. }
  split; [exact Hp|].
  set (p := calculate_precision digits) in *.
  assert (H10 : 0 < inject_Z (10 ^ (digits + 18)))
    by (apply inject_Z_pos, Z.pow_pos_nonneg; lia).
  assert (Eu : 2 ^ (1 - p) == / inject_Z (2 ^ (p - 1))).
  { rewrite pow2_inject by lia. rewrite <- Qpower_opp.
    replace (- (p - 1))%Z with (1 - p)%Z by lia. reflexivity. }
  rewrite Eu.
  assert (HW : 0 < inject_Z (2 ^ (p - 1)))
    by (apply inject_Z_pos, Z.pow_pos_nonneg; lia).
  rewrite Zle_Qle, inject_Z_mult in Hm. change (inject_Z 2) with 2 in Hm.
  apply Qle_shift_inv_r; [exact HW|].
  apply (Qmult_le_r _ _ (inject_Z (10 ^ (digits + 18)))); [exact H10|].
  setoid_replace ((1 # 2) / inject_Z (10 ^ (digits + 18)) * inject_Z (2 ^ (p - 1))
                  * inject_Z (10 ^ (digits + 18)))
    with ((1 # 2) * inject_Z (2 ^ (p - 1))) by (field; lra).
  revert Hm. generalize (inject_Z (10 ^ (digits + 18))) (inject_Z (2 ^ (p - 1))).
  intros a b Hm. lra.
Qed.

Lemma planned_precision_guard_witness :
  calculate_precision 50 = ((7 * 50 + 128) / 2)%Z /\
  (2 * calculate_precision 50 <= 7 * 50 + 128
   < 2 * calculate_precision 50 + 2)%Z /\
  (64 <= calculate_precision 50)%Z /\
  2 ^ (1 - calculate_precision 50) <= (1 # 2) / inject_Z (10 ^ (50 + 18)).
Proof. apply (planned_precision_guard 50). unfold INT_MAX. lia. Defined.

(** X7.  The term evaluator returns for every [unsigned long] index and
    every precision of at least one bit: neither the four divisions nor
    the final division by the power of sixteen can raise division by
    zero.  The value it returns is at most [8 / 16^k] in magnitude. *)
Theorem compute_bbp_term_returns (prec k : Z) :
  (1 <= prec)%Z -> (0 <= k < ULONG_MOD)%Z ->
  exists t,
    compute_bbp_term prec k = Done t /\
    Qabs (value t) <= 8 / 16 ^ k /\
    mant (mpf_pow_ui prec (mpf_set_ui 16) k) <> 0%Z /\
    value (mpf_pow_ui prec (mpf_set_ui 16) k) == 16 ^ k.
Proof.
  intros Hp Hk.
  destruct (compute_bbp_term_spec prec k Hp ltac:(lia)) as (t & Et & _ & _ & Hb).
  pose proof (mpf_pow_ui_16 prec k Hp ltac:(lia)) as P16.
  exists t. split; [exact Et|]. split; [exact Hb|].
  split; [exact (is_pow2_mant _ _ P16)|].
  rewrite pow16_pow2. apply is_pow2_value. exact P16.
Qed.

Lemma compute_bbp_term_returns_witness :
  exists t,
    compute_bbp_term 64 40 = Done t /\
    Qabs (value t) <= 8 / 16 ^ 40 /\
    mant (mpf_pow_ui 64 (mpf_set_ui 16) 40) <> 0%Z /\
    value (mpf_pow_ui 64 (mpf_set_ui 16) 40) == 16 ^ 40.
Proof.
  apply (compute_bbp_term_returns 64 40); [lia|unfold ULONG_MOD; lia].
Defined.

(** ** Shares of the series *)

Local Close Scope Q_scope.

Lemma mod_same_apart (a b s : Z) :
  1 <= s -> a mod s = b mod s -> a < b < a + s -> False.
Proof.
  intros Hs Hm Hab.
  pose proof (Z.div_mod a s ltac:(lia)) as Ea.
  pose proof (Z.div_mod b s ltac:(lia)) as Eb.
  rewrite Hm in Ea.
  assert (Hd : b - a = s * (b / s - a / s)) by lia.
  assert (H1 : 0 < b / s - a / s) by nia.
  nia.
Qed.

Lemma div_succ_step (m s : Z) :
  0 <= m -> 1 <= s ->
  (m + 1) / s = m / s + (if (m + 1) mod s =? 0 then 1 else 0).
Proof.
  intros Hm Hs.
  pose proof (Z.div_mod m s ltac:(lia)) as E.
  pose proof (Z.mod_pos_bound m s ltac:(lia)) as Hr.
  pose proof (Z.div_mod (m + 1) s ltac:(lia)) as E1.
  pose proof (Z.mod_pos_bound (m + 1) s ltac:(lia)) as Hr1.
  destruct (Z.eqb_spec ((m + 1) mod s) 0) as [H0|H0].
  - symmetry. apply (Z.div_unique _ _ _ 0); [lia|].
    rewrite H0 in E1.
    assert (Hq : (m + 1) / s = m / s + 1); [|lia].
    assert (s * ((m + 1) / s - m / s) = m mod s + 1) by lia.
    assert (0 < (m + 1) / s - m / s) by nia.
    assert ((m + 1) / s - m / s < 2) by nia.
    lia.
  - symmetry. apply (Z.div_unique _ _ _ (m mod s + 1)); [|lia].
    assert (m mod s + 1 <> s); [|lia].
    intros Hc.
    assert (Hz : (m + 1) mod s = 0); [|contradiction].
    replace (m + 1) with (0 + (m / s + 1) * s) by lia.
    rewrite Z.mod_add by lia. apply Z.mod_0_l. lia.
Qed.

Local Open Scope Q_scope.

Lemma share_succ (f : Z -> Q) (rank size k : Z) :
  (0 <= k)%Z ->
  share f rank size (Z.to_nat (k + 1))
  == share f rank size (Z.to_nat k)
     + (if (k mod size =? rank)%Z then f k else 0).
Proof.
  intros Hk. replace (Z.to_nat (k + 1)) with (Datatypes.S (Z.to_nat k)) by lia.
  cbn [share]. rewrite Z2Nat.id by exact Hk. reflexivity.
Qed.

Lemma share_skip (f : Z -> Q) (rank size : Z) (m : nat) :
  forall a, (0 <= a)%Z ->
    (forall j, (a <= j < a + Z.of_nat m)%Z -> (j mod size)%Z <> rank) ->
    share f rank size (Z.to_nat (a + Z.of_nat m))
    == share f rank size (Z.to_nat a).
Proof.
  induction m as [|m IH]; intros a Ha Hno.
  - rewrite Z.add_0_r. reflexivity.
  - replace (a + Z.of_nat (Datatypes.S m))%Z with (a + Z.of_nat m + 1)%Z by lia.
    rewrite share_succ by lia.
    destruct (Z.eqb_spec ((a + Z.of_nat m) mod size) rank) as [E|_].
    + exfalso. apply (Hno (a + Z.of_nat m)%Z); [lia|exact E].
    + rewrite Qplus_0_r. apply IH; [exact Ha|].
      intros j Hj. apply Hno. lia.
Qed.

(** One turn of the stride loop adds one term to the rank's share. *)
Lemma share_stride (f : Z -> Q) (rank size k : Z) :
  (1 <= size)%Z -> (0 <= k)%Z -> (k mod size)%Z = rank ->
  share f rank size (Z.to_nat (k + size))
  == share f rank size (Z.to_nat k) + f k.
Proof.
  intros Hs Hk Hm.
  replace (k + size)%Z with (k + 1 + Z.of_nat (Z.to_nat (size - 1)))%Z by lia.
  rewrite share_skip.
  - rewrite share_succ by exact Hk.
    destruct (Z.eqb_spec (k mod size) rank); [reflexivity|contradiction].
  - lia.
  - intros j Hj Hc.
    apply (mod_same_apart k j size Hs); [congruence|lia].
Qed.

Lemma share_before_rank (f : Z -> Q) (rank size : Z) :
  (0 <= rank < size)%Z -> share f rank size (Z.to_nat rank) == 0.
Proof.
  intros Hr.
  replace rank with (0 + Z.of_nat (Z.to_nat rank))%Z at 2 by lia.
  rewrite share_skip; [reflexivity|lia|].
  intros j Hj. rewrite Z.mod_small by lia. lia.
Qed.

(** Past the bound the loop stops at the next index of the rank; no
    index of the rank lies in between. *)
Lemma share_at_exit (f : Z -> Q) (rank size n k : Z) :
  (1 <= size)%Z -> (0 <= n <= k)%Z -> (k < n + size)%Z ->
  (k mod size)%Z = rank ->
  share f rank size (Z.to_nat k) == share f rank size (Z.to_nat n).
Proof.
  intros Hs Hn Hk Hm.
  replace k with (n + Z.of_nat (Z.to_nat (k - n)))%Z at 1 by lia.
  apply share_skip; [lia|].
  intros j Hj Hc.
  apply (mod_same_apart j k size Hs); [congruence|lia].
Qed.

Lemma share_nonneg (f : Z -> Q) (rank size : Z) (n : nat) :
  (forall k, (0 <= k)%Z -> 0 <= f k) -> 0 <= share f rank size n.
Proof.
  intros Hf. induction n as [|n IH]; cbn [share]; [apply Qle_refl|].
  pose proof (Hf (Z.of_nat n) ltac:(lia)) as H.
  destruct (Z.of_nat n mod size =? rank)%Z; lra.
Qed.

Lemma over_ranks_indicator (v : Q) (c0 : Z) (c : nat) :
  (0 <= c0)%Z ->
  over_ranks (fun r => if (c0 =? r)%Z then v else 0) c
  == if (c0 <? Z.of_nat c)%Z then v else 0.
Proof.
  intros H0. induction c as [|c IH]; cbn [over_ranks].
  - destruct (Z.ltb_spec c0 (Z.of_nat 0)); [simpl in *; lia|reflexivity].
  - rewrite IH.
    destruct (Z.ltb_spec c0 (Z.of_nat c));
      destruct (Z.ltb_spec c0 (Z.of_nat (Datatypes.S c)));
      destruct (Z.eqb_spec c0 (Z.of_nat c)); try lia; ring.
Qed.

(** The shares of the ranks of a group add up to the whole sum. *)
Lemma shares_total (f : Z -> Q) (size : Z) (n : nat) :
  (1 <= size)%Z ->
  over_ranks (fun r => share f r size n) (Z.to_nat size) == series f n.
Proof.
  intros Hs. induction n as [|n IH].
  - cbn [share series]. induction (Z.to_nat size) as [|c IHc];
      cbn [over_ranks]; [reflexivity|rewrite IHc; ring].
  - cbn [share series]. rewrite <- IH.
    assert (Hlin : forall (g h : Z -> Q) c,
              over_ranks (fun r => g r + h r) c
              == over_ranks g c + over_ranks h c).
    { intros g h c. induction c as [|c IHc]; cbn [over_ranks];
        [ring|rewrite IHc; ring]. }
    rewrite (Hlin (fun r => share f r size n)
               (fun r => if (Z.of_nat n mod size =? r)%Z then f (Z.of_nat n) else 0)).
    rewrite over_ranks_indicator by (apply Z.mod_pos_bound; lia).
    pose proof (Z.mod_pos_bound (Z.of_nat n) size ltac:(lia)) as Hb.
    destruct (Z.ltb_spec (Z.of_nat n mod size) (Z.of_nat (Z.to_nat size)));
      [reflexivity|lia].
Qed.

Lemma over_ranks_mono (g : Z -> Q) (c c' : nat) :
  (forall r, 0 <= g r) -> (c <= c')%nat -> over_ranks g c <= over_ranks g c'.
Proof.
  intros Hg Hc. induction Hc as [|c' _ IH]; [apply Qle_refl|].
  cbn [over_ranks]. pose proof (Hg (Z.of_nat c')). lra.
Qed.

Lemma series_one (n : nat) : series (fun _ => 1) n == inject_Z (Z.of_nat n).
Proof.
  induction n as [|n IH]; cbn [series]; [reflexivity|].
  rewrite IH, Nat2Z.inj_succ. unfold Z.succ. rewrite inject_Z_plus. reflexivity.
Qed.

(** The share of the constant 1 counts the indices of the rank. *)
Lemma share_one_count (rank size n : Z) :
  (1 <= size)%Z -> (0 <= rank < size)%Z -> (0 <= n)%Z ->
  share (fun _ => 1) rank size (Z.to_nat n)
  == inject_Z (owned_count rank size n).
Proof.
  intros Hs Hr Hn. pattern n. apply natlike_ind; [| |exact Hn].
  - cbn [Z.to_nat share]. unfold owned_count.
    rewrite Z.div_small by lia. reflexivity.
  - intros k Hk IH. unfold Z.succ. rewrite share_succ by exact Hk.
    rewrite IH. unfold owned_count.
    replace (k + 1 - rank + size - 1)%Z with (k - rank + size - 1 + 1)%Z by lia.
    rewrite (div_succ_step (k - rank + size - 1) size) by lia.
    rewrite inject_Z_plus.
    replace (k - rank + size - 1 + 1)%Z with (k - rank + 1 * size)%Z by lia.
    rewrite Z.mod_add by lia.
    pose proof (stride_residue rank size k Hs Hr) as Hres.
    destruct (Z.eqb_spec (k mod size) rank) as [E|E];
      destruct (Z.eqb_spec ((k - rank) mod size) 0) as [E'|E'];
      try reflexivity.
    + exfalso. apply E'. apply Hres. split; [exact Hk|exact E].
    + exfalso. apply E.
      destruct (Z.le_gt_cases rank k) as [Hle|Hgt].
      * apply Hres. split; assumption.
      * rewrite <- (Z.mod_add _ 1 size) in E' by lia.
        rewrite Z.mod_small in E' by lia. lia.
Qed.

(** ** Accuracy of the partial sums *)

Lemma local_step_arith (va vt va' sh t1 c u E iP : Q) :
  0 < u -> E == 128 * u -> 0 < iP -> iP <= 1 ->
  Qabs (va - sh) <= c * E ->
  Qabs (vt - t1) <= 64 * u * iP ->
  (va + vt - (128 # 15) * u <= va' /\ va' <= va + vt + (128 # 15) * u) ->
  Qabs (va' - (sh + t1)) <= (c + 1) * E.
Proof.
  intros Hu HE HiP HiP1 Ha Ht Hr.
  apply Qabs_diff_Qle_condition in Ha.
  apply Qabs_diff_Qle_condition in Ht.
  apply Qabs_diff_Qle_condition.
  assert (H : 64 * u * iP <= 64 * u) by nra.
  rewrite HE in *. lra.
Qed.

(** The partial sum of a rank is within [2 ^ (8 - prec)] per owned term
    of the exact sum of its terms. *)
Lemma compute_local_sum_accuracy (prec rank size n : Z) :
  (1 <= prec)%Z -> (1 <= size)%Z -> (0 <= rank < size)%Z ->
  (0 <= n <= 2 ^ 61)%Z ->
  exists s,
    compute_local_sum prec rank size n = Done s /\
    (Z.abs (mant s) < 2 ^ prec)%Z /\
    Qabs (value s) <= 128 # 15 /\
    Qabs (value s - share bbp_term rank size (Z.to_nat n))
      <= share (fun _ => 1) rank size (Z.to_nat n) * 2 ^ (8 - prec).
Proof.
  intros Hp Hs Hr Hn. unfold compute_local_sum.
  assert (H61 : (2 ^ 61 < ULONG_MOD)%Z) by (unfold ULONG_MOD; lia).
  assert (HE : 2 ^ (8 - prec) == 128 * 2 ^ (1 - prec)).
  { replace (8 - prec)%Z with (7 + (1 - prec))%Z by lia.
    rewrite pow2_add. reflexivity. }
  assert (H64 : 2 ^ (7 - prec) == 64 * 2 ^ (1 - prec)).
  { replace (7 - prec)%Z with (6 + (1 - prec))%Z by lia.
    rewrite pow2_add. reflexivity. }
  pose proof (pow2_pos (1 - prec)) as Hu.
  destruct (for_stride_rule size n
              (fun k local_sum =>
                 term <- compute_bbp_term prec (ulong k) ;;
                 Done (mpf_add prec local_sum term))
              (fun k acc =>
                 (rank <= k < n + size)%Z /\ (k mod size)%Z = rank /\
                 (Z.abs (mant acc) < 2 ^ prec)%Z /\
                 Qabs (value acc) <= geo k /\
                 Qabs (value acc - share bbp_term rank size (Z.to_nat k))
                   <= share (fun _ => 1) rank size (Z.to_nat k) * 2 ^ (8 - prec))
              Hs) with (fuel := stride_fuel rank n)
              (k := rank) (acc := mpf_set_ui 0)
    as (k' & s & Hrun & (Hk & Hmod & Hm & Hv & Herr) & Hstop).
  - intros k acc Hlt (Hk & Hmod & Hm & Hv & Herr).
    rewrite ulong_small by lia.
    destruct (compute_bbp_term_spec prec k Hp ltac:(lia))
      as (t & Et & _ & Hacc & Ht).
    rewrite bbp_k8_small in Hacc by lia.
    rewrite Et; cbn [bind]. eexists. split; [reflexivity|].
    pose proof (mpf_add_approx prec acc t Hp) as A.
    split; [lia|]. split.
    { replace (k + size)%Z with (k + 1 * size)%Z by lia.
      rewrite Z.mod_add by lia. exact Hmod. }
    split; [apply A|].
    assert (Hsum : Qabs (value acc + value t) <= geo (k + size)).
    { eapply Qle_trans; [apply Qabs_triangle|].
      eapply Qle_trans; [|apply geo_step; lia]. lra. }
    split.
    { destruct A as [_ Ab _]. apply between0_abs in Ab.
      eapply Qle_trans; [exact Ab|exact Hsum]. }
    assert (Hsum' : Qabs (value acc + value t) <= 128 # 15).
    { eapply Qle_trans; [exact Hsum|]. apply geo_range. lia. }
    destruct (approx_bound _ _ _ _ A Hsum') as (_ & Hrnd).
    rewrite !share_stride by (assumption || lia).
    assert (HP : 1 <= 16 ^ k) by (apply pow16_ge_1; lia).
    assert (HiP : 0 < / 16 ^ k) by (apply Qinv_lt_0_compat; lra).
    assert (HiP1 : / 16 ^ k <= 1) by (apply Qle_shift_inv_r; lra).
    apply (local_step_arith (value acc) (value t) _ _ (bbp_term k) _
             (2 ^ (1 - prec)) _ (/ 16 ^ k) Hu HE HiP HiP1 Herr).
    + unfold bbp_term. rewrite H64 in Hacc. unfold Qdiv in *.
      setoid_replace (1 * / 16 ^ k * bracket_at (8 * k))
        with (bracket_at (8 * k) * / 16 ^ k) by ring.
      exact Hacc.
    + exact Hrnd.
  - unfold stride_fuel. lia.
  - split; [lia|]. split; [apply Z.mod_small; lia|].
    split; [simpl; apply Z.pow_pos_nonneg; lia|].
    change (value (mpf_set_ui 0)) with 0.
    split; [change (Qabs 0) with 0; apply geo_range; lia|].
    rewrite share_before_rank by exact Hr.
    rewrite share_before_rank by exact Hr.
    change (Qabs (0 - 0)) with 0. rewrite Qmult_0_l. apply Qle_refl.
  - exists s. split; [exact Hrun|]. split; [exact Hm|]. split.
    { eapply Qle_trans; [exact Hv|]. apply geo_range. lia. }
    rewrite (share_at_exit bbp_term rank size n k') in Herr by (assumption || lia).
    rewrite (share_at_exit (fun _ => 1) rank size n k') in Herr
      by (assumption || lia).
    exact Herr.
Qed.

Lemma qsum_snoc (l : list Q) (x : Q) : qsum (l ++ [x]) == qsum l + x.
Proof.
  induction l as [|a l IH]; cbn [app qsum fold_right]; [ring|].
  fold (qsum (l ++ [x])). fold (qsum l). rewrite IH. ring.
Qed.

(** The sum of [f] over the indices a rank owns is its share. *)
Lemma owned_terms_sum (f : Z -> Q) (rank size n : Z) :
  (1 <= size)%Z -> (0 <= rank < size)%Z -> (0 <= n)%Z ->
  exists l,
    owned_terms rank size n = Done l /\
    qsum (map f l) == share f rank size (Z.to_nat n).
Proof.
  intros Hs Hr Hn. unfold owned_terms.
  destruct (for_stride_rule size n
              (fun k acc => Done (acc ++ [k]))
              (fun k acc =>
                 (rank <= k < n + size)%Z /\ (k mod size)%Z = rank /\
                 qsum (map f acc) == share f rank size (Z.to_nat k))
              Hs) with (fuel := stride_fuel rank n)
              (k := rank) (acc := @nil Z)
    as (k' & l & Hrun & (Hk & Hmod & Hsum) & Hstop).
  - intros k acc Hlt (Hk & Hmod & Hsum).
    eexists. split; [reflexivity|]. split; [lia|]. split.
    { replace (k + size)%Z with (k + 1 * size)%Z by lia.
      rewrite Z.mod_add by lia. exact Hmod. }
    rewrite map_app. cbn [map]. rewrite qsum_snoc, Hsum.
    rewrite share_stride by (assumption || lia). reflexivity.
  - unfold stride_fuel. lia.
  - split; [lia|]. split; [apply Z.mod_small; lia|].
    rewrite share_before_rank by exact Hr. reflexivity.
  - exists l. split; [exact Hrun|].
    rewrite Hsum. apply share_at_exit; assumption || lia.
Qed.

(** X8.  For a precision of at least one bit, a rank of a group and
    [n >= 0] terms (with [n + size - 1] representable as an [int], so
    that the loop counter stays in range), the partial sum a rank
    accumulates differs from the exact sum of the series terms it owns by
    at most [2 ^ (8 - prec)] for each of them. *)
Theorem local_sum_accurate (prec rank size n : Z) :
  (1 <= prec)%Z -> (1 <= size)%Z -> (0 <= rank < size)%Z ->
  (0 <= n)%Z -> (n + size - 1 <= INT_MAX)%Z ->
  exists s l,
    compute_local_sum prec rank size n = Done s /\
    owned_terms rank size n = Done l /\
    Qabs (value s - qsum (map bbp_term l))
      <= inject_Z (Z.of_nat (List.length l)) * 2 ^ (8 - prec).
Proof.
  intros Hp Hs Hr Hn0 Hov.
  assert (Hn : (0 <= n <= 2 ^ 61)%Z) by (unfold INT_MAX in Hov; lia).
  destruct (compute_local_sum_accuracy prec rank size n Hp Hs Hr Hn)
    as (s & Es & _ & _ & Herr).
  destruct (owned_terms_sum bbp_term rank size n Hs Hr ltac:(lia))
    as (l & El & Hsum).
  destruct (owned_terms_sum (fun _ => 1) rank size n Hs Hr ltac:(lia))
    as (l' & El' & Hcnt).
  rewrite El in El'. injection El' as <-.
  exists s, l. split; [exact Es|]. split; [exact El|].
  rewrite Hsum.
  assert (Hlen : qsum (map (fun _ : Z => 1) l)
                 == inject_Z (Z.of_nat (List.length l))).
  { clear. induction l as [|a l IH]; [reflexivity|].
    cbn [map qsum fold_right List.length]. fold (qsum (map (fun _ : Z => 1) l)).
    rewrite IH, Nat2Z.inj_succ. unfold Z.succ. rewrite inject_Z_plus. ring. }
  rewrite <- Hlen, Hcnt. exact Herr.
Qed.

Lemma local_sum_accurate_witness :
  exists s l,
    compute_local_sum 239 1 4 60 = Done s /\
    owned_terms 1 4 60 = Done l /\
    Qabs (value s - qsum (map bbp_term l))
      <= inject_Z (Z.of_nat (List.length l)) * 2 ^ (8 - 239).
Proof. apply (local_sum_accurate 239 1 4 60); unfold INT_MAX; lia. Defined.

(** ** Accuracy of the aggregated result *)

Lemma unit_roundoff_bound (digits : Z) :
  (0 <= digits <= INT_MAX)%Z ->
  2 ^ (1 - calculate_precision digits)
    <= (1 # 2) / inject_Z (10 ^ (digits + 18)).
Proof.
  intros Hd.
  pose proof (calculate_precision_pos digits Hd) as Hp.
  pose proof (calculate_precision_margin digits Hd) as Hm.
  set (p := calculate_precision digits) in *.
  assert (H10 : 0 < inject_Z (10 ^ (digits + 18)))
    by (apply inject_Z_pos, Z.pow_pos_nonneg; lia).
  assert (Eu : 2 ^ (1 - p) == / inject_Z (2 ^ (p - 1))).
  { rewrite pow2_inject by lia. rewrite <- Qpower_opp.
    replace (- (p - 1))%Z with (1 - p)%Z by lia. reflexivity. }
  rewrite Eu.
  assert (HW : 0 < inject_Z (2 ^ (p - 1)))
    by (apply inject_Z_pos, Z.pow_pos_nonneg; lia).
  rewrite Zle_Qle, inject_Z_mult in Hm. change (inject_Z 2) with 2 in Hm.
  apply Qle_shift_inv_r; [exact HW|].
  apply (Qmult_le_r _ _ (inject_Z (10 ^ (digits + 18)))); [exact H10|].
  setoid_replace ((1 # 2) / inject_Z (10 ^ (digits + 18)) * inject_Z (2 ^ (p - 1))
                  * inject_Z (10 ^ (digits + 18)))
    with ((1 # 2) * inject_Z (2 ^ (p - 1))) by (field; lra).
  revert Hm. generalize (inject_Z (10 ^ (digits + 18))) (inject_Z (2 ^ (p - 1))).
  intros a b Hm. lra.
Qed.

(** What the coordinator reads from the text of a partial sum is held at
    the working precision and within [10 ^ - (digits + 17)] of it. *)
Lemma received_value_close (digits : Z) (x : mpf) :
  (1 <= digits)%Z -> (digits + 100 <= INT_MAX)%Z ->
  Qabs (value x) <= 128 # 15 ->
  exists y,
    mpf_set_str (calculate_precision digits) (gmp_sprintf_Ff (digits + 20) x)
      = Some y /\
    (Z.abs (mant y) < 2 ^ calculate_precision digits)%Z /\
    Qabs (value y - value x) <= 1 / inject_Z (10 ^ (digits + 17)).
Proof.
  intros H1 H2 Hx.
  assert (Hd : (0 <= digits <= INT_MAX)%Z) by (unfold INT_MAX in *; lia).
  pose proof (calculate_precision_pos digits Hd) as Hp.
  pose proof (calculate_precision_margin digits Hd) as Hm.
  set (p := calculate_precision digits) in *.
  set (n := (digits + 20)%Z) in *.
  rewrite mpf_set_str_sprintf by (unfold n; lia).
  eexists. split; [reflexivity|].
  set (r := (if (mant x <? 0)%Z then (- scaled_round n x)%Z else scaled_round n x)).
  assert (H10 : (0 < 10 ^ n)%Z) by (apply Z.pow_pos_nonneg; unfold n; lia).
  pose proof (mpf_round_approx p r (10 ^ n) 0 ltac:(lia) H10) as A.
  apply (approx_ext _ _ (printed_value n x)) in A;
    [|unfold printed_value; fold r; simpl (2 ^ 0); ring].
  split; [apply A|].
  pose proof (printed_value_close n x ltac:(unfold n; lia)) as Hc.
  assert (EU : inject_Z (10 ^ n) == 1000 * inject_Z (10 ^ (digits + 17))).
  { unfold n. replace (digits + 20)%Z with (3 + (digits + 17))%Z by lia.
    rewrite Z.pow_add_r by lia. rewrite inject_Z_mult. reflexivity. }
  rewrite EU in Hc.
  apply (round_trip_arith (value x) (printed_value n x) _ _
           (inject_Z (2 ^ (p - 1))) (2 ^ (1 - p))).
  - change 1 with (inject_Z 1). rewrite <- Zle_Qle.
    pose proof (Z.pow_pos_nonneg 10 (digits + 17) ltac:(lia) ltac:(lia)). lia.
  - apply pow2_pos.
  - rewrite pow2_inject by lia. rewrite <- pow2_add.
    replace (1 - p + (p - 1))%Z with 0%Z by lia. reflexivity.
  - change 20 with (inject_Z 20). rewrite <- inject_Z_mult, <- Zle_Qle.
    replace (digits + 18)%Z with (1 + (digits + 17))%Z in Hm by lia.
    rewrite Z.pow_add_r in Hm by lia. lia.
  - exact Hx.
  - exact Hc.
  - intros Hpv. apply (approx_bound _ _ _ _ A Hpv).
Qed.

(** The whole series stays between its first term and [752/225]. *)
Lemma series_bbp_bounds (n : nat) :
  0 <= series bbp_term n /\ series bbp_term n <= 752 # 225 /\
  ((1 <= n)%nat -> 47 # 15 <= series bbp_term n).
Proof.
  assert (Hup : series bbp_term n <= 752 # 225).
  { destruct (bbp_partial_sum_tail 0 n ltac:(lia)) as (_ & H).
    unfold bbp_partial_sum in H. rewrite Z.add_0_l, Nat2Z.id in H.
    assert (HP : 0 < 16 ^ Z.of_nat n) by (apply Qpower_0_lt; reflexivity).
    assert (Ht : 0 < (752 # 225) / 16 ^ Z.of_nat n)
      by (apply Qlt_shift_div_l; [exact HP|reflexivity]).
    change (series bbp_term (Z.to_nat 0)) with 0 in H.
    change ((752 # 225) / 16 ^ 0) with (752 # 225) in H.
    revert H Ht. generalize (series bbp_term n) ((752 # 225) / 16 ^ Z.of_nat n).
    intros s t H Ht. lra. }
  assert (Hlo : (1 <= n)%nat -> 47 # 15 <= series bbp_term n).
  { intros Hn.
    destruct (bbp_partial_sum_tail 1 (n - 1) ltac:(lia)) as (H & _).
    unfold bbp_partial_sum in H.
    replace (Z.to_nat (1 + Z.of_nat (n - 1))) with n in H by lia.
    assert (E1 : series bbp_term (Z.to_nat 1) == 47 # 15) by reflexivity.
    rewrite E1 in H. exact H. }
  split; [|split; assumption].
  destruct n as [|n]; [apply Qle_refl|].
  pose proof (Hlo ltac:(lia)). lra.
Qed.

Lemma agg_step_arith (vpi vy vx vpi' Ts Tc Cs Cc E G u RT c Nq sz : Q) :
  0 <= E -> 0 < u -> 0 <= RT -> G == RT + 5 * u ->
  0 <= Ts + Tc -> Ts + Tc <= 752 # 225 ->
  Cs + Cc <= Nq ->
  1 <= c -> c + 1 <= sz ->
  Nq * E + sz * G <= 1 ->
  Qabs (vpi - Ts) <= Cs * E + (c - 1) * G ->
  Qabs (vx - Tc) <= Cc * E ->
  Qabs (vy - vx) <= RT ->
  (Qabs (vpi + vy) <= 5 ->
   vpi + vy - 5 * u <= vpi' /\ vpi' <= vpi + vy + 5 * u) ->
  Qabs (vpi' - (Ts + Tc)) <= (Cs + Cc) * E + c * G.
Proof.
  intros HE Hu HRT HG HT0 HT1 HC Hc Hsz Hsmall Hpi Hx Hy Hr.
  assert (HG0 : 0 <= G) by lra.
  assert (P1 : 0 <= (Nq - (Cs + Cc)) * E)
    by (apply Qmult_le_0_compat; lra).
  assert (P2 : 0 <= (sz - (c + 1)) * G)
    by (apply Qmult_le_0_compat; lra).
  apply Qabs_diff_Qle_condition in Hpi.
  apply Qabs_diff_Qle_condition in Hx.
  apply Qabs_diff_Qle_condition in Hy.
  assert (Hsum : Qabs (vpi + vy) <= 5).
  { apply Qabs_Qle_condition. split; nra. }
  destruct (Hr Hsum) as [Hr1 Hr2].
  apply Qabs_diff_Qle_condition. split; nra.
Qed.

Lemma over_ranks_le_total (f : Z -> Q) (size : Z) (n c : nat) :
  (1 <= size)%Z -> (forall k, (0 <= k)%Z -> 0 <= f k) ->
  (c <= Z.to_nat size)%nat ->
  0 <= over_ranks (fun r => share f r size n) c /\
  over_ranks (fun r => share f r size n) c <= series f n.
Proof.
  intros Hs Hf Hc.
  assert (Hg : forall r, 0 <= share f r size n)
    by (intros r; apply share_nonneg, Hf).
  split.
  - change 0 with (over_ranks (fun r => share f r size n) 0).
    apply over_ranks_mono; [exact Hg|lia].
  - rewrite <- (shares_total f size n Hs).
    apply over_ranks_mono; [exact Hg|exact Hc].
Qed.

(** The receive loop adds the workers' partial sums to the coordinator's
    own with an error of at most [2 ^ (8 - prec)] per term of the series
    and [10 ^ - (digits + 17) + 5 * 2 ^ (1 - prec)] per worker. *)
Lemma recv_loop_accurate (digits size : Z)
    (inbox : Z -> option (list ascii)) (local : mpf) :
  let prec := calculate_precision digits in
  let n := Z.to_nat (calculate_num_terms digits) in
  let E := 2 ^ (8 - prec) in
  let G := 1 / inject_Z (10 ^ (digits + 17)) + 5 * 2 ^ (1 - prec) in
  (1 <= digits)%Z -> (digits + 100 <= INT_MAX)%Z -> (1 <= size)%Z ->
  inject_Z (Z.of_nat n) * E + inject_Z size * G <= 1 ->
  (Z.abs (mant local) < 2 ^ prec)%Z ->
  Qabs (value local - share bbp_term 0 size n)
    <= share (fun _ => 1) 0 size n * E ->
  (forall src, (1 <= src < size)%Z ->
     exists x,
       Qabs (value x) <= 128 # 15 /\
       Qabs (value x - share bbp_term src size n)
         <= share (fun _ => 1) src size n * E /\
       inbox src = Some (gmp_sprintf_Ff (digits + 20) x ++ [NUL])) ->
  exists st,
    for_stride (stride_fuel 1 size) 1 1 size (recv_step prec digits inbox)
      (mpf_set prec local, mpf_zero) = Done st /\
    (Z.abs (mant (fst st)) < 2 ^ prec)%Z /\
    Qabs (value (fst st) - series bbp_term n)
      <= inject_Z (Z.of_nat n) * E + inject_Z (size - 1) * G.
Proof.
  intros prec n E G H1 H2 Hs Hsmall Hml Hl Hin.
  assert (Hd : (0 <= digits <= INT_MAX)%Z) by (unfold INT_MAX in *; lia).
  pose proof (calculate_precision_pos digits Hd) as Hp64. fold prec in Hp64.
  assert (Hp : (1 <= prec)%Z) by lia.
  set (T := fun r => share bbp_term r size n).
  set (C := fun r => share (fun _ : Z => 1) r size n).
  assert (Hterm : forall k, (0 <= k)%Z -> 0 <= bbp_term k).
  { intros k Hk. apply Qlt_le_weak, bbp_term_bounds, Hk. }
  assert (Hone : forall k : Z, (0 <= k)%Z -> 0 <= (fun _ : Z => 1) k)
    by (intros; discriminate).
  assert (HE0 : 0 <= E) by (apply Qlt_le_weak, pow2_pos).
  assert (Hu : 0 < 2 ^ (1 - prec)) by apply pow2_pos.
  assert (HRT : 0 <= 1 / inject_Z (10 ^ (digits + 17))).
  { apply Qle_shift_div_l; [apply inject_Z_pos, Z.pow_pos_nonneg; lia|].
    rewrite Qmult_0_l. discriminate. }
  destruct (for_stride_rule 1 size (recv_step prec digits inbox)
              (fun k st =>
                 (1 <= k <= size)%Z /\
                 (Z.abs (mant (fst st)) < 2 ^ prec)%Z /\
                 Qabs (value (fst st) - over_ranks T (Z.to_nat k))
                   <= over_ranks C (Z.to_nat k) * E + (inject_Z k - 1) * G)
              ltac:(lia)) with (fuel := stride_fuel 1 size) (k := 1%Z)
              (acc := (mpf_set prec local, mpf_zero))
    as (k' & st & Hrun & (Hk & Hm & HI) & Hstop).
  - intros k [pi rs] Hlt (Hk & Hm & HI). cbn [fst] in Hm, HI.
    destruct (Hin k ltac:(lia)) as (x & Hx & Hxe & Ex).
    destruct (serialize_fits digits x H1 H2 Hx) as (Hlen & _).
    destruct (received_value_close digits x H1 H2 Hx) as (y & Ey & Hmy & Hy).
    fold prec in Ey, Hmy.
    unfold recv_step, mpi_recv. rewrite Ex.
    rewrite length_app. cbn [List.length].
    rewrite buffer_size_eq by assumption.
    destruct (Z.leb_spec
                (Z.of_nat (List.length (gmp_sprintf_Ff (digits + 20) x) + 1))
                (digits + 100)) as [_|Hbad];
      [|destruct (mant x <? 0)%Z; lia].
    cbn [bind].
    rewrite c_string_terminated by (apply gmp_sprintf_Ff_no_nul; lia).
    rewrite Ey. eexists. split; [reflexivity|].
    split; [lia|]. cbn [fst].
    pose proof (mpf_add_approx prec pi y Hp) as A.
    split; [apply A|].
    replace (Z.to_nat (k + 1)) with (Datatypes.S (Z.to_nat k)) by lia.
    cbn [over_ranks]. rewrite Z2Nat.id by lia.
    rewrite inject_Z_plus. change (inject_Z 1) with 1.
    setoid_replace (inject_Z k + 1 - 1) with (inject_Z k) by ring.
    destruct (over_ranks_le_total bbp_term size n (Datatypes.S (Z.to_nat k))
                Hs Hterm ltac:(lia)) as (HT0 & HT1).
    destruct (over_ranks_le_total (fun _ => 1) size n (Datatypes.S (Z.to_nat k))
                Hs Hone ltac:(lia)) as (_ & HC1).
    cbn [over_ranks] in HT0, HT1, HC1. rewrite Z2Nat.id in HT0, HT1, HC1 by lia.
    rewrite series_one in HC1.
    destruct (series_bbp_bounds n) as (_ & HS & _).
    fold T in HT0, HT1. fold C in HC1.
    apply (agg_step_arith (value pi) (value y) (value x) _
             (over_ranks T (Z.to_nat k)) (T k)
             (over_ranks C (Z.to_nat k)) (C k)
             E G (2 ^ (1 - prec)) (1 / inject_Z (10 ^ (digits + 17)))
             (inject_Z k) (inject_Z (Z.of_nat n)) (inject_Z size));
      try assumption.
    + reflexivity.
    + eapply Qle_trans; [exact HT1|exact HS].
    + change 1 with (inject_Z 1). rewrite <- Zle_Qle. lia.
    + change 1 with (inject_Z 1). rewrite <- inject_Z_plus, <- Zle_Qle. lia.
    + intros Hb. apply (approx_bound _ _ _ _ A Hb).
  - unfold stride_fuel. lia.
  - split; [lia|]. cbn [fst]. unfold mpf_set.
    rewrite normalize_small by exact Hml.
    split; [exact Hml|].
    change (Z.to_nat 1) with 1%nat. cbn [over_ranks].
    change (Z.of_nat 0) with 0%Z. change (inject_Z 1) with 1.
    fold (T 0%Z) in Hl. fold (C 0%Z) in Hl.
    setoid_replace (value local - (0 + T 0%Z)) with (value local - T 0%Z) by ring.
    setoid_replace ((0 + C 0%Z) * E + (1 - 1) * G) with (C 0%Z * E) by ring.
    exact Hl.
  - exists st. split; [exact Hrun|].
    assert (k' = size) by lia. subst k'.
    split; [exact Hm|].
    unfold T, C in HI.
    rewrite (shares_total bbp_term size n Hs) in HI.
    rewrite (shares_total (fun _ => 1) size n Hs) in HI.
    rewrite series_one in HI.
    assert (Es : inject_Z (size - 1) == inject_Z size - 1)
      by (unfold Z.sub; rewrite inject_Z_plus; reflexivity).
    rewrite Es. exact HI.
Qed.

Lemma error_budget (digits size : Z) :
  (1 <= digits)%Z -> (digits + 100 <= INT_MAX)%Z -> (1 <= size <= INT_MAX)%Z ->
  let prec := calculate_precision digits in
  inject_Z (calculate_num_terms digits) * 2 ^ (8 - prec)
  + inject_Z size * (1 / inject_Z (10 ^ (digits + 17)) + 5 * 2 ^ (1 - prec))
  <= 1 / inject_Z (10 ^ (digits + 6)).
Proof.
  intros H1 H2 Hs prec.
  assert (Hd : (0 <= digits <= INT_MAX)%Z) by (unfold INT_MAX in *; lia).
  pose proof (unit_roundoff_bound digits Hd) as Hu. fold prec in Hu.
  pose proof (pow2_pos (1 - prec)) as Hu0.
  assert (HE : 2 ^ (8 - prec) == 128 * 2 ^ (1 - prec)).
  { replace (8 - prec)%Z with (7 + (1 - prec))%Z by lia.
    rewrite pow2_add. reflexivity. }
  rewrite HE.
  assert (H18 : 0 < inject_Z (10 ^ (digits + 18)))
    by (apply inject_Z_pos, Z.pow_pos_nonneg; lia).
  assert (E17 : inject_Z (10 ^ (digits + 18))
                == 10 * inject_Z (10 ^ (digits + 17))).
  { replace (digits + 18)%Z with (1 + (digits + 17))%Z by lia.
    rewrite Z.pow_add_r by lia. rewrite inject_Z_mult. reflexivity. }
  assert (E6 : inject_Z (10 ^ (digits + 18))
               == 1000000000000 * inject_Z (10 ^ (digits + 6))).
  { replace (digits + 18)%Z with (12 + (digits + 6))%Z by lia.
    rewrite Z.pow_add_r by lia. rewrite inject_Z_mult. reflexivity. }
  assert (H17 : 0 < inject_Z (10 ^ (digits + 17)))
    by (apply inject_Z_pos, Z.pow_pos_nonneg; lia).
  assert (H6 : 0 < inject_Z (10 ^ (digits + 6)))
    by (apply inject_Z_pos, Z.pow_pos_nonneg; lia).
  assert (R17 : 1 / inject_Z (10 ^ (digits + 17))
                == 10 * / inject_Z (10 ^ (digits + 18))).
  { rewrite E17. field. lra. }
  assert (R6 : 1 / inject_Z (10 ^ (digits + 6))
               == 1000000000000 * / inject_Z (10 ^ (digits + 18))).
  { rewrite E6. field. lra. }
  rewrite R17, R6. unfold Qdiv in Hu.
  assert (HiU : 0 < / inject_Z (10 ^ (digits + 18)))
    by (apply Qinv_lt_0_compat, H18).
  assert (HN : 0 <= inject_Z (calculate_num_terms digits)
               /\ inject_Z (calculate_num_terms digits) <= 2147483648).
  { change 0 with (inject_Z 0). change 2147483648 with (inject_Z 2147483648).
    rewrite <- !Zle_Qle. unfold calculate_num_terms, INT_MAX in *. lia. }
  assert (HS : 0 <= inject_Z size /\ inject_Z size <= 2147483648).
  { change 0 with (inject_Z 0). change 2147483648 with (inject_Z 2147483648).
    rewrite <- !Zle_Qle. unfold INT_MAX in *. lia. }
  revert Hu Hu0 HiU HN HS.
  generalize (2 ^ (1 - prec)) (/ inject_Z (10 ^ (digits + 18)))
    (inject_Z (calculate_num_terms digits)) (inject_Z size).
  intros u iU N S Hu Hu0 HiU [HN0 HN1] [HS0 HS1].
  assert (P1 : N * u <= 2147483648 * u) by (apply Qmult_le_compat_r; lra).
  assert (P2 : S * u <= 2147483648 * u) by (apply Qmult_le_compat_r; lra).
  assert (P3 : S * iU <= 2147483648 * iU) by (apply Qmult_le_compat_r; lra).
  nra.
Qed.

(** For a result between 3 and 3.5 held at the working precision the
    renderer writes the digits of the rounded fraction, and the number
    they spell is within half a unit of the last place, and one roundoff,
    of the result. *)
Lemma print_pi_fraction (prec : Z) (pi : mpf) (digits : Z) :
  (1 <= prec)%Z -> (1 <= digits)%Z -> (digits + 100 <= INT_MAX)%Z ->
  (Z.abs (mant pi) < 2 ^ prec)%Z ->
  3 <= value pi -> value pi <= 7 # 2 ->
  let r := scaled_round digits (mpf_sub_ui prec pi 3) in
  print_pi prec pi digits
    = Done (print_header ++ group_digits (dec_fixed (Z.to_nat digits) r)
            ++ [newline]) /\
  (0 <= r < 10 ^ digits)%Z /\
  Qabs (inject_Z r / inject_Z (10 ^ digits) - (value pi - 3))
    <= (1 # 2) / inject_Z (10 ^ digits) + 2 ^ (1 - prec).
Proof.
  intros Hp H1 H2 Hpi Hlo Hhi r.
  set (frac := mpf_sub_ui prec pi 3) in *.
  pose proof (mpf_sub_approx prec pi (mpf_set_ui 3) Hp) as A.
  fold (mpf_sub_ui prec pi 3) in A. fold frac in A.
  apply (approx_ext _ _ (value pi - 3)) in A;
    [|unfold value at 2; simpl; ring].
  destruct A as [_ Ab Ae].
  assert (Hb : 0 <= value frac /\ value frac <= value pi - 3).
  { destruct Ab as [Hb|[Hb1 Hb2]]; [exact Hb|]. split; lra. }
  assert (Hm : (0 <= mant frac)%Z).
  { destruct (Z.lt_ge_cases (mant frac) 0) as [Hneg|]; [|assumption].
    exfalso. pose proof (value_sign frac) as Hs.
    destruct (Z.ltb_spec (mant frac) 0) as [_|]; [|lia].
    pose proof (Qabs_nonneg (value frac)) as Ha.
    assert (E0 : value frac == 0) by lra.
    unfold value in E0.
    pose proof (pow2_pos (expo frac)) as HE.
    assert (Hi : inject_Z (mant frac) < 0)
      by (change 0 with (inject_Z 0); rewrite <- Zlt_Qlt; exact Hneg).
    nra. }
  pose proof (scaled_round_spec digits frac ltac:(lia)) as HR. fold r in HR.
  rewrite (Qabs_pos (value frac)) in HR by apply Hb.
  pose proof (scaled_round_nonneg digits frac ltac:(lia)) as H0. fold r in H0.
  assert (H10 : (10 <= 10 ^ digits)%Z).
  { change 10%Z with (10 ^ 1)%Z at 1. apply Z.pow_le_mono_r; lia. }
  assert (Hr : (r < 10 ^ digits)%Z).
  { rewrite Zlt_Qlt. rewrite Zle_Qle in H10.
    apply Qabs_diff_Qle_condition in HR.
    change (inject_Z 10) with 10 in H10.
    revert HR H10 Hb Hhi.
    generalize (inject_Z r) (value frac) (value pi) (inject_Z (10 ^ digits)).
    intros iR vf vp T HR H10 Hb Hhi. nra. }
  split.
  { rewrite <- (Z.mod_small r (10 ^ digits)) at 1 by lia.
    unfold r, frac. rewrite <- (normalize_small prec pi Hpi) at 2.
    apply print_pi_digits; try assumption.
    - unfold mpf_set. rewrite normalize_small by exact Hpi. exact Hm.
    - unfold mpf_set. rewrite normalize_small by exact Hpi.
      fold frac. fold r. rewrite Z.div_small by lia. lia. }
  split; [lia|].
  rewrite (Qabs_pos (value pi - 3 - value frac)) in Ae by lra.
  rewrite (Qabs_pos (value pi - 3)) in Ae by lra.
  pose proof (pow2_pos (1 - prec)) as Hu.
  assert (HT : 0 < inject_Z (10 ^ digits)) by (apply inject_Z_pos; lia).
  assert (HiT : 0 < / inject_Z (10 ^ digits)) by (apply Qinv_lt_0_compat, HT).
  assert (ET : inject_Z (10 ^ digits) * / inject_Z (10 ^ digits) == 1)
    by (field; lra).
  apply Qabs_diff_Qle_condition in HR. destruct HR as [HR1 HR2].
  apply (Qmult_le_compat_r _ _ (/ inject_Z (10 ^ digits))) in HR1; [|lra].
  apply (Qmult_le_compat_r _ _ (/ inject_Z (10 ^ digits))) in HR2; [|lra].
  unfold Qdiv.
  revert HR1 HR2 ET Ae Hu Hlo Hhi Hb HiT.
  generalize (2 ^ (1 - prec)) (value pi) (value frac) (inject_Z r)
    (inject_Z (10 ^ digits)) (/ inject_Z (10 ^ digits)).
  intros u vp vf iR T iT HR1 HR2 ET Ae Hu Hlo Hhi Hb HiT.
  assert (Ev : vf * T * iT == vf) by (rewrite <- Qmult_assoc, ET; ring).
  rewrite Ev in HR1, HR2.
  apply Qabs_diff_Qle_condition. split; nra.
Qed.

(** A worker's message is the text of a partial sum that is accurate to
    [2 ^ (8 - prec)] per owned term. *)
Lemma main_worker_accurate (arg : option Z) (rank size : Z)
    (inbox : Z -> option (list ascii)) :
  valid_request arg -> (0 < rank < size)%Z ->
  exists x,
    Qabs (value x) <= 128 # 15 /\
    Qabs (value x
          - share bbp_term rank size
              (Z.to_nat (calculate_num_terms (requested_digits arg))))
      <= share (fun _ => 1) rank size
           (Z.to_nat (calculate_num_terms (requested_digits arg)))
         * 2 ^ (8 - calculate_precision (requested_digits arg)) /\
    main arg rank size inbox
    = Done (0%Z, [EvLocalSum x;
                  EvSent (gmp_sprintf_Ff (requested_digits arg + 20) x ++ [NUL])]).
Proof.
  intros Hv Hr. rewrite main_valid by exact Hv. destruct Hv as [H1 H2].
  set (digits := requested_digits arg) in *. cbv zeta.
  assert (Hd : (0 <= digits <= INT_MAX)%Z) by (unfold INT_MAX in *; lia).
  pose proof (calculate_precision_pos digits Hd) as Hp.
  destruct (compute_local_sum_accuracy (calculate_precision digits) rank size
              (calculate_num_terms digits))
    as (x & Ex & _ & Hx & Hacc); try lia.
  { unfold calculate_num_terms, INT_MAX in *. lia. }
  exists x. split; [exact Hx|]. split; [exact Hacc|].
  rewrite Ex. cbn [bind]. unfold aggregate_results.
  destruct (Z.eqb_spec rank 0) as [E|_]; [lia|].
  destruct (serialize_fits digits x H1 H2 Hx) as (_ & Hser).
  rewrite Hser. cbn [bind]. reflexivity.
Qed.

(** The run of a group on a valid request, with the accuracy of the
    coordinator's result and what it prints. *)
Lemma run_group_accurate (arg : option Z) (size : Z) :
  valid_request arg -> (1 <= size <= INT_MAX)%Z ->
  let digits := requested_digits arg in
  let prec := calculate_precision digits in
  exists x pi workers,
    run_group arg size
      = Done (0%Z, [EvLocalSum x; EvAggregated pi;
                    EvPrinted
                      (print_header
                       ++ group_digits
                            (dec_fixed (Z.to_nat digits)
                               (scaled_round digits (mpf_sub_ui prec pi 3)))
                       ++ [newline])])
        :: workers /\
    (Z.abs (mant pi) < 2 ^ prec)%Z /\
    Qabs (value pi - bbp_partial_sum (calculate_num_terms digits))
      <= 1 / inject_Z (10 ^ (digits + 6)) /\
    (0 <= scaled_round digits (mpf_sub_ui prec pi 3) < 10 ^ digits)%Z /\
    Qabs (inject_Z (scaled_round digits (mpf_sub_ui prec pi 3))
          / inject_Z (10 ^ digits) - (value pi - 3))
      <= (1 # 2) / inject_Z (10 ^ digits) + 2 ^ (1 - prec).
Proof.
  intros Hv Hs digits prec. unfold run_group.
  set (workers := map (fun r => main arg (Z.of_nat r) size (fun _ => None))
                    (seq 1 (Z.to_nat size - 1))).
  set (inbox := fun src : Z =>
                  if ((1 <=? src) && (src <? size))%Z
                  then sent_message (nth (Z.to_nat src - 1) workers (Fault NoMessage))
                  else None).
  rewrite main_valid by exact Hv. pose proof Hv as [H1 H2].
  fold digits in H1, H2 |- *. cbv zeta. fold prec.
  assert (Hd : (0 <= digits <= INT_MAX)%Z) by (unfold INT_MAX in *; lia).
  pose proof (calculate_precision_pos digits Hd) as Hp. fold prec in Hp.
  set (N := calculate_num_terms digits).
  assert (HN : (0 <= N <= 2 ^ 61)%Z)
    by (unfold N, calculate_num_terms, INT_MAX in *; lia).
  destruct (compute_local_sum_accuracy prec 0 size N)
    as (x & Ex & Hmx & Hx & Hacc); try lia.
  rewrite Ex. cbn [bind]. unfold aggregate_results.
  rewrite Z.eqb_refl.
  pose proof (error_budget digits size H1 H2 Hs) as Hbud.
  cbv zeta in Hbud. fold prec in Hbud. fold N in Hbud.
  assert (H6 : 1 / inject_Z (10 ^ (digits + 6)) <= 1 # 10000000).
  { assert (H7 : (10 ^ 7 <= 10 ^ (digits + 6))%Z)
      by (apply Z.pow_le_mono_r; lia).
    rewrite Zle_Qle in H7. change (inject_Z (10 ^ 7)) with 10000000 in H7.
    apply Qle_shift_div_r; [lra|].
    revert H7. generalize (inject_Z (10 ^ (digits + 6))). intros T H7. lra. }
  destruct (recv_loop_accurate digits size inbox x) as (st & Est & Hmst & Hst);
    try assumption; try lia.
  { fold prec. fold N. rewrite Z2Nat.id by lia. lra. }
  { intros src Hsrc. unfold inbox.
    destruct (Z.leb_spec 1 src) as [_|]; [|lia].
    destruct (Z.ltb_spec src size) as [_|]; [|lia].
    cbn [andb]. unfold workers.
    rewrite run_group_worker by lia.
    replace (Z.of_nat (Datatypes.S (Z.to_nat src - 1))) with src by lia.
    destruct (main_worker_accurate arg src size (fun _ => None) Hv ltac:(lia))
      as (y & Hy & Hya & Ey).
    exists y. split; [exact Hy|]. split; [exact Hya|].
    rewrite Ey. reflexivity. }
  fold prec in Est, Hmst, Hst. fold N in Hst.
  rewrite Est. cbn [bind].
  set (pi := fst st) in *.
  assert (Hpi : Qabs (value pi - bbp_partial_sum N)
                <= 1 / inject_Z (10 ^ (digits + 6))).
  { unfold bbp_partial_sum. eapply Qle_trans; [exact Hst|].
    rewrite Z2Nat.id by lia.
    eapply Qle_trans; [|exact Hbud].
    assert (Es : inject_Z (size - 1) == inject_Z size - 1)
      by (unfold Z.sub; rewrite inject_Z_plus; reflexivity).
    rewrite Es.
    assert (HG : 0 <= 1 / inject_Z (10 ^ (digits + 17)) + 5 * 2 ^ (1 - prec)).
    { pose proof (pow2_pos (1 - prec)) as Hu.
      assert (HRT : 0 <= 1 / inject_Z (10 ^ (digits + 17))).
      { apply Qle_shift_div_l; [apply inject_Z_pos, Z.pow_pos_nonneg; lia|].
        rewrite Qmult_0_l. discriminate. }
      lra. }
    revert HG.
    generalize (1 / inject_Z (10 ^ (digits + 17)) + 5 * 2 ^ (1 - prec))
      (inject_Z N * 2 ^ (8 - prec)) (inject_Z size).
    intros G A S HG. nra. }
  destruct (series_bbp_bounds (Z.to_nat N)) as (_ & HS1 & HS0).
  specialize (HS0 ltac:(unfold N, calculate_num_terms; lia)).
  fold (bbp_partial_sum N) in HS0, HS1.
  assert (Hrange : 3 <= value pi /\ value pi <= 7 # 2).
  { apply Qabs_diff_Qle_condition in Hpi.
    revert Hpi H6 HS0 HS1.
    generalize (value pi) (bbp_partial_sum N) (1 / inject_Z (10 ^ (digits + 6))).
    intros v s e Hpi H6 HS0 HS1. split; lra. }
  destruct (print_pi_fraction prec pi digits ltac:(lia) ltac:(assumption) H2 Hmst
              (proj1 Hrange) (proj2 Hrange)) as (Eprint & Hr & Hclose).
  rewrite Eprint. cbn [bind].
  exists x, pi, workers.
  split; [reflexivity|]. split; [exact Hmst|]. split; [exact Hpi|].
  split; [exact Hr|exact Hclose].
Qed.

(** X9.  For a valid request and any group of processes (with
    [num_terms + size - 1] representable as an [int], so that the loop
    counters stay in range) the coordinator's final value lies between
    3 and 3.5 and is within [10 ^ - (digits + 6)] of the exact
    sum of the planned terms of the series: the truncations of the term
    evaluator, of the accumulation, of the decimal transport and of the
    additions of the receive loop together cost at most that. *)
Theorem aggregated_result_accurate (arg : option Z) (size : Z) :
  valid_request arg -> (1 <= size)%Z ->
  (calculate_num_terms (requested_digits arg) + size - 1 <= INT_MAX)%Z ->
  let digits := requested_digits arg in
  exists x pi text workers,
    run_group arg size
      = Done (0%Z, [EvLocalSum x; EvAggregated pi; EvPrinted text])
        :: workers /\
    Qabs (value pi - bbp_partial_sum (calculate_num_terms digits))
      <= 1 / inject_Z (10 ^ (digits + 6)) /\
    3 <= value pi /\ value pi <= 7 # 2.
Proof.
  intros Hv Hs1 Hov digits.
  assert (Hs : (1 <= size <= INT_MAX)%Z).
  { destruct Hv as [Hv1 _]. unfold calculate_num_terms in Hov. lia. }
  destruct (run_group_accurate arg size Hv Hs)
    as (x & pi & workers & Erun & _ & Hpi & _).
  fold digits in Erun, Hpi.
  exists x, pi. eexists. exists workers.
  split; [exact Erun|]. split; [exact Hpi|].
  destruct Hv as [H1 H2]. fold digits in H1, H2.
  set (N := calculate_num_terms digits) in *.
  destruct (series_bbp_bounds (Z.to_nat N)) as (_ & HS1 & HS0).
  specialize (HS0 ltac:(unfold N, calculate_num_terms; lia)).
  fold (bbp_partial_sum N) in HS0, HS1.
  assert (H6 : 1 / inject_Z (10 ^ (digits + 6)) <= 1 # 10000000).
  { assert (H7 : (10 ^ 7 <= 10 ^ (digits + 6))%Z)
      by (apply Z.pow_le_mono_r; lia).
    rewrite Zle_Qle in H7. change (inject_Z (10 ^ 7)) with 10000000 in H7.
    apply Qle_shift_div_r; [lra|].
    revert H7. generalize (inject_Z (10 ^ (digits + 6))). intros T H7. lra. }
  apply Qabs_diff_Qle_condition in Hpi.
  revert Hpi H6 HS0 HS1.
  generalize (value pi) (bbp_partial_sum N) (1 / inject_Z (10 ^ (digits + 6))).
  intros v s e Hpi H6 HS0 HS1. split; lra.
Qed.

Lemma aggregated_result_accurate_witness :
  exists x pi text workers,
    run_group (Some 50%Z) 4
      = Done (0%Z, [EvLocalSum x; EvAggregated pi; EvPrinted text])
        :: workers /\
    Qabs (value pi - bbp_partial_sum (calculate_num_terms 50))
      <= 1 / inject_Z (10 ^ (50 + 6)) /\
    3 <= value pi /\ value pi <= 7 # 2.
Proof.
  apply (aggregated_result_accurate (Some 50%Z) 4);
    [split; cbn; unfold INT_MAX; lia|lia|cbn; unfold INT_MAX; lia].
Defined.

(** X10.  The final value does not depend on the number of processes
    beyond the guard digits: for a valid request the coordinators of any
    two groups (with [num_terms + size - 1] representable as an [int])
    end with values that differ by at most [2 * 10 ^ - (digits + 6)]. *)
Theorem result_independent_of_group_size (arg : option Z) (size1 size2 : Z) :
  valid_request arg ->
  (1 <= size1)%Z -> (1 <= size2)%Z ->
  (calculate_num_terms (requested_digits arg) + size1 - 1 <= INT_MAX)%Z ->
  (calculate_num_terms (requested_digits arg) + size2 - 1 <= INT_MAX)%Z ->
  exists x1 pi1 text1 workers1 x2 pi2 text2 workers2,
    run_group arg size1
      = Done (0%Z, [EvLocalSum x1; EvAggregated pi1; EvPrinted text1])
        :: workers1 /\
    run_group arg size2
      = Done (0%Z, [EvLocalSum x2; EvAggregated pi2; EvPrinted text2])
        :: workers2 /\
    Qabs (value pi1 - value pi2)
      <= 2 / inject_Z (10 ^ (requested_digits arg + 6)).
Proof.
  intros Hv Ha1 Ha2 Hov1 Hov2.
  assert (Hs1 : (1 <= size1 <= INT_MAX)%Z).
  { destruct Hv as [Hv1 _]. unfold calculate_num_terms in Hov1. lia. }
  assert (Hs2 : (1 <= size2 <= INT_MAX)%Z).
  { destruct Hv as [Hv1 _]. unfold calculate_num_terms in Hov2. lia. }
  destruct (run_group_accurate arg size1 Hv Hs1)
    as (x1 & pi1 & workers1 & E1 & _ & Hp1 & _).
  destruct (run_group_accurate arg size2 Hv Hs2)
    as (x2 & pi2 & workers2 & E2 & _ & Hp2 & _).
  exists x1, pi1. eexists. exists workers1, x2, pi2. eexists. exists workers2.
  split; [exact E1|]. split; [exact E2|].
  apply Qabs_diff_Qle_condition in Hp1.
  apply Qabs_diff_Qle_condition in Hp2.
  unfold Qdiv in *.
  revert Hp1 Hp2.
  generalize (value pi1) (value pi2)
    (bbp_partial_sum (calculate_num_terms (requested_digits arg)))
    (/ inject_Z (10 ^ (requested_digits arg + 6))).
  intros v1 v2 s e Hp1 Hp2.
  apply Qabs_diff_Qle_condition. split; lra.
Qed.

Lemma result_independent_of_group_size_witness :
  exists x1 pi1 text1 workers1 x2 pi2 text2 workers2,
    run_group None 3
      = Done (0%Z, [EvLocalSum x1; EvAggregated pi1; EvPrinted text1])
        :: workers1 /\
    run_group None 8
      = Done (0%Z, [EvLocalSum x2; EvAggregated pi2; EvPrinted text2])
        :: workers2 /\
    Qabs (value pi1 - value pi2)
      <= 2 / inject_Z (10 ^ (requested_digits None + 6)).
Proof.
  apply (result_independent_of_group_size None 3 8);
    [split; cbn; unfold INT_MAX; lia|lia|lia
    |cbn; unfold INT_MAX; lia|cbn; unfold INT_MAX; lia].
Defined.

Lemma inv_pow10_shift (d k : Z) :
  (0 <= d)%Z -> (0 <= k)%Z ->
  1 / inject_Z (10 ^ (d + k))
  == / inject_Z (10 ^ k) * / inject_Z (10 ^ d).
Proof.
  intros Hd Hk. rewrite Z.pow_add_r by assumption. rewrite inject_Z_mult.
  assert (H1 : 0 < inject_Z (10 ^ d))
    by (apply inject_Z_pos, Z.pow_pos_nonneg; lia).
  assert (H2 : 0 < inject_Z (10 ^ k))
    by (apply inject_Z_pos, Z.pow_pos_nonneg; lia).
  field. split; lra.
Qed.

(** X11.  What a valid run prints: the header, then exactly [digits]
    decimal digits in the layout of the renderer, then a line break.  The
    number [3.d1d2...] they spell is within 0.501 units of the last
    printed place of the exact sum of the planned terms of the series and
    of every longer partial sum, for any group of processes (with
    [num_terms + size - 1] representable as an [int]). *)
Theorem printed_digits_accurate (arg : option Z) (size more : Z) :
  valid_request arg -> (1 <= size)%Z ->
  (calculate_num_terms (requested_digits arg) + size - 1 <= INT_MAX)%Z ->
  (0 <= more)%Z ->
  let digits := requested_digits arg in
  exists r x pi workers,
    run_group arg size
      = Done (0%Z, [EvLocalSum x; EvAggregated pi;
                    EvPrinted
                      (print_header
                       ++ group_digits (dec_fixed (Z.to_nat digits) r)
                       ++ [newline])])
        :: workers /\
    (0 <= r < 10 ^ digits)%Z /\
    Qabs (3 + inject_Z r / inject_Z (10 ^ digits)
          - bbp_partial_sum (calculate_num_terms digits + more))
      <= (501 # 1000) / inject_Z (10 ^ digits).
Proof.
  intros Hv Hs1 Hov Hmore digits.
  assert (Hs : (1 <= size <= INT_MAX)%Z).
  { destruct Hv as [Hv1 _]. unfold calculate_num_terms in Hov. lia. }
  destruct (run_group_accurate arg size Hv Hs)
    as (x & pi & workers & Erun & _ & Hpi & Hr & Hclose).
  fold digits in Erun, Hpi, Hr, Hclose.
  destruct Hv as [H1 H2]. fold digits in H1, H2.
  assert (Hd : (0 <= digits <= INT_MAX)%Z) by (unfold INT_MAX in *; lia).
  pose proof (unit_roundoff_bound digits Hd) as Hu.
  destruct (planned_tail digits more ltac:(lia) Hmore) as (Ht1 & Ht2).
  cbv zeta in Ht1, Ht2.
  eexists. exists x, pi, workers.
  split; [exact Erun|]. split; [exact Hr|].
  rewrite (inv_pow10_shift digits 6) in Hpi by lia.
  rewrite (inv_pow10_shift digits 11) in Ht2 by lia.
  unfold Qdiv in Hu. rewrite <- (Qmult_1_l (/ inject_Z (10 ^ (digits + 18)))) in Hu.
  fold (1 / inject_Z (10 ^ (digits + 18))) in Hu.
  rewrite (inv_pow10_shift digits 18) in Hu by lia.
  change (/ inject_Z (10 ^ 6)) with (1 # 1000000) in Hpi.
  change (/ inject_Z (10 ^ 11)) with (1 # 100000000000) in Ht2.
  change (/ inject_Z (10 ^ 18)) with (1 # 1000000000000000000) in Hu.
  assert (HiT : 0 < / inject_Z (10 ^ digits)).
  { apply Qinv_lt_0_compat, inject_Z_pos, Z.pow_pos_nonneg; lia. }
  apply Qabs_diff_Qle_condition in Hpi.
  apply Qabs_diff_Qle_condition in Hclose.
  unfold Qdiv in *.
  revert Hpi Hclose Hu Ht1 Ht2 HiT.
  generalize (value pi)
    (inject_Z (scaled_round digits
                 (mpf_sub_ui (calculate_precision digits) pi 3)))
    (bbp_partial_sum (calculate_num_terms digits))
    (bbp_partial_sum (calculate_num_terms digits + more))
    (2 ^ (1 - calculate_precision digits))
    (/ inject_Z (10 ^ digits)).
  intros v iR s s' u iT Hpi Hclose Hu Ht1 Ht2 HiT.
  apply Qabs_diff_Qle_condition. split; lra.
Qed.

Lemma printed_digits_accurate_witness :
  exists r x pi workers,
    run_group (Some 50%Z) 4
      = Done (0%Z, [EvLocalSum x; EvAggregated pi;
                    EvPrinted
                      (print_header
                       ++ group_digits (dec_fixed (Z.to_nat 50) r)
                       ++ [newline])])
        :: workers /\
    (0 <= r < 10 ^ 50)%Z /\
    Qabs (3 + inject_Z r / inject_Z (10 ^ 50)
          - bbp_partial_sum (calculate_num_terms 50 + 5))
      <= (501 # 1000) / inject_Z (10 ^ 50).
Proof.
  apply (printed_digits_accurate (Some 50%Z) 4 5);
    [split; cbn; unfold INT_MAX; lia|lia|cbn; unfold INT_MAX; lia|lia].
Defined.

(** ** The renderer below three *)

Lemma negative_mantissa (x : mpf) : value x < 0 -> (mant x < 0)%Z.
Proof.
  intros Hv. destruct (Z.lt_ge_cases (mant x) 0) as [H|H]; [exact H|].
  exfalso. unfold value in Hv.
  pose proof (pow2_pos (expo x)) as HE.
  assert (Hi : 0 <= inject_Z (mant x))
    by (change 0 with (inject_Z 0); rewrite <- Zle_Qle; exact H).
  nra.
Qed.

(** X12.  The renderer relies on the result being at least 3.  For a
    result [-6 <= pi <= 3 - 10 ^ - digits] and a working precision that
    resolves five decimal places past the printed ones, the fraction
    prints with a minus sign, so the text after the two skipped characters
    starts at the decimal point and is one character longer than
    [digits]: the length cap cuts it, and the renderer writes the point
    followed by the first [digits - 1] of the [digits] fractional digits,
    in the usual layout.  Those digits are the last [digits] digits of an
    integer [r] that the formatter reaches by rounding, within 0.501 of
    [(3 - pi) * 10 ^ digits]. *)
Theorem print_pi_below_three (prec : Z) (pi : mpf) (digits : Z) :
  (1 <= digits)%Z -> (digits + 100 <= INT_MAX)%Z ->
  (10 ^ (digits + 5) <= 2 ^ (prec - 1))%Z ->
  - 6 <= value pi -> value pi <= 3 - 1 / inject_Z (10 ^ digits) ->
  exists r,
    print_pi prec pi digits
    = Done (print_header
            ++ group_digits
                 ("."%char
                  :: firstn (Z.to_nat digits - 1)
                       (dec_fixed (Z.to_nat digits) (r mod 10 ^ digits)))
            ++ [newline]) /\
    (1 <= r < 10 * 10 ^ digits)%Z /\
    Qabs (inject_Z r - (3 - value pi) * inject_Z (10 ^ digits))
      <= 501 # 1000.
Proof.
  intros H1 H2 Hprec Hlo Hhi.
  destruct (roundoff_vs_places prec digits ltac:(lia) Hprec) as (Hp & HuT).
  pose proof (pow2_pos (1 - prec)) as Hu.
  assert (H10 : (1 <= 10 ^ digits)%Z)
    by (pose proof (Z.pow_pos_nonneg 10 digits ltac:(lia) ltac:(lia)); lia).
  assert (HT : 1 <= inject_Z (10 ^ digits)).
  { change 1 with (inject_Z 1). rewrite <- Zle_Qle. exact H10. }
  assert (HiT : 0 < / inject_Z (10 ^ digits)) by (apply Qinv_lt_0_compat; lra).
  assert (ET : / inject_Z (10 ^ digits) * inject_Z (10 ^ digits) == 1)
    by (field; lra).
  unfold Qdiv in Hhi. rewrite Qmult_1_l in Hhi.
  set (cp := mpf_set prec pi).
  pose proof (mpf_set_approx prec pi ltac:(lia)) as [_ Cb Ce]. fold cp in Cb, Ce.
  set (frac := mpf_sub_ui prec cp 3).
  pose proof (mpf_sub_approx prec cp (mpf_set_ui 3) ltac:(lia)) as A.
  fold (mpf_sub_ui prec cp 3) in A. fold frac in A.
  apply (approx_ext _ _ (value cp - 3)) in A;
    [|unfold value at 2; simpl; ring].
  destruct A as [_ Ab Ae].
  set (r := scaled_round digits frac).
  pose proof (scaled_round_spec digits frac ltac:(lia)) as HR. fold r in HR.
  pose proof (scaled_round_nonneg digits frac ltac:(lia)) as H0. fold r in H0.
  assert (Hfacts :
            value frac < 0 /\ - 9 <= value frac /\
            Qabs (inject_Z r - (3 - value pi) * inject_Z (10 ^ digits))
              <= 501 # 1000 /\
            inject_Z r < 10 * inject_Z (10 ^ digits) /\
            0 < inject_Z r).
  { revert Hlo Hhi Cb Ce Ab Ae HR Hu HuT HT HiT ET.
    generalize (value pi) (value cp) (value frac) (inject_Z r)
      (inject_Z (10 ^ digits)) (/ inject_Z (10 ^ digits)) (2 ^ (1 - prec)).
    intros vp vc vf iR T iT u Hlo Hhi Cb Ce Ab Ae HR Hu HuT HT HiT ET.
    assert (Hu1 : u <= 1 # 100000) by nra.
    assert (HiT1 : iT <= 1) by nra.
    assert (Hvp : Qabs vp <= 6) by (apply Qabs_Qle_condition; lra).
    assert (Hc : Qabs (vp - vc) <= 6 * u).
    { eapply Qle_trans; [exact Ce|]. apply Qmult_le_compat_r; lra. }
    apply Qabs_diff_Qle_condition in Hc.
    assert (Hvc : vc < 3 /\ - 6 <= vc).
    { destruct Cb as [[Hb1 Hb2]|[Hb1 Hb2]]; split; lra. }
    rewrite (Qabs_neg (vc - 3)) in Ae by lra.
    assert (Hf : vc - 3 <= vf /\ vf <= 0).
    { destruct Ab as [[Hb1 Hb2]|Hb]; [split; lra|exact Hb]. }
    rewrite (Qabs_neg (vc - 3 - vf)) in Ae by lra.
    assert (Hf9 : vf - (vc - 3) <= 9 * u) by nra.
    assert (Hneg : vf < 0) by nra.
    rewrite (Qabs_neg vf) in HR by lra.
    apply Qabs_diff_Qle_condition in HR.
    assert (P1 : (vf - (vp - 3)) * T <= 15 * u * T)
      by (apply Qmult_le_compat_r; lra).
    assert (P2 : - (15 * u * T) <= (vf - (vp - 3)) * T).
    { setoid_replace (- (15 * u * T)) with ((- (15 * u)) * T) by ring.
      apply Qmult_le_compat_r; lra. }
    assert (P3 : 1 <= (3 - vp) * T).
    { setoid_replace 1 with (iT * T) by (symmetry; exact ET).
      apply Qmult_le_compat_r; lra. }
    assert (P4 : (3 - vp) * T <= 9 * T)
      by (apply Qmult_le_compat_r; lra).
    split; [exact Hneg|]. split; [lra|].
    split; [apply Qabs_diff_Qle_condition; split; nra|].
    split; nra. }
  destruct Hfacts as (Hneg & Hfl & Hclose & Hr10 & Hr0).
  assert (Hm : (mant frac < 0)%Z) by (apply negative_mantissa, Hneg).
  assert (Hr : (1 <= r < 10 * 10 ^ digits)%Z).
  { split.
    - assert (Hz : (0 < r)%Z)
        by (rewrite Zlt_Qlt; exact Hr0).
      lia.
    - rewrite Zlt_Qlt, inject_Z_mult. exact Hr10. }
  assert (Hip : (0 <= r / 10 ^ digits < 10)%Z).
  { split; [apply Z.div_pos; lia|].
    apply Z.div_lt_upper_bound; lia. }
  exists r. split; [|split; [exact Hr|exact Hclose]].
  unfold print_pi. fold cp. fold frac.
  rewrite gmp_sprintf_Ff_shape by exact H1. fold r.
  destruct (Z.ltb_spec (mant frac) 0) as [_|Hge]; [|lia].
  rewrite dec_nat_one_digit by exact Hip. cbn [app].
  set (ds := dec_fixed (Z.to_nat digits) (r mod 10 ^ digits)).
  assert (Lds : List.length ds = Z.to_nat digits) by apply dec_fixed_length.
  unfold sprintf_into. cbn [List.length].
  fold (buffer_size digits). rewrite buffer_size_eq by assumption.
  destruct (Z.leb_spec
              (Z.of_nat (Datatypes.S (Datatypes.S (Datatypes.S (List.length ds)))) + 1)
              (digits + 100)) as [_|Hbad]; [|lia].
  cbn [bind skipn List.length].
  destruct (Z.gtb_spec (Z.of_nat (Datatypes.S (List.length ds))) digits)
    as [_|Hle]; [|lia].
  rewrite print_loop_emit by (cbn [List.length]; lia).
  cbn [bind].
  replace (Z.to_nat digits) with (Datatypes.S (Z.to_nat digits - 1)) at 1 by lia.
  cbn [firstn].
  set (l := "."%char :: firstn (Z.to_nat digits - 1) ds).
  assert (Ll : List.length l = Z.to_nat digits).
  { unfold l. cbn [List.length]. rewrite length_firstn, Lds. lia. }
  rewrite (emit_lay_out (List.length l) l 0 digits)
    by (reflexivity || lia).
  unfold group_digits. rewrite <- app_assoc. reflexivity.
Qed.

Lemma print_pi_below_three_witness :
  exists r,
    print_pi 64 (MkMpf 6467898864216448390 (-61)) 2
    = Done (print_header
            ++ group_digits
                 ("."%char
                  :: firstn (Z.to_nat 2 - 1)
                       (dec_fixed (Z.to_nat 2) (r mod 10 ^ 2)))
            ++ [newline]) /\
    (1 <= r < 10 * 10 ^ 2)%Z /\
    Qabs (inject_Z r
          - (3 - value (MkMpf 6467898864216448390 (-61))) * inject_Z (10 ^ 2))
      <= 501 # 1000.
Proof.
  apply (print_pi_below_three 64 (MkMpf 6467898864216448390 (-61)) 2);
    [lia|unfold INT_MAX; lia|vm_compute; discriminate
    |vm_compute; discriminate|vm_compute; discriminate].
Defined.

(** ** Block sizes of the midpoint-rule estimator *)

Local Close Scope Q_scope.

(** X13.  The blocks of [pi_mpi.c] for [n >= 0] intervals and a group of
    [size >= 1]: every rank but the last takes [n / size] intervals, the
    last one takes [n / size + n mod size], so it carries up to
    [size - 1] intervals more than the others; with more processes than
    intervals every rank but the last has an empty block and the last one
    takes them all. *)
Theorem midpoint_block_sizes (n size rank : Z) :
  0 <= n -> 1 <= size -> 0 <= rank < size ->
  let len := Midpoint.local_end n size rank - Midpoint.local_start n size rank in
  (rank < size - 1 -> len = n / size) /\
  (rank = size - 1 -> len = n / size + n mod size) /\
  n / size <= len < n / size + size /\
  (n < size -> len = if rank =? size - 1 then n else 0).
Proof.
  intros Hn Hs Hr len. unfold len, Midpoint.local_end, Midpoint.local_start.
  pose proof (Z.div_mod n size ltac:(lia)) as Hdm.
  pose proof (Z.mod_pos_bound n size ltac:(lia)) as Hmod.
  pose proof (Z.div_pos n size Hn ltac:(lia)) as Hq.
  destruct (Z.eqb_spec rank (size - 1)) as [E|E].
  - subst rank. split; [lia|]. split; [nia|]. split; [nia|].
    intros Hlt. rewrite Z.div_small by lia. lia.
  - split; [nia|]. split; [lia|]. split; [nia|].
    intros Hlt. rewrite Z.div_small by lia. lia.
Qed.

Lemma midpoint_block_sizes_witness :
  let len := Midpoint.local_end Midpoint.n 7 6 - Midpoint.local_start Midpoint.n 7 6 in
  (6 < 7 - 1 -> len = Midpoint.n / 7) /\
  (6 = 7 - 1 -> len = Midpoint.n / 7 + Midpoint.n mod 7) /\
  Midpoint.n / 7 <= len < Midpoint.n / 7 + 7 /\
  (Midpoint.n < 7 -> len = if 6 =? 7 - 1 then Midpoint.n else 0).
Proof.
  apply (midpoint_block_sizes Midpoint.n 7 6); unfold Midpoint.n; lia.
Defined.
